(** * run-tests.js: the test orchestration script

    A shallow embedding of the group partitioner, the per-test retry loop,
    the permit discipline and the timing recorder of [run-tests.js],
    followed by the properties its specification states about them.
    The selection of the tests, the options, the published ledger and the
    configuration of the runtime bundles are embedded as well, with
    further properties read off the code. *)

From Stdlib Require Import ZArith Ascii String List Lia Permutation QArith Lqa
  Floats.
From stdpp Require Import gmap strings list functions.

Set Default Proof Using "Type".
Open Scope Z_scope.

(** ** JavaScript primitives used by the script *)

Module JS.

(** [Array.prototype.slice(start, end)] on integer arguments: negative
    indices count from the end, everything is clamped to the array. *)
Definition slice {A : Type} (l : list A) (s e : Z) : list A :=
  let len := Z.of_nat (length l) in
  let k := if s <? 0 then Z.max (len + s) 0 else Z.min s len in
  let final := if e <? 0 then Z.max (len + e) 0 else Z.min e len in
  take (Z.to_nat (final - k)) (drop (Z.to_nat k) l).

(** [Math.ceil(a / b)].  For a nonzero divisor this is the exact ceiling of
    the quotient; [b = 0] (where JavaScript yields [Infinity] or [NaN]) is
    outside every statement below. *)
Definition ceil_div (a b : Z) : Z := - ((- a) / b).

(** [s.startsWith(p)] *)
Fixpoint startsWith (s p : string) {struct p} : bool :=
  match p, s with
  | EmptyString, _ => true
  | String c p', String d s' => if Ascii.eqb c d then startsWith s' p' else false
  | String _ _, EmptyString => false
  end.

(** [s.includes(p)]: [p] occurs in [s] at some position. *)
Fixpoint includes (s p : string) : bool :=
  startsWith s p ||
  match s with
  | EmptyString => false
  | String _ s' => includes s' p
  end.

(** [s.endsWith(p)] *)
Definition endsWith (s p : string) : bool :=
  let n := String.length s in
  let m := String.length p in
  (m <=? n)%nat && String.eqb (String.substring (n - m) m s) p.

(** Truthiness of a string value: only the empty string is falsy. *)
Definition truthy_string (s : string) : bool :=
  match s with EmptyString => false | _ => true end.

(** [arr.find(pred)]; [None] stands for [undefined]. *)
Fixpoint find {A : Type} (pred : A -> bool) (l : list A) : option A :=
  match l with
  | [] => None
  | x :: l' => if pred x then Some x else find pred l'
  end.

(** Truthiness of the result of [find] over an array of strings. *)
Definition truthy_found (r : option string) : bool :=
  match r with
  | None => false
  | Some s => truthy_string s
  end.

End JS.

(** ** Group partitioner (lines 228-271) *)

Module Partition.

(** Without timings (lines 266-268). *)
Definition numPerGroup (testNames : list string) (groupTotal : Z) : Z :=
  JS.ceil_div (Z.of_nat (length testNames)) groupTotal.

Definition slice_group (testNames : list string) (groupPos groupTotal : Z)
  : list string :=
  let n := numPerGroup testNames groupTotal in
  let offset := (groupPos - 1) * n in
  JS.slice testNames offset (offset + n).

(** The groups seen by the [groupTotal] shards, positions [1..groupTotal]. *)
Definition slice_groups (testNames : list string) (groupTotal : Z)
  : list (list string) :=
  (fun p => slice_group testNames p groupTotal) <$> seqZ 1 groupTotal.


(** With timings (lines 233-259).  The arithmetic of the accumulated
    durations is kept abstract: [num] stands for the JavaScript numbers
    read from [test-timings.json], with the operations the loop uses. *)
Class Number (num : Type) := {
  zero : num;
  one : num;
  add : num -> num -> num;      (* [a + b] *)
  ltb : num -> num -> bool;     (* [a < b] *)
  truthy : num -> bool          (* [a || ...] takes the left operand *)
}.

(** JavaScript arrays are objects keyed by index: [groups] and
    [groupTimes] are grown one index at a time, so they are finite maps. *)
Record state {num : Type} := State {
  groups : gmap nat (list string);
  groupTimes : gmap nat num
}.
Global Arguments state : clear implicits.

Record scan {num : Type} := Scan {
  cur : state num;
  smallestGroup : option num;
  smallestGroupIdx : nat
}.
Global Arguments scan : clear implicits.

Section Greedy.
Context {num : Type} `{Number num}.
Variable prevTimings : gmap string num.

(** [prevTimings[testName] || 1] *)
Definition duration (testName : string) : num :=
  match prevTimings !! testName with
  | Some d => if truthy d then d else one
  | None => one
  end.

(** [groups = [[]]], [groupTimes = [0]] *)
Definition init : state num :=
  State num {[ 0%nat := [] ]} {[ 0%nat := zero ]}.

(** [a < b] when either side may be [undefined]: the comparison is
    then false. *)
Definition lt (a b : option num) : bool :=
  match a, b with
  | Some x, Some y => ltb x y
  | _, _ => false
  end.

(** Body of the inner [for] loop at index [i] (lines 243-252). *)
Definition scan_body (i : nat) (s : scan num) : scan num :=
  let st :=
    match groups (cur s) !! i with
    | None => State num (<[i := []]> (groups (cur s)))
                        (<[i := zero]> (groupTimes (cur s)))
    | Some _ => cur s
    end in
  let time := groupTimes st !! i in
  if lt time (smallestGroup s)
  then Scan num st time i
  else Scan num st (smallestGroup s) (smallestGroupIdx s).

(** [for (let i = ...; i < groupTotal; i++)] with [n] iterations left. *)
Fixpoint scan_loop (n i : nat) (s : scan num) : scan num :=
  match n with
  | O => s
  | S n' => scan_loop n' (S i) (scan_body i s)
  end.

(** One iteration of [for (const testName of testNames)].  [None] is a
    thrown [TypeError] ([push] on [undefined]); reading an absent
    [groupTimes] slot for the [+=] is reported the same way. *)
Definition step (groupTotal : Z) (st : state num) (testName : string)
  : option (state num) :=
  let s := scan_loop (Z.to_nat (groupTotal - 1)) 1
             (Scan num st (groupTimes st !! 0%nat) 0%nat) in
  let k := smallestGroupIdx s in
  g ← groups (cur s) !! k;
  t ← groupTimes (cur s) !! k;
  Some (State num (<[k := g ++ [testName]]> (groups (cur s)))
                  (<[k := add t (duration testName)]> (groupTimes (cur s)))).

Fixpoint run_from (groupTotal : Z) (st : state num) (testNames : list string)
  : option (state num) :=
  match testNames with
  | [] => Some st
  | testName :: rest =>
      st' ← step groupTotal st testName;
      run_from groupTotal st' rest
  end.

Definition run (groupTotal : Z) (testNames : list string) : option (state num) :=
  run_from groupTotal init testNames.

(** [groups[groupPos - 1]]; [None] is [undefined]. *)
Definition group_at (st : state num) (groupPos : Z) : option (list string) :=
  if groupPos - 1 <? 0 then None
  else groups st !! Z.to_nat (groupPos - 1).

(** The identifiers shard [groupPos] gets to run: an [undefined] group
    has none (the script then stops before running anything). *)
Definition members (st : state num) (groupPos : Z) : list string :=
  default [] (group_at st groupPos).

(** [groupTimes[k]], read as 0 while the slot is not yet created (it
    is created holding 0). *)
Definition accumulated (st : state num) (k : nat) : num :=
  default zero (groupTimes st !! k).

Definition greedy_groups (st : state num) (groupTotal : Z)
  : list (list string) :=
  members st <$> seqZ 1 groupTotal.

(** The index the inner loop settles on for the next identifier. *)
Definition chosen (groupTotal : Z) (st : state num) : nat :=
  smallestGroupIdx
    (scan_loop (Z.to_nat (groupTotal - 1)) 1
       (Scan num st (groupTimes st !! 0%nat) 0%nat)).

(** [groups[k]], read as empty while the slot is not yet created. *)
Definition group (st : state num) (k : nat) : list string :=
  default [] (groups st !! k).

(** The two arrays have the same indices, index 0 among them. *)
Definition wf (st : state num) : Prop :=
  is_Some (groups st !! 0%nat) ∧
  ∀ i : nat, is_Some (groups st !! i) ↔ is_Some (groupTimes st !! i).

(** [<] orders the durations: it is irreflexive and transitive, and so
    is being incomparable (true of JavaScript numbers other than NaN). *)
Record weak_order : Prop := {
  lt_irrefl : ∀ a, ltb a a = false;
  lt_trans : ∀ a b c, ltb a b = true → ltb b c = true → ltb a c = true;
  lt_cotrans : ∀ a b c, ltb a c = true → ltb a b = true ∨ ltb b c = true
}.

(** What an iteration of the inner loop leaves untouched. *)
Definition scan_kept (st : state num) (i : nat) (s : scan num) : Prop :=
  wf (cur s) ∧
  (∀ j, group (cur s) j = group st j) ∧
  (∀ j, accumulated (cur s) j = accumulated st j) ∧
  (∀ j, (j < i)%nat → is_Some (groups (cur s) !! j)) ∧
  (smallestGroupIdx s < i)%nat.

(** What the inner loop knows about its candidate after looking at
    the indices below [i]: nothing seen is smaller, everything before
    it is larger. *)
Definition scan_min (st : state num) (i : nat) (s : scan num) : Prop :=
  smallestGroup s = Some (accumulated st (smallestGroupIdx s)) ∧
  (∀ j, (j < i)%nat →
     ltb (accumulated st j) (accumulated st (smallestGroupIdx s)) = false) ∧
  (∀ j, (j < smallestGroupIdx s)%nat →
     ltb (accumulated st (smallestGroupIdx s)) (accumulated st j) = true).

(** The duration as the specification words it: the recorded duration,
    1 when none is recorded.  To be compared with [duration]. *)
Definition duration_as_specified (testName : string) : num :=
  default one (prevTimings !! testName).

End Greedy.

(** Exact rationals (seconds): an instance for examples and witnesses,
    with an exact [+].  The script's own numbers are the doubles of
    [Doubles.number] below, whose [+] rounds; what is proved of the loop
    is proved for any [Number], with what it needs of [+] and [<] as
    hypotheses. *)
Global Instance Q_number : Number Q := {|
  zero := 0%Q;
  one := 1%Q;
  add := Qplus;
  ltb := fun a b => negb (Qle_bool b a);
  truthy := fun a => negb (Qeq_bool a 0%Q)
|}.

End Partition.

(** ** Running one test (lines 329-445 and 451-548) *)

Module Runner.

(** The three kinds of [Sema] the script creates: [sema], [outputSema]
    and one entry of [directorySemas] per directory name. *)
Inductive sema :=
| Global
| Output
| Directory (dirName : string).

Global Instance sema_eq_dec : EqDecision sema.
Proof. solve_decision. Defined.

Inductive command :=
| GitClean (testDir : string)      (* git clean -fdx <testDir> *)
| GitCheckout (testDir : string).  (* git checkout <testDir> *)

(** Lines printed through [console.log] and [console.error]. *)
Inductive message :=
| Starting (test : string) (i numRetries : nat)
| Finished (test : string) (i numRetries : nat) (time : Z)
| SkippingRetry (test : string)
| CleaningAt (testDir : string)
| FailedDueTo (test : string)
| FailedToPass (test : string) (numRetries : nat)
| ContinueOnError (test : string)
| ResultAsJSON
| TestOutput (json : string)
| EndGroup
| FailedToLoad.

Global Instance command_eq_dec : EqDecision command.
Proof. solve_decision. Defined.

Global Instance message_eq_dec : EqDecision message.
Proof. solve_decision. Defined.

(** What one test callback does, in program order. *)
Inductive action :=
| Acquire (s : sema)
| Release (s : sema)
| Log (m : message)
| Spawn (test : string) (isFinalRun isRetry : bool)
| ChildExit (code : option Z) (signal : option string)
| Write (chunk : string)                   (* process.stdout.write *)
| RemoveTraces (test : string)
| TimingsPush (file : string) (time : Z)
| Exec (cmd : command) (ok : bool)
| KillChildren
| CleanUpAndExit (code : Z)
| ReadResults (test : string) (ok : bool).

Global Instance action_eq_dec : EqDecision action.
Proof. solve_decision. Defined.

Inductive stream := stdout | stderr.

(** What the environment answers during one attempt: the behaviour of the
    spawned child, and whether the two git commands succeed. *)
Record attempt := {
  output : list (stream * string);   (* 'data' events, in order *)
  code : option Z;                   (* [None] is [null] *)
  signal : option string;
  elapsed : Z;                       (* getTime() at exit - start *)
  clean_ok : bool;
  checkout_ok : bool
}.

Record oracle := {
  tries : nat -> attempt;
  results : option string            (* the parsed .results.json, if readable *)
}.

Record config := {
  hideOutput : bool;
  isTestJob : bool;
  shouldContinueTestsOnError : bool;
  originalRetries : nat;
  skipRetryTestManifest : list string;
  GROUP : string;
  ENDGROUP : string;
  dirname__ : string;                (* __dirname *)
  concurrency : nat
}.

(** The two functions of Node's [path] module the callback uses. *)
Class Path := {
  path_dirname : string -> string;
  path_join : string -> string -> string
}.

Definition nl : string := String "010"%char EmptyString.
Definition backslash : string := String "092"%char EmptyString.

(** [code !== 0 || signal !== null] *)
Definition exit_failed (code : option Z) (signal : option string) : bool :=
  negb (bool_decide (code = Some 0)) || negb (bool_decide (signal = None)).

(** The block flushed by the 'exit' handler (lines 413-421). *)
Definition failure_block (cfg : config) (test : string)
  (outputChunks : list (stream * string)) : list action :=
  [Acquire Output; Write (GROUP cfg +:+ test +:+ " output" +:+ nl)]
  ++ (Write <$> (snd <$> outputChunks))
  ++ [Write ("end of " +:+ test +:+ " output" +:+ nl +:+ ENDGROUP cfg +:+ nl);
      Release Output].

(** [runTest]: the actions of one attempt and the value the promise settles
    with, [Some time] when it resolves and [None] when it rejects. *)
Definition runTest (cfg : config) (test : string) (isFinalRun isRetry : bool)
  (a : attempt) : list action * option Z :=
  let outputChunks := if hideOutput cfg then output a else [] in
  let streamed := if hideOutput cfg then [] else Write <$> (snd <$> output a) in
  let started := Spawn test isFinalRun isRetry :: streamed
                 ++ [ChildExit (code a) (signal a)] in
  if exit_failed (code a) (signal a) then
    (started ++ (if hideOutput cfg then failure_block cfg test outputChunks else []),
     None)
  else
    (started ++ [RemoveTraces test], Some (elapsed a)).

Section WithPath.
Context `{Path}.

(** Lines 493-499. *)
Definition recovery_dir (cfg : config) (test : string) : string :=
  let testDir := path_dirname (path_join (dirname__ cfg) test) in
  if JS.endsWith testDir "/test" || JS.endsWith testDir (backslash +:+ "test")
  then path_join testDir "../"
  else testDir.

(** The inner [try] (lines 492-503): a failing [exec] skips what follows
    it and the [catch] discards the error. *)
Definition recover (cfg : config) (test : string) (a : attempt) : list action :=
  let testDir := recovery_dir cfg test in
  Log (CleaningAt testDir)
  :: Exec (GitClean testDir) (clean_ok a)
  :: (if clean_ok a then [Exec (GitCheckout testDir) (checkout_ok a)] else []).

(** The [for] loop of lines 473-508 from index [i], with [fuel]
    iterations left; the boolean is [passed]. *)
Fixpoint attempts (cfg : config) (test : string) (shouldSkipRetries : bool)
  (numRetries : nat) (o : nat -> attempt) (fuel i : nat)
  : list action * bool :=
  match fuel with
  | O => ([], false)
  | S fuel' =>
      let r := runTest cfg test
                 (shouldSkipRetries || (i =? numRetries)%nat)
                 (shouldSkipRetries || (0 <? i)%nat) (o i) in
      match r.2 with
      | Some time =>
          (Log (Starting test i numRetries) :: r.1
           ++ [TimingsPush test time; Log (Finished test i numRetries time)],
           true)
      | None =>
          let handler :=
            if (i <? numRetries)%nat then recover cfg test (o i)
            else [Log (FailedDueTo test)] in
          let rest := attempts cfg test shouldSkipRetries numRetries o fuel' (S i) in
          (Log (Starting test i numRetries) :: r.1 ++ handler ++ rest.1, rest.2)
      end
  end.

(** Lines 465-468. *)
Definition shouldSkipRetries (cfg : config) (test : string) : bool :=
  JS.truthy_found
    (JS.find (fun t => JS.includes t test) (skipRetryTestManifest cfg)).

Definition numRetries (cfg : config) (test : string) : nat :=
  if shouldSkipRetries cfg test then 0%nat else originalRetries cfg.

Definition retry_loop (cfg : config) (test : string) (o : oracle)
  : list action * bool :=
  attempts cfg test (shouldSkipRetries cfg test) (numRetries cfg test)
    (tries o) (S (numRetries cfg test)) 0.

(** Lines 510-521. *)
Definition after_loop (cfg : config) (test : string) (passed : bool)
  : list action :=
  if passed then []
  else Log (FailedToPass test (numRetries cfg test))
       :: (if shouldContinueTestsOnError cfg
           then [Log (ContinueOnError test)]
           else [KillChildren; CleanUpAndExit 1]).

(** Lines 524-544. *)
Definition emit_results (cfg : config) (test : string) (passed : bool)
  (o : oracle) : list action :=
  if (negb passed || shouldContinueTestsOnError cfg) && isTestJob cfg then
    match results o with
    | Some json =>
        [ReadResults test true; Acquire Output]
        ++ (if JS.truthy_string (GROUP cfg) then [Log ResultAsJSON] else [])
        ++ [Log (TestOutput json)]
        ++ (if JS.truthy_string (ENDGROUP cfg) then [Log EndGroup] else [])
        ++ [Release Output]
    | None => [ReadResults test false; Log FailedToLoad]
    end
  else [].

(** The part of the callback that runs while [sema] is held
    (lines 463-544). *)
Definition body (cfg : config) (test : string) (o : oracle) : list action :=
  let r := retry_loop cfg test o in
  (if shouldSkipRetries cfg test then [Log (SkippingRetry test)] else [])
  ++ r.1 ++ after_loop cfg test r.2 ++ emit_results cfg test r.2 o.

(** The whole callback (lines 451-548), once [dirSema] is known. *)
Definition worker (cfg : config) (dirSema : option string) (test : string)
  (o : oracle) : list action :=
  match dirSema with
  | Some d =>
      [Acquire (Directory d); Acquire Global] ++ body cfg test o
      ++ [Release Global; Release (Directory d)]
  | None =>
      [Acquire Global] ++ body cfg test o ++ [Release Global]
  end.

(** Lines 452-459, run for every test before any callback resumes:
    the entry of [directorySemas] each test ends up with. *)
Fixpoint dispatch (directorySemas : gset string) (tests : list string)
  : list (option string) :=
  match tests with
  | [] => []
  | test :: rest =>
      let dirName := path_dirname test in
      let known := bool_decide (dirName ∈ directorySemas) in
      if JS.startsWith test "test/integration" && negb known
      then Some dirName :: dispatch ({[dirName]} ∪ directorySemas) rest
      else (if known then Some dirName else None)
           :: dispatch directorySemas rest
  end.

Definition programs (cfg : config) (jobs : list (string * oracle))
  : list (list action) :=
  zip_with (fun d job => worker cfg d job.1 job.2)
           (dispatch ∅ (fst <$> jobs)) jobs.

(** What attempt [i] does apart from printing output and taking
    permits; used to read traces. *)
Definition attempt_events (cfg : config) (test : string) (skip : bool)
  (n : nat) (o : nat -> attempt) (i : nat) : list action :=
  [Log (Starting test i n);
   Spawn test (skip || (i =? n)%nat) (skip || (0 <? i)%nat);
   ChildExit (code (o i)) (signal (o i))]
  ++ (if exit_failed (code (o i)) (signal (o i)) then
        if (i <? n)%nat then recover cfg test (o i)
        else [Log (FailedDueTo test)]
      else [RemoveTraces test; TimingsPush test (elapsed (o i));
            Log (Finished test i n (elapsed (o i)))]).

End WithPath.

(** How many attempts the loop makes from index [i] with [fuel]
    iterations left. *)
Fixpoint tries_made (o : nat -> attempt) (fuel i : nat) : nat :=
  match fuel with
  | O => O
  | S fuel' =>
      if exit_failed (code (o i)) (signal (o i))
      then S (tries_made o fuel' (S i))
      else 1%nat
  end.

(** Readings of a trace. *)
Definition spawned (l : list action) : list (string * bool * bool) :=
  omap (fun a => match a with
                 | Spawn test isFinalRun isRetry => Some (test, isFinalRun, isRetry)
                 | _ => None
                 end) l.

(** The attempts, their outcomes and the git commands, in order. *)
Definition steps (l : list action) : list action :=
  omap (fun a => match a with
                 | Spawn _ _ _ | ChildExit _ _ | Exec _ _ => Some a
                 | _ => None
                 end) l.

Definition marked_failed (l : list action) : list (string * nat) :=
  omap (fun a => match a with
                 | Log (FailedToPass test n) => Some (test, n)
                 | _ => None
                 end) l.

(** A reading that ignores permits and written output. *)
Definition quiet {B : Type} (f : action -> option B) : Prop :=
  (∀ s, f (Acquire s) = None) ∧ (∀ s, f (Release s) = None) ∧
  (∀ c, f (Write c) = None).

(** A small stand-in for Node's [path] on plain POSIX paths, for running
    the model on examples. *)
Fixpoint before_last_slash (s : string) : option string :=
  match s with
  | EmptyString => None
  | String c s' =>
      match before_last_slash s' with
      | Some p => Some (String c p)
      | None => if Ascii.eqb c "/"%char then Some EmptyString else None
      end
  end.

Definition posix_dirname (s : string) : string :=
  match before_last_slash s with
  | Some EmptyString => "/"
  | Some p => p
  | None => "."
  end.

Definition posix_path : Path := {|
  path_dirname := posix_dirname;
  path_join := fun a b =>
    if String.eqb b "../" then posix_dirname a +:+ "/" else a +:+ "/" +:+ b
|}.

End Runner.

(** ** The callbacks running together (lines 319-320, 447-549, 620-625) *)

Module Sched.
Import Runner.

(** A callback in flight: what it has done and what it still has to do. *)
Record thread := Thread {
  past : list action;
  future : list action
}.

(** The permits left in every [Sema], the callbacks, and everything that
    happened so far, in order and tagged with the callback's index. *)
Record sys := Sys {
  free : sema -> nat;
  threads : list thread;
  events : list (nat * action)
}.

(** [new Sema(concurrency)], [new Sema(1)] twice. *)
Definition capacity (cfg : config) (s : sema) : nat :=
  match s with
  | Global => concurrency cfg
  | Output => 1%nat
  | Directory _ => 1%nat
  end.

Definition boot (cfg : config) (progs : list (list action)) : sys :=
  Sys (capacity cfg) (Thread [] <$> progs) [].

(** Callback [i] performs its next action.  [acquire] goes through only
    when a permit is left; [None] means callback [i] cannot move.  Any
    callback may move next, one action at a time: this covers every order
    in which the event loop can resume the callbacks.  The steps say where
    the callbacks can stand while the process is alive: [CleanUpAndExit]
    and [KillChildren] only record the call, and whether and with which
    code the process exits there is told by [exit_codes] below. *)
Definition fire (σ : sys) (i : nat) : option sys :=
  t ← threads σ !! i;
  match future t with
  | [] => None
  | a :: rest =>
      let next f :=
        Sys f (<[i := Thread (past t ++ [a]) rest]> (threads σ))
            (events σ ++ [(i, a)]) in
      match a with
      | Acquire s =>
          if decide (0 < free σ s)%nat
          then Some (next (<[s := (free σ s - 1)%nat]> (free σ)))
          else None
      | Release s => Some (next (<[s := S (free σ s)]> (free σ)))
      | _ => Some (next (free σ))
      end
  end.

Definition step (σ σ' : sys) : Prop := ∃ i, fire σ i = Some σ'.

Definition reachable (cfg : config) (progs : list (list action)) (σ : sys) : Prop :=
  rtc step (boot cfg progs) σ.

(** Running a given schedule, one callback index per step. *)
Fixpoint run_schedule (schedule : list nat) (σ : sys) : option sys :=
  match schedule with
  | [] => Some σ
  | i :: schedule' => σ' ← fire σ i; run_schedule schedule' σ'
  end.

(** Whether a callback that performed [l] holds a permit of [s]. *)
Fixpoint held_from (s : sema) (h : bool) (l : list action) : bool :=
  match l with
  | [] => h
  | Acquire s' :: l' => held_from s (if decide (s' = s) then true else h) l'
  | Release s' :: l' => held_from s (if decide (s' = s) then false else h) l'
  | _ :: l' => held_from s h l'
  end.

Definition held (s : sema) (l : list action) : bool := held_from s false l.

Definition holds (s : sema) (t : thread) : bool := held s (past t).

(** A test is executing between [sema.acquire()] and [sema.release()]. *)
Definition executing (t : thread) : bool := holds Global t.

Definition finished (σ : sys) : bool :=
  forallb (fun t => bool_decide (future t = [])) (threads σ).

(** [cleanUpAndExit(code)] calls, in the order they were made. *)
Definition exit_calls (l : list action) : list Z :=
  omap (fun a => match a with CleanUpAndExit c => Some c | _ => None end) l.

(** *** How the process exits (lines 69-81, 184-209, 273-276, 510-516
    and 620-625) *)

(** A call of [cleanUpAndExit]: its code, and whether the caller waits
    for the call to return before it goes on. *)
Record exit_call := ExitCall {
  exit_status : Z;
  awaited : bool
}.

(** [cleanUpAndExit] arms a timer that exits with its code, and the
    process exits when the first timer armed fires.  With neither
    NEXT_TEST_STARTER nor NEXT_TEST_TEMP_REPO set the timer is armed
    during the call, so timers are armed in the order of the calls.  With
    one of them set ([cleanup]; lines 313-315 set them when the install is
    created) the call first awaits [fs.remove]: a later call can then arm
    its timer before an earlier one, unless the caller awaited the earlier
    one.  The codes whose timer can be the first armed, for calls made in
    the given order: *)
Fixpoint first_armed (cleanup : bool) (calls : list exit_call) : list Z :=
  match calls with
  | [] => []
  | call :: later =>
      exit_status call
      :: (if cleanup && negb (awaited call) then first_armed cleanup later
          else [])
  end.


(** The calls made by the time the callbacks stand as in [σ], in order:
    the early call; then, for an empty selection, the call of line 275,
    which [main] returns, and the call of line 621 once [main] has
    settled; for a selection with tests, the calls of the callbacks
    (line 515, not awaited) and, once all callbacks are done, the call of
    line 621. *)
Definition calls (early : option Z) (jobs : list (string * oracle)) (σ : sys)
  : list exit_call :=
  match early with Some c => [ExitCall c true] | None => [] end
  ++ match jobs with
     | [] => [ExitCall 1 true; ExitCall 0 false]
     | _ => ((fun c => ExitCall c false) <$> exit_calls (snd <$> events σ))
            ++ (if finished σ then [ExitCall 0 false] else [])
     end.

(** No callback can perform its next action. *)
Definition stuck (σ : sys) : bool :=
  forallb (fun i => match fire σ i with Some _ => false | None => true end)
          (seq 0 (length (threads σ))).

(** The exit codes of a process that exits while the callbacks stand as in
    [σ]: the code of a timer that can be the first armed; when no call was
    made, the process only exits, with code 0, once nothing is left for
    the event loop to do. *)
Definition exit_codes (cleanup : bool) (early : option Z)
  (jobs : list (string * oracle)) (σ : sys) : list Z :=
  match calls early jobs σ with
  | [] => if stuck σ then [0] else []
  | made => first_armed cleanup made
  end.


(** *** The permit discipline of a callback *)

(** The permits a callback holds: its directory permit, a permit of
    [sema], the permit of [outputSema]. *)
Record holding := Holding {
  holds_dir : bool;
  holds_global : bool;
  holds_output : bool
}.

Definition idle : holding := Holding false false false.

(** How an action of a callback whose directory permit is [d] changes
    what it holds. *)
Definition track (d : option string) (h : holding) (a : action) : holding :=
  match a with
  | Acquire Global => Holding (holds_dir h) true (holds_output h)
  | Release Global => Holding (holds_dir h) false (holds_output h)
  | Acquire Output => Holding (holds_dir h) (holds_global h) true
  | Release Output => Holding (holds_dir h) (holds_global h) false
  | Acquire (Directory x) =>
      if decide (d = Some x)
      then Holding true (holds_global h) (holds_output h) else h
  | Release (Directory x) =>
      if decide (d = Some x)
      then Holding false (holds_global h) (holds_output h) else h
  | _ => h
  end.

Definition after (d : option string) (h : holding) (l : list action) : holding :=
  fold_left (track d) l h.

(** The discipline: the directory permit is taken first and given back
    last, only permits held are released, none is taken twice, and with
    [hide] output is written only under the output permit. *)
Definition allowed (d : option string) (hide : bool) (h : holding) (a : action)
  : bool :=
  match a with
  | Acquire Global =>
      negb (holds_global h) && (holds_dir h || bool_decide (d = None))
  | Release Global => holds_global h
  | Acquire (Directory x) =>
      bool_decide (d = Some x) && negb (holds_dir h) && negb (holds_global h)
  | Release (Directory x) =>
      bool_decide (d = Some x) && holds_dir h && negb (holds_global h)
  | Acquire Output => negb (holds_output h)
  | Release Output => holds_output h
  | Write _ => negb hide || holds_output h
  | _ => true
  end.

Fixpoint obeys (d : option string) (hide : bool) (h : holding)
  (l : list action) : bool :=
  match l with
  | [] => true
  | a :: l' => allowed d hide h a && obeys d hide (track d h a) l'
  end.

(** While [sema] is held, so is the directory permit, if there is one. *)
Definition nested (d : option string) (h : holding) : bool :=
  match d with
  | Some _ => implb (holds_global h) (holds_dir h)
  | None => true
  end.

(** A stretch of actions that, started while holding [sema] and not the
    output permit, obeys the discipline and holds the same at its end. *)
Definition neutral (d : option string) (hide : bool) (l : list action) : Prop :=
  ∀ h, holds_global h = true → holds_output h = false →
       obeys d hide h l = true ∧ after d h l = h.

(** *** Invariants of the running system *)

(** Every callback is somewhere in its own program. *)
Definition follows (progs : list (list action)) (σ : sys) : Prop :=
  length (threads σ) = length progs ∧
  ∀ i t, threads σ !! i = Some t → progs !! i = Some (past t ++ future t).

(** A [Sema] with one permit has at most one holder. *)
Definition exclusive (s : sema) (σ : sys) : Prop :=
  (free σ s ≤ 1)%nat ∧
  (∀ i t, threads σ !! i = Some t → holds s t = true → free σ s = 0%nat) ∧
  (∀ i j t t', threads σ !! i = Some t → threads σ !! j = Some t' →
               holds s t = true → holds s t' = true → i = j).

(** The events are those of the callbacks. *)
Definition recorded (σ : sys) : Prop :=
  ∀ c, c ∈ exit_calls (snd <$> events σ) ↔
       ∃ i t, threads σ !! i = Some t ∧ c ∈ exit_calls (past t).

(** Of the permits, an action may only concern the output permit. *)
Definition keeps_to_output (a : action) : Prop :=
  match a with
  | Acquire s | Release s => s = Output
  | _ => True
  end.

End Sched.

(** ** Timing recorder (lines 481-484 and 551-583) *)

Module Timings.
Import Runner.

(** The entries pushed on the module-level [timings] array. *)
Definition pushed (l : list action) : list (string * Z) :=
  omap (fun a => match a with TimingsPush f t => Some (f, t) | _ => None end) l.

(** [timing.time / 1000], as an exact rational. *)
Definition timeInSeconds (time : Z) : Q := (inject_Z time / 1000)%Q.

(** [for (const timing of timings) curTimings[timing.file] = ...] *)
Definition curTimings (timings : list (string * Z)) : gmap string Q :=
  fold_left (fun m timing => <[timing.1 := timeInSeconds timing.2]> m)
            timings ∅.

(** [{ ...fetched, ...curTimings }]: the later spread overrides. *)
Definition newTimings (fetched cur : gmap string Q) : gmap string Q :=
  cur ∪ fetched.

End Timings.

(** ** A small run, for examples *)

Module Example.
Import Runner.

Definition cfg (continue : bool) : config := {|
  hideOutput := true;
  isTestJob := false;
  shouldContinueTestsOnError := continue;
  originalRetries := 1;
  skipRetryTestManifest := [];
  GROUP := "";
  ENDGROUP := "";
  dirname__ := "/repo";
  concurrency := 2
|}.

Definition failing : attempt := {|
  output := [(stderr, "FAIL")];
  code := Some 1;
  signal := None;
  elapsed := 1200;
  clean_ok := false;
  checkout_ok := false
|}.

Definition passing : attempt := {|
  output := [(stdout, "PASS")];
  code := Some 0;
  signal := None;
  elapsed := 800;
  clean_ok := true;
  checkout_ok := true
|}.

Definition always_fails : oracle := {| tries := fun _ => failing; results := None |}.

Definition always_passes : oracle := {| tries := fun _ => passing; results := None |}.

(** Fails once, then passes. *)
Definition flaky : oracle :=
  {| tries := fun i => if (i =? 0)%nat then failing else passing; results := None |}.

Definition jobs : list (string * oracle) :=
  [("test/integration/basic/test/index.test.js", always_fails)].

(** Two tests of the same directory under [test/integration]. *)
Definition siblings : list (string * oracle) :=
  [("test/integration/basic/test/a.test.js", always_passes);
   ("test/integration/basic/test/b.test.js", always_passes)].

Definition prevTimings : gmap string Q :=
  <["a.test.js" := 5%Q]> (<["b.test.js" := (3 # 2)%Q]> ∅).

(** The single callback runs to its end. *)
Definition schedule : list nat := replicate 25 0%nat.

Definition final (continue : bool) : Sched.sys :=
  let start := Sched.boot (cfg continue)
                 (programs (H := posix_path) (cfg continue) jobs) in
  default start (Sched.run_schedule schedule start).


(** A configuration whose [sema] has no permit. *)
Definition no_permit : config := {|
  hideOutput := true;
  isTestJob := false;
  shouldContinueTestsOnError := false;
  originalRetries := 1;
  skipRetryTestManifest := [];
  GROUP := "";
  ENDGROUP := "";
  dirname__ := "/repo";
  concurrency := 0
|}.

End Example.

(** ** Selecting the tests (lines 46-67, 83-89, 152-182, 212-226, 283-293) *)

Module Discovery.

(** A value of [testFilters]: a [RegExp], kept by its source, or a string. *)
Inductive pattern :=
| RegExp (source : string)
| Prefix (s : string).

Global Instance pattern_eq_dec : EqDecision pattern.
Proof. solve_decision. Defined.

(** What is left to the JavaScript engine: [new RegExp(source).test(s)]
    and [String(new RegExp(source))]. *)
Class Regex := {
  regex_test : string -> string -> bool;
  regex_toString : string -> string
}.

Definition development : pattern :=
  RegExp "^(test/(development|e2e)|packages/.*/src/.*)/.*\.test\.(js|jsx|ts|tsx)$".
Definition production : pattern :=
  RegExp "^(test/(production|e2e))/.*\.test\.(js|jsx|ts|tsx)$".
Definition unit : pattern :=
  RegExp "^test/unit|packages/.*/src/.*/.*\.test\.(js|jsx|ts|tsx)$".

Definition testFilters : list (string * pattern) :=
  [("development", development); ("production", production); ("unit", unit);
   ("examples", Prefix "examples/"); ("integration", Prefix "test/integration/");
   ("e2e", Prefix "test/e2e/")].

(** [Object.values(testFilters)] *)
Definition configuredTestTypes : list pattern := snd <$> testFilters.

(** [filterTestsBy] after the [switch]: [undefined], ['none'], or a value
    of [testFilters]. *)
Inductive filter :=
| NoFilter
| Everything
| By (p : pattern).

(** [arg.match(/\.test\.(js|ts|tsx)/)]: the argument contains [.test.]
    followed by one of the three extensions. *)
Definition is_test_arg (arg : string) : bool :=
  JS.includes arg ".test.js" || JS.includes arg ".test.ts"
  || JS.includes arg ".test.tsx".

Section WithRegex.
Context `{Regex}.





(** [`test/${type}`] *)
Definition under_test (type : pattern) : string :=
  match type with
  | RegExp source => "test/" +:+ regex_toString source
  | Prefix s => "test/" +:+ s
  end.

(** Lines 283-287.  The entries of the table have different sources, so
    [type !== testFilters.unit] compares them. *)
Definition hasIsolatedTests (testNames : list string) : bool :=
  existsb (fun test =>
    existsb (fun type =>
      negb (bool_decide (type = unit)) && JS.startsWith test (under_test type))
      configuredTestTypes) testNames.

End WithRegex.

(** Lines 289-293: whether the shared Next.js install is created;
    [NEXT_TEST_MODE] and [--type] may be absent. *)
Definition createsInstall `{Regex} (platform : string) (NEXT_TEST_MODE : option string)
  (testType : option string) (testNames : list string) : bool :=
  negb (String.eqb platform "win32")
  && negb (bool_decide (NEXT_TEST_MODE = Some "deploy"%string))
  && (match testType with
      | Some t => JS.truthy_string t && negb (String.eqb t "unit")
      | None => false
      end
      || hasIsolatedTests testNames).

(** Lines 212-218: the external allow-list. *)
Definition apply_enabledTests (enabledTests tests : list string) : list string :=
  if (0 <? length enabledTests)%nat
  then base.filter
         (fun test => existsb (fun enabled => JS.includes enabled test) enabledTests
                      = true) tests
  else tests.

(** [s.replaceAll(from, to)] for single characters; also [s.replace] with
    a one-character global pattern. *)
Fixpoint replace_char (from to : ascii) (s : string) : string :=
  match s with
  | EmptyString => EmptyString
  | String c s' =>
      String (if Ascii.eqb c from then to else c) (replace_char from to s')
  end.

(** [f.replace(/\\/g, '/').replace(/\/test$/, '')] *)
Definition normalize (f : string) : string :=
  let g := replace_char "092"%char "/"%char f in
  if JS.endsWith g "/test"
  then String.substring 0 (String.length g - 5) g
  else g.

(** [[...new Set(l)]]: the values in the order of their first occurrence. *)
Fixpoint set_values (seen l : list string) : list string :=
  match l with
  | [] => []
  | x :: l' =>
      if bool_decide (x ∈ seen) then set_values seen l'
      else x :: set_values (x :: seen) l'
  end.

(** Lines 220-226. *)
Definition testNames (tests : list string) : list string :=
  set_values [] (normalize <$> tests).

Fixpoint has_char (c : ascii) (s : string) : bool :=
  match s with
  | EmptyString => false
  | String d s' => Ascii.eqb d c || has_char c s'
  end.

End Discovery.

(** An engine for the examples: a pattern is printed between slashes, as
    [RegExp.prototype.toString] does, and [test] looks for the source as a
    plain substring (enough for sources without special characters). *)
Module Plain.
Definition regex : Discovery.Regex := {|
  Discovery.regex_test source s := JS.includes s source;
  Discovery.regex_toString source := "/" +:+ source +:+ "/"
|}.
End Plain.

(** ** Options taken from the platform and the command line
    (lines 24, 117, 134-139 and 372-373) *)

Module Options.

(** [os.platform() === 'win32' ? 2 : 1] *)
Definition DEFAULT_NUM_RETRIES (platform : string) : nat :=
  if String.eqb platform "win32" then 2%nat else 1%nat.

(** [numRetries] after the [switch] on the argument of [--type], if any. *)
Definition numRetries (platform : string) (testType : option string) : nat :=
  match testType with
  | Some type => if String.eqb type "unit" then 0%nat
                 else DEFAULT_NUM_RETRIES platform
  | None => DEFAULT_NUM_RETRIES platform
  end.

(** [test && test.length > 0 ? test.replaceAll('/', '_') : undefined] *)
Definition JEST_JUNIT_OUTPUT_NAME (test : string) : option string :=
  if JS.truthy_string test && (0 <? String.length test)%nat
  then Some (Discovery.replace_char "/"%char "_"%char test)
  else None.

End Options.

(** ** The ledger that is published (lines 578-590) *)

Module Publish.
Import Runner.

Section WithPath.
Context `{Path}.

(** The loop of lines 585-590 over [Object.keys(newTimings)];
    [pathExists] is the answer of [fs.pathExists]. *)
Definition prune (cfg : config) (pathExists : string -> bool)
  (newTimings : gmap string Q) : gmap string Q :=
  fold_left (fun m test =>
               if pathExists (path_join (dirname__ cfg) test) then m
               else delete test m)
            (map_to_list newTimings).*1 newTimings.

(** The content sent with the PATCH request. *)
Definition published (cfg : config) (pathExists : string -> bool)
  (fetched : gmap string Q) (timings : list (string * Z)) : gmap string Q :=
  prune cfg pathExists (Timings.newTimings fetched (Timings.curTimings timings)).

End WithPath.

End Publish.

(** ** Counting permits, remaining work and the actions of a callback *)

Module Permits.
Import Runner Sched.

(** The number of callbacks that hold a permit of [s]. *)
Definition holders (s : sema) (σ : sys) : nat :=
  length (base.filter (fun t => holds s t = true) (threads σ)).

(** The number of actions the callbacks still have to perform. *)
Definition remaining (σ : sys) : nat :=
  sum_list_with (fun t => length (future t)) (threads σ).


End Permits.

(** ** The configuration of the server runtime bundles
    (src/unnamed/part_000) *)

Module Bundle.

(** The keys of [bundleTypes] with the names of their entries. *)
Definition bundleTypes : list (string * list string) :=
  [("app", ["app-page"; "app-route"]);
   ("pages", ["pages"; "pages-api"]);
   ("server", ["server"])].

(** [output.filename]; the options are read for their truthiness. *)
Definition filename (dev turbo experimental : bool) : string :=
  "[name]" +:+ (if turbo then "-turbo" else "")
  +:+ (if experimental then "-experimental" else "")
  +:+ ".runtime." +:+ (if dev then "dev" else "prod") +:+ ".js".

(** The file an entry is written to: webpack puts the name of the entry
    in the place of [[name]]. *)
Definition output_file (name : string) (dev turbo experimental : bool) : string :=
  name +:+ String.substring 6 (String.length (filename dev turbo experimental) - 6)
                            (filename dev turbo experimental).

Definition calculateUniquePort (dev turbo experimental : bool)
  (bundleType : string) : Z :=
  let devOffset := if dev then 1000 else 0 in
  let turboOffset := if turbo then 200 else 0 in
  let experimentalOffset := if experimental then 40 else 0 in
  let bundleTypeOffset :=
    if String.eqb bundleType "app" then 1
    else if String.eqb bundleType "pages" then 2
    else 3 in
  8888 + devOffset + turboOffset + experimentalOffset + bundleTypeOffset.

End Bundle.

(** ** The script's own numbers *)

Module Doubles.

(** IEEE 754 binary64 with its rounded [+] and its [<]; a number is falsy
    when it is 0, -0 or NaN. *)
Definition number : Partition.Number float := {|
  Partition.zero := 0%float;
  Partition.one := 1%float;
  Partition.add := PrimFloat.add;
  Partition.ltb := PrimFloat.ltb;
  Partition.truthy := fun a => negb (PrimFloat.eqb a 0%float || PrimFloat.is_nan a)
|}.

(** A ledger with recorded durations 0.1, 0.1 and 0.2. *)
Definition prevTimings : gmap string float :=
  <["a.test.js" := 0x1.999999999999ap-4%float]>
    (<["b.test.js" := 0x1.999999999999ap-4%float]>
       (<["c.test.js" := 0x1.999999999999ap-3%float]> ∅)).

End Doubles.

(** ** The model on small inputs *)

Example includes_examples :
  JS.includes "test/e2e/app/index.test.ts, flaky" "test/e2e/app/index.test.ts" = true ∧
  JS.includes "test/e2e/app" "test/e2e/app/index.test.ts" = false ∧
  JS.endsWith "/repo/test/integration/basic/test" "/test" = true ∧
  JS.endsWith "/repo/test/integration/latest" "/test" = false.
Proof. by vm_compute. Qed.

Example slice_examples :
  JS.slice [1; 2; 3; 4; 5] 2 4 = [3; 4] ∧
  JS.slice [1; 2; 3; 4; 5] 4 6 = [5] ∧
  JS.slice [1; 2; 3; 4; 5] 6 8 = [] ∧
  JS.slice [1; 2; 3; 4; 5] (-2) 5 = [4; 5] ∧
  JS.ceil_div 3 2 = 2 ∧ JS.ceil_div 4 2 = 2 ∧ JS.ceil_div 0 3 = 0.
Proof. by vm_compute. Qed.

(** Five identifiers over three groups: a.test.js (5s) fills group 0,
    the others go where the total is smallest, the first such group on a
    tie. *)
Example greedy_example :
  (λ st, (Partition.greedy_groups st 3, Partition.accumulated st <$> [0; 1; 2]%nat))
    <$> Partition.run Example.prevTimings 3
          ["a.test.js"; "b.test.js"; "c.test.js"; "d.test.js"; "e.test.js"]
  = Some ([["a.test.js"]; ["b.test.js"; "e.test.js"]; ["c.test.js"; "d.test.js"]],
          [5%Q; (5 # 2)%Q; 2%Q]).
Proof. by vm_compute. Qed.

(** A test that fails once: the failed attempt is flushed as a block, the
    directory is cleaned (here [git clean] fails, so [git checkout] is
    skipped), and the second attempt passes and is timed. *)
Example flaky_example :
  let trace := Runner.worker (H := Runner.posix_path) (Example.cfg false) None
                 "test/e2e/app/index.test.ts" Example.flaky in
  Runner.steps trace
  = [Runner.Spawn "test/e2e/app/index.test.ts" false false;
     Runner.ChildExit (Some 1) None;
     Runner.Exec (Runner.GitClean "/repo/test/e2e/app") false;
     Runner.Spawn "test/e2e/app/index.test.ts" true true;
     Runner.ChildExit (Some 0) None] ∧
  Timings.pushed trace = [("test/e2e/app/index.test.ts", 800)] ∧
  Sched.exit_calls trace = [] ∧
  Runner.recovery_dir (H := Runner.posix_path) (Example.cfg false)
    "test/integration/basic/test/index.test.js"
  = "/repo/test/integration/basic/".
Proof. by vm_compute. Qed.

(** While the first of two sibling tests is executing, the second cannot
    take the permit of their directory. *)
Example siblings_example :
  let start := Sched.boot (Example.cfg false)
                 (Runner.programs (H := Runner.posix_path) (Example.cfg false)
                    Example.siblings) in
  ∃ σ, Sched.run_schedule [0; 0]%nat start = Some σ ∧
       Sched.executing <$> Sched.threads σ = [true; false] ∧
       Sched.fire σ 1 = None.
Proof. eexists. by vm_compute. Qed.

(** ** Facts about the primitives *)

Lemma ceil_div_bounds a b :
  0 < b -> (JS.ceil_div a b - 1) * b < a <= JS.ceil_div a b * b.
Proof.
  intros Hb. unfold JS.ceil_div.
  pose proof (Z.div_mod (- a) b ltac:(lia)) as Hd.
  pose proof (Z.mod_pos_bound (- a) b Hb) as Hm.
  nia.
Qed.

Lemma ceil_div_nonneg a b : 0 < b -> 0 <= a -> 0 <= JS.ceil_div a b.
Proof.
  intros Hb Ha. pose proof (ceil_div_bounds a b Hb). nia.
Qed.

Lemma slice_nonneg {A : Type} (l : list A) (s n : Z) :
  0 <= s -> 0 <= n ->
  JS.slice l s (s + n) = take (Z.to_nat n) (drop (Z.to_nat s) l).
Proof.
  intros Hs Hn. unfold JS.slice.
  destruct (Z.ltb_spec s 0); [lia|].
  destruct (Z.ltb_spec (s + n) 0); [lia|].
  destruct (Z_le_gt_dec s (Z.of_nat (length l))) as [Hle|Hgt].
  - rewrite (Z.min_l s) by lia.
    destruct (Z_le_gt_dec (s + n) (Z.of_nat (length l))).
    + rewrite Z.min_l by lia. f_equal. lia.
    + rewrite Z.min_r by lia.
      rewrite !take_ge; [done| |]; rewrite length_drop; lia.
  - rewrite !drop_ge by lia. by rewrite !take_nil.
Qed.

(** Cutting a list into [k] consecutive windows of width [n] loses nothing
    as soon as the windows cover it. *)
Lemma windows_cover {A : Type} (n k : nat) (l : list A) :
  (length l <= k * n)%nat ->
  concat ((fun i => take n (drop (i * n) l)) <$> seq 0 k) = l.
Proof.
  revert l. induction k as [|k IH]; intros l Hlen.
  - destruct l; simpl in *; [done|lia].
  - rewrite <- cons_seq, <- fmap_S_seq. cbn [fmap list_fmap concat].
    rewrite <- list_fmap_compose. simpl.
    transitivity (take n l ++ drop n l); [|apply take_drop]. f_equal.
    transitivity (concat ((fun i => take n (drop (i * n) (drop n l))) <$> seq 0 k));
      [|apply IH; rewrite length_drop; lia].
    f_equal. apply list_fmap_ext. intros _ i _. simpl.
    by rewrite drop_drop.
Qed.

(** ** The partitioner *)

Section PartitionFacts.
Import Partition.
Context {num : Type} `{Number num}.
Variable prevTimings : gmap string num.

Implicit Types (st : state num) (s : scan num).

Lemma wf_init : wf init.
Proof.
  split; [by eexists|]. intros i. unfold init; simpl.
  destruct (decide (i = 0%nat)) as [->|Hne].
  - rewrite !lookup_singleton_eq. split; by eexists.
  - rewrite !lookup_singleton_ne by done. split; intros [? ?]; done.
Qed.

Lemma group_init k : group init k = [].
Proof.
  unfold group, init; simpl. destruct (decide (k = 0%nat)) as [->|Hne].
  - by rewrite lookup_singleton_eq.
  - by rewrite lookup_singleton_ne.
Qed.

Lemma scan_body_kept st i s :
  scan_kept st i s → scan_kept st (S i) (scan_body i s).
Proof.
  intros (Hwf & Hg & Ha & Hlow & Hk).
  assert (Hcur : ∃ st', cur (scan_body i s) = st' ∧
            st' = match groups (cur s) !! i with
                  | None => State num (<[i := []]> (groups (cur s)))
                              (<[i := zero]> (groupTimes (cur s)))
                  | Some _ => cur s
                  end).
  { eexists; split; [|reflexivity]. unfold scan_body.
    by destruct (lt _ _). }
  destruct Hcur as (st' & Hst' & Hdef).
  assert (Hidx : (smallestGroupIdx (scan_body i s) < S i)%nat).
  { unfold scan_body. destruct (lt _ _); simpl; lia. }
  unfold scan_kept. rewrite Hst'. clear Hst'.
  destruct (groups (cur s) !! i) as [g|] eqn:Hgi; subst st'.
  - split_and!; try done.
    intros j Hj. destruct (decide (j = i)) as [->|]; [by eexists|].
    apply Hlow. lia.
  - assert (Hti : groupTimes (cur s) !! i = None).
    { destruct Hwf as [_ Hdom]. apply eq_None_not_Some. rewrite <- Hdom.
      by rewrite Hgi; intros [? ?]. }
    split_and!; simpl.
    + split; simpl.
      * destruct (decide (0%nat = i)) as [<-|Hne].
        -- rewrite lookup_insert_eq. by eexists.
        -- rewrite lookup_insert_ne by done. exact (proj1 Hwf).
      * intros j. destruct (decide (j = i)) as [->|Hne].
        -- rewrite !lookup_insert_eq. split; by eexists.
        -- rewrite !lookup_insert_ne by done. exact (proj2 Hwf j).
    + intros j. rewrite <- Hg. unfold group; simpl.
      destruct (decide (j = i)) as [->|Hne].
      * by rewrite lookup_insert_eq, Hgi.
      * by rewrite lookup_insert_ne.
    + intros j. rewrite <- Ha. unfold accumulated; simpl.
      destruct (decide (j = i)) as [->|Hne].
      * by rewrite lookup_insert_eq, Hti.
      * by rewrite lookup_insert_ne.
    + intros j Hj. destruct (decide (j = i)) as [->|Hne].
      * rewrite lookup_insert_eq. by eexists.
      * rewrite lookup_insert_ne by done. apply Hlow. lia.
    + done.
Qed.

Lemma scan_loop_kept st n i s :
  scan_kept st i s → scan_kept st (n + i) (scan_loop n i s).
Proof.
  revert i s. induction n as [|n IH]; intros i s Hs; [done|].
  simpl. replace (S (n + i)) with (n + S i)%nat by lia.
  apply IH. by apply scan_body_kept.
Qed.

(** One identifier is always placed, in the group the scan chose, and
    nothing else moves. *)
Lemma step_spec gt st testName :
  wf st →
  ∃ st', step prevTimings gt st testName = Some st' ∧ wf st' ∧
    (chosen gt st < S (Z.to_nat (gt - 1)))%nat ∧
    group st' (chosen gt st) = group st (chosen gt st) ++ [testName] ∧
    (∀ j, j ≠ chosen gt st → group st' j = group st j) ∧
    accumulated st' (chosen gt st)
      = add (accumulated st (chosen gt st)) (duration prevTimings testName) ∧
    (∀ j, j ≠ chosen gt st → accumulated st' j = accumulated st j).
Proof.
  intros Hwf. unfold step, chosen.
  set (s0 := Scan num st (groupTimes st !! 0%nat) 0).
  assert (Hs0 : scan_kept st 1 s0).
  { split_and!; simpl; try done; [|lia].
    intros j Hj. replace j with 0%nat by lia. exact (proj1 Hwf). }
  apply (scan_loop_kept st (Z.to_nat (gt - 1))) in Hs0.
  set (s := scan_loop (Z.to_nat (gt - 1)) 1 s0) in *.
  destruct Hs0 as (Hwf' & Hg & Ha & Hlow & Hk).
  set (k := smallestGroupIdx s) in *.
  destruct (Hlow k Hk) as [g Hgk].
  destruct (proj1 (proj2 Hwf' k) (ex_intro _ g Hgk)) as [t0 Htk].
  rewrite Hgk, Htk. simpl. eexists. split; [reflexivity|].
  assert (Hgv : group st k = g) by (rewrite <- Hg; unfold group; by rewrite Hgk).
  assert (Hav : accumulated st k = t0)
    by (rewrite <- Ha; unfold accumulated; by rewrite Htk).
  split_and!.
  - split; simpl.
    + destruct (decide (0%nat = k)) as [<-|Hne].
      * rewrite lookup_insert_eq. by eexists.
      * rewrite lookup_insert_ne by done. exact (proj1 Hwf').
    + intros j. destruct (decide (j = k)) as [->|Hne].
      * rewrite !lookup_insert_eq. split; by eexists.
      * rewrite !lookup_insert_ne by done. exact (proj2 Hwf' j).
  - lia.
  - unfold group at 1; simpl. by rewrite lookup_insert_eq, Hgv.
  - intros j Hne. rewrite <- Hg. unfold group; simpl.
    by rewrite lookup_insert_ne.
  - unfold accumulated at 1; simpl. by rewrite lookup_insert_eq, Hav.
  - intros j Hne. rewrite <- Ha. unfold accumulated; simpl.
    by rewrite lookup_insert_ne.
Qed.

(** Appending to one of the first [n] lists of a family adds that one
    element to their concatenation. *)
Lemma concat_push {A : Type} (f f' : nat → list A) (k n : nat) (x : A) :
  (k < n)%nat → f' k = f k ++ [x] → (∀ j, j ≠ k → f' j = f j) →
  concat (f' <$> seq 0 n) ≡ₚ x :: concat (f <$> seq 0 n).
Proof.
  intros Hk Hat Hother. induction n as [|n IH]; [lia|].
  rewrite seq_S, !fmap_app, !concat_app. simpl. rewrite !app_nil_r.
  destruct (decide (k = n)) as [->|Hne].
  - rewrite Hat.
    replace (f' <$> seq 0 n) with (f <$> seq 0 n).
    + rewrite app_assoc. by rewrite <- Permutation_cons_append.
    + apply list_fmap_ext. intros i j [-> Hj]%lookup_seq.
      symmetry. apply Hother. lia.
  - rewrite IH by lia. by rewrite (Hother n) by done.
Qed.

(** The loop over [testNames] never throws and spreads exactly the
    identifiers it was given. *)
Lemma run_from_spec gt n testNames st :
  wf st → (S (Z.to_nat (gt - 1)) ≤ n)%nat →
  ∃ st', run_from prevTimings gt st testNames = Some st' ∧ wf st' ∧
    concat (group st' <$> seq 0 n) ≡ₚ concat (group st <$> seq 0 n) ++ testNames.
Proof.
  revert st. induction testNames as [|t l IH]; intros st Hwf Hn; simpl.
  - exists st. by rewrite app_nil_r.
  - destruct (step_spec gt st t Hwf)
      as (st1 & -> & Hwf1 & Hk & Hat & Hother & _). simpl.
    destruct (IH st1 Hwf1 Hn) as (st' & -> & Hwf' & Hperm).
    exists st'. split_and!; try done.
    rewrite Hperm, (concat_push (group st) (group st1) (chosen gt st) n t)
      by (done || lia).
    by rewrite <- Permutation_middle.
Qed.

Lemma greedy_groups_seq st gt :
  greedy_groups st gt = group st <$> seq 0 (Z.to_nat gt).
Proof.
  unfold greedy_groups, seqZ. rewrite <- list_fmap_compose.
  apply list_fmap_ext. intros _ i _. simpl.
  unfold members, group_at, group.
  destruct (Z.ltb_spec (Z.of_nat i + 1 - 1) 0); [lia|].
  do 2 f_equal. lia.
Qed.

Lemma scan_body_min st i s :
  weak_order (num := num) → scan_kept st i s → scan_min st i s →
  scan_min st (S i) (scan_body i s).
Proof.
  intros [Hirr Htr Hco] Hkept (Hsm & Hseen & Hbefore).
  pose proof (scan_body_kept st i s Hkept) as (Hwf' & _ & Ha' & Hlow' & _).
  destruct (Hlow' i ltac:(lia)) as [g Hg].
  destruct (proj1 (proj2 Hwf' i) (ex_intro _ g Hg)) as [x Hx].
  assert (Hxi : x = accumulated st i)
    by (rewrite <- Ha'; unfold accumulated; by rewrite Hx).
  subst x. revert Hx. unfold scan_body.
  set (st' := match groups (cur s) !! i with
              | None => _ | Some _ => _ end).
  destruct (lt (groupTimes st' !! i) (smallestGroup s)) eqn:Hlt;
    simpl; intros Hx; rewrite Hx, Hsm in Hlt; simpl in Hlt.
  - split_and!; simpl; [done| |].
    + intros j Hj. destruct (decide (j = i)) as [->|Hne]; [apply Hirr|].
      destruct (ltb (accumulated st j) (accumulated st i)) eqn:Hji; [|done].
      rewrite <- (Hseen j ltac:(lia)). symmetry. by eapply Htr.
    + intros j Hj. destruct (Hco _ (accumulated st j) _ Hlt) as [?|Hjk]; [done|].
      by rewrite (Hseen j) in Hjk by lia.
  - split_and!; simpl; [done| |done].
    intros j Hj. destruct (decide (j = i)) as [->|Hne]; [done|].
    apply Hseen. lia.
Qed.

Lemma scan_loop_min st n i s :
  weak_order (num := num) → scan_kept st i s → scan_min st i s →
  scan_min st (n + i) (scan_loop n i s).
Proof.
  intros Hord. revert i s. induction n as [|n IH]; intros i s Hk Hm; [done|].
  simpl. replace (S (n + i)) with (n + S i)%nat by lia.
  apply IH; [by apply scan_body_kept|by apply scan_body_min].
Qed.

(** The scan settles on the first group of smallest accumulated
    duration. *)
Lemma chosen_min gt st :
  weak_order (num := num) → wf st →
  (∀ j, (j < S (Z.to_nat (gt - 1)))%nat →
     ltb (accumulated st j) (accumulated st (chosen gt st)) = false) ∧
  (∀ j, (j < chosen gt st)%nat →
     ltb (accumulated st (chosen gt st)) (accumulated st j) = true).
Proof.
  intros Hord Hwf. unfold chosen.
  set (s0 := Scan num st (groupTimes st !! 0%nat) 0).
  assert (Hk0 : scan_kept st 1 s0).
  { split_and!; simpl; try done; [|lia].
    intros j Hj. replace j with 0%nat by lia. exact (proj1 Hwf). }
  assert (Hm0 : scan_min st 1 s0).
  { split_and!; simpl.
    - destruct (proj1 (proj2 Hwf 0%nat) (proj1 Hwf)) as [x Hx].
      unfold accumulated. by rewrite Hx.
    - intros j Hj. replace j with 0%nat by lia. apply Hord.
    - intros j Hj. lia. }
  pose proof (scan_loop_min st (Z.to_nat (gt - 1)) 1 s0 Hord Hk0 Hm0)
    as (_ & Hseen & Hbefore).
  split; [|done]. intros j Hj. apply Hseen. lia.
Qed.

End PartitionFacts.

Lemma length_concat_sum {A : Type} (ls : list (list A)) :
  length (concat ls) = sum_list (length <$> ls).
Proof.
  induction ls as [|l ls IH]; [done|]. simpl. rewrite length_app. by rewrite IH.
Qed.

Lemma slice_groups_windows (testNames : list string) (groupTotal : Z) :
  1 <= groupTotal ->
  Partition.slice_groups testNames groupTotal
  = (fun i => take (Z.to_nat (Partition.numPerGroup testNames groupTotal))
                (drop (i * Z.to_nat (Partition.numPerGroup testNames groupTotal))
                      testNames))
    <$> seq 0 (Z.to_nat groupTotal).
Proof.
  intros Hgt. unfold Partition.slice_groups, seqZ. rewrite <- list_fmap_compose.
  apply list_fmap_ext. intros _ i _. simpl. unfold Partition.slice_group.
  pose proof (ceil_div_nonneg (Z.of_nat (length testNames)) groupTotal
                ltac:(lia) ltac:(lia)) as Hn.
  fold (Partition.numPerGroup testNames groupTotal) in Hn.
  rewrite slice_nonneg by nia. do 2 f_equal. nia.
Qed.

Lemma run_app {num : Type} `{Partition.Number num} (prevTimings : gmap string num)
  gt st (l1 l2 : list string) :
  Partition.run_from prevTimings gt st (l1 ++ l2)
  = Partition.run_from prevTimings gt st l1
    ≫= fun st1 => Partition.run_from prevTimings gt st1 l2.
Proof.
  revert st. induction l1 as [|t l1 IH]; intros st; simpl; [done|].
  destruct (Partition.step prevTimings gt st t); simpl; [apply IH|done].
Qed.

Lemma Q_ltb_lt (a b : Q) : Partition.ltb a b = true <-> (a < b)%Q.
Proof.
  simpl. rewrite negb_true_iff, <- not_true_iff_false, Qle_bool_iff.
  split; [apply Qnot_le_lt|apply Qlt_not_le].
Qed.

Lemma Q_weak_order : Partition.weak_order (num := Q).
Proof.
  split.
  - intros a. apply not_true_iff_false. rewrite Q_ltb_lt. apply Qlt_irrefl.
  - intros a b c. rewrite !Q_ltb_lt. apply Qlt_trans.
  - intros a b c. rewrite !Q_ltb_lt. intros Hac.
    destruct (Qlt_le_dec a b) as [?|Hba]; [by left|right].
    by eapply Qle_lt_trans.
Qed.

(** ** What the specification states about the partitioner *)

(** C1: for every identifier list and every [groupTotal >= 1], both the
    contiguous slicing and the timing-based greedy loop hand out every
    identifier to exactly one group: read one after the other, the groups
    hold the identifiers of the list, each as often as the list does (so
    none twice when the list has no duplicates), and the per-group counts
    add up to the length of the list.  The greedy loop never throws. *)
Theorem partition_assigns_each_identifier_once
  {num : Type} `{Partition.Number num} (prevTimings : gmap string num)
  (testNames : list string) (groupTotal : Z) :
  1 <= groupTotal ->
  (concat (Partition.slice_groups testNames groupTotal) = testNames ∧
   sum_list (length <$> Partition.slice_groups testNames groupTotal)
   = length testNames) ∧
  (∃ st, Partition.run prevTimings groupTotal testNames = Some st ∧
     concat (Partition.greedy_groups st groupTotal) ≡ₚ testNames ∧
     (NoDup testNames → NoDup (concat (Partition.greedy_groups st groupTotal))) ∧
     sum_list (length <$> Partition.greedy_groups st groupTotal)
     = length testNames).
Proof.
  intros Hgt. split.
  - assert (Hcat : concat (Partition.slice_groups testNames groupTotal) = testNames).
    { rewrite slice_groups_windows by done. apply windows_cover.
      pose proof (ceil_div_bounds (Z.of_nat (length testNames)) groupTotal
                    ltac:(lia)) as Hb.
      fold (Partition.numPerGroup testNames groupTotal) in Hb. nia. }
    split; [done|]. by rewrite <- length_concat_sum, Hcat.
  - destruct (run_from_spec prevTimings groupTotal (Z.to_nat groupTotal)
                testNames Partition.init wf_init ltac:(lia))
      as (st & Hrun & _ & Hperm).
    exists st. split; [done|].
    assert (Hcat : concat (Partition.greedy_groups st groupTotal) ≡ₚ testNames).
    { rewrite greedy_groups_seq, Hperm.
      replace (concat (Partition.group Partition.init <$> seq 0 (Z.to_nat groupTotal)))
        with (@nil string); [done|].
      symmetry. apply concat_nil_Forall, Forall_fmap, Forall_forall.
      intros k _. apply group_init. }
    split_and!; [done| |].
    + intros Hnd. by rewrite Hcat.
    + by rewrite <- length_concat_sum, Hcat.
Qed.

Lemma partition_assigns_each_identifier_once_witness :
  1 <= 2 ∧
  (concat (Partition.slice_groups ["a"; "b"; "c"]%string 2) = ["a"; "b"; "c"]%string ∧
   sum_list (length <$> Partition.slice_groups ["a"; "b"; "c"]%string 2) = 3%nat) ∧
  (∃ st, Partition.run (∅ : gmap string Q) 2 ["a"; "b"; "c"]%string = Some st ∧
     concat (Partition.greedy_groups st 2) ≡ₚ ["a"; "b"; "c"]%string ∧
     (NoDup ["a"; "b"; "c"]%string → NoDup (concat (Partition.greedy_groups st 2))) ∧
     sum_list (length <$> Partition.greedy_groups st 2) = 3%nat).
Proof.
  split; [lia|].
  apply (partition_assigns_each_identifier_once (∅ : gmap string Q)
           ["a"; "b"; "c"]%string 2).
  lia.
Defined.

(** C5: without timings the groups are consecutive slices of the discovered
    list, each [ceil(total / groupTotal)] wide; for the discovery set
    a/x.test.js, a/y.test.js, b/z.test.js and [groupTotal = 2] group 1 gets
    the first two and group 2 the third. *)
Theorem slicing_is_contiguous (testNames : list string) (groupPos groupTotal : Z) :
  1 <= groupTotal -> 1 <= groupPos ->
  let n := Partition.numPerGroup testNames groupTotal in
  ((n - 1) * groupTotal < Z.of_nat (length testNames) <= n * groupTotal) ∧
  Partition.slice_group testNames groupPos groupTotal
  = take (Z.to_nat n) (drop (Z.to_nat ((groupPos - 1) * n)) testNames) ∧
  (Z.of_nat (length (Partition.slice_group testNames groupPos groupTotal)) <= n) ∧
  Partition.slice_group ["a/x.test.js"; "a/y.test.js"; "b/z.test.js"]%string 1 2
  = ["a/x.test.js"; "a/y.test.js"]%string ∧
  Partition.slice_group ["a/x.test.js"; "a/y.test.js"; "b/z.test.js"]%string 2 2
  = ["b/z.test.js"]%string.
Proof.
  intros Hgt Hpos n.
  pose proof (ceil_div_bounds (Z.of_nat (length testNames)) groupTotal
                ltac:(lia)) as Hb.
  pose proof (ceil_div_nonneg (Z.of_nat (length testNames)) groupTotal
                ltac:(lia) ltac:(lia)) as Hn.
  fold (Partition.numPerGroup testNames groupTotal) in Hb, Hn. fold n in Hb, Hn.
  assert (Heq : Partition.slice_group testNames groupPos groupTotal
                = take (Z.to_nat n) (drop (Z.to_nat ((groupPos - 1) * n)) testNames)).
  { unfold Partition.slice_group. fold n. apply slice_nonneg; nia. }
  split_and!; [lia|lia|done| |done|done].
  rewrite Heq, length_take. lia.
Qed.

Lemma slicing_is_contiguous_witness :
  let testNames := ["a"; "b"; "c"; "d"; "e"]%string in
  1 <= 2 ∧ 1 <= 2 ∧
  Partition.slice_group testNames 2 2
  = take (Z.to_nat (Partition.numPerGroup testNames 2))
      (drop (Z.to_nat ((2 - 1) * Partition.numPerGroup testNames 2)) testNames).
Proof.
  split; [lia|]. split; [lia|].
  apply (slicing_is_contiguous ["a"; "b"; "c"; "d"; "e"]%string 2 2); lia.
Defined.

(** C3, as the code has it: the greedy loop takes the identifiers in
    discovered order; each goes to the group whose accumulated duration is
    smallest at that moment, the lowest index among equals; the group's
    total then grows by the identifier's recorded duration, or by 1 when
    none is recorded or the recorded one is falsy (zero). *)
Theorem greedy_picks_first_smallest
  {num : Type} `{Partition.Number num} (prevTimings : gmap string num)
  (groupTotal : Z) (before : list string) (testName : string) :
  Partition.weak_order (num := num) ->
  ∃ st st' k,
    Partition.run prevTimings groupTotal before = Some st ∧
    Partition.run prevTimings groupTotal (before ++ [testName]) = Some st' ∧
    (k < Z.to_nat (Z.max 1 groupTotal))%nat ∧
    (∀ j, (j < Z.to_nat (Z.max 1 groupTotal))%nat →
       Partition.ltb (Partition.accumulated st j) (Partition.accumulated st k) = false) ∧
    (∀ j, (j < k)%nat →
       Partition.ltb (Partition.accumulated st k) (Partition.accumulated st j) = true) ∧
    Partition.group st' k = Partition.group st k ++ [testName] ∧
    (∀ j, j ≠ k → Partition.group st' j = Partition.group st j) ∧
    Partition.accumulated st' k
    = Partition.add (Partition.accumulated st k)
        match prevTimings !! testName with
        | Some d => if Partition.truthy d then d else Partition.one
        | None => Partition.one
        end ∧
    (∀ j, j ≠ k → Partition.accumulated st' j = Partition.accumulated st j).
Proof.
  intros Hord.
  destruct (run_from_spec prevTimings groupTotal (S (Z.to_nat (groupTotal - 1)))
              before Partition.init wf_init ltac:(lia)) as (st & Hrun & Hwf & _).
  destruct (step_spec prevTimings groupTotal st testName Hwf)
    as (st' & Hstep & _ & Hk & Hat & Hother & Hacc & Hacc').
  destruct (chosen_min groupTotal st Hord Hwf) as [Hmin Hfirst].
  exists st, st', (Partition.chosen groupTotal st).
  replace (Z.to_nat (Z.max 1 groupTotal)) with (S (Z.to_nat (groupTotal - 1))) by lia.
  split_and!; try done.
  unfold Partition.run in *. rewrite run_app, Hrun. simpl. by rewrite Hstep.
Qed.

Lemma greedy_picks_first_smallest_witness :
  ∃ (st st' : Partition.state Q) k,
    Partition.run (<["b" := 3%Q]> ∅) 2 ["a"]%string = Some st ∧
    Partition.run (<["b" := 3%Q]> ∅) 2 (["a"%string] ++ ["b"%string]) = Some st' ∧
    (k < Z.to_nat (Z.max 1 2))%nat ∧
    (∀ j, (j < Z.to_nat (Z.max 1 2))%nat →
       Partition.ltb (Partition.accumulated st j) (Partition.accumulated st k) = false) ∧
    (∀ j, (j < k)%nat →
       Partition.ltb (Partition.accumulated st k) (Partition.accumulated st j) = true) ∧
    Partition.group st' k = Partition.group st k ++ ["b"%string] ∧
    (∀ j, j ≠ k → Partition.group st' j = Partition.group st j) ∧
    Partition.accumulated st' k
    = Partition.add (Partition.accumulated st k)
        match (<["b" := 3%Q]> ∅ : gmap string Q) !! "b"%string with
        | Some d => if Partition.truthy d then d else Partition.one
        | None => Partition.one
        end ∧
    (∀ j, j ≠ k → Partition.accumulated st' j = Partition.accumulated st j).
Proof.
  exact (greedy_picks_first_smallest (<["b" := 3%Q]> ∅) 2 ["a"]%string "b"%string
           Q_weak_order).
Defined.

(** C3 as stated fails where a duration of 0 is recorded: the identifier's
    known duration is 0, yet its group's total grows by 1. *)
Lemma zero_duration_counts_as_one :
  let prevTimings : gmap string Q := <["a.test.js"%string := 0%Q]> ∅ in
  prevTimings !! "a.test.js"%string = Some 0%Q ∧
  Partition.duration_as_specified prevTimings "a.test.js" = 0%Q ∧
  ∃ st',
    Partition.run prevTimings 1 ["a.test.js"%string] = Some st' ∧
    Partition.group st' 0 = ["a.test.js"%string] ∧
    Partition.accumulated st' 0 = 1%Q ∧
    Partition.accumulated st' 0
    ≠ Partition.add (Partition.accumulated Partition.init 0)
        (Partition.duration_as_specified prevTimings "a.test.js").
Proof.
  vm_compute. split; [done|]. split; [done|].
  eexists. split; [reflexivity|]. split; [done|]. split; [done|]. discriminate.
Qed.

(** ** Strings *)

Lemma append_nil (t : string) : "" +:+ t = t.
Proof. reflexivity. Qed.

Lemma append_cons (c : ascii) (s t : string) :
  String c s +:+ t = String c (s +:+ t).
Proof. reflexivity. Qed.

Lemma append_length (s1 s2 : string) :
  String.length (s1 +:+ s2) = (String.length s1 + String.length s2)%nat.
Proof.
  induction s1 as [|c s1 IH]; [done|].
  rewrite append_cons. simpl. by rewrite IH.
Qed.

Lemma append_empty_r (s : string) : s +:+ "" = s.
Proof.
  induction s as [|c s IH]; [done|]. rewrite append_cons. by f_equal.
Qed.

Lemma length_zero_empty (s : string) : String.length s = 0%nat → s = "".
Proof. by destruct s. Qed.

Lemma startsWith_spec (s p : string) :
  JS.startsWith s p = true ↔ ∃ post, s = p +:+ post.
Proof.
  revert s. induction p as [|c p IH]; intros s; simpl.
  - split; [intros _; exists s; reflexivity|done].
  - destruct s as [|d s]; simpl.
    + split; [done|]. intros [post Hpost]. by rewrite append_cons in Hpost.
    + destruct (Ascii.eqb_spec c d) as [->|Hne].
      * rewrite IH. split; intros [post Hpost]; exists post.
        -- rewrite append_cons. by f_equal.
        -- rewrite append_cons in Hpost. congruence.
      * split; [done|]. intros [post Hpost].
        rewrite append_cons in Hpost. congruence.
Qed.

Lemma includes_spec (s p : string) :
  JS.includes s p = true ↔ ∃ pre post, s = pre +:+ p +:+ post.
Proof.
  induction s as [|c s IH]; simpl.
  - rewrite orb_false_r, startsWith_spec. split.
    + intros [post ->]. by exists "", post.
    + intros (pre & post & Heq). destruct pre; [by exists post|].
      by rewrite append_cons in Heq.
  - rewrite orb_true_iff, startsWith_spec, IH. split.
    + intros [[post ->]|(pre & post & ->)].
      * by exists "", post.
      * by exists (String c pre), post.
    + intros (pre & post & Heq). destruct pre as [|c' pre].
      * left. by exists post.
      * right. exists pre, post. rewrite append_cons in Heq. congruence.
Qed.

Lemma find_Some {A : Type} (pred : A → bool) (l : list A) (x : A) :
  JS.find pred l = Some x → x ∈ l ∧ pred x = true.
Proof.
  induction l as [|y l IH]; simpl; [done|].
  destruct (pred y) eqn:Hy.
  - intros [= ->]. split; [left|done].
  - intros [? ?]%IH. split; [by right|done].
Qed.

Lemma find_None {A : Type} (pred : A → bool) (l : list A) :
  JS.find pred l = None ↔ ∀ x, x ∈ l → pred x = false.
Proof.
  induction l as [|y l IH]; simpl.
  - split; [|done]. intros _ x Hx. by apply elem_of_nil in Hx.
  - destruct (pred y) eqn:Hy.
    + split; [done|]. intros Hall. rewrite Hall in Hy; [done|left].
    + rewrite IH. split.
      * intros Hall x [->|Hx]%elem_of_cons; [done|by apply Hall].
      * intros Hall x Hx. apply Hall. by right.
Qed.

(** ** What the specification states about the skip-retry manifest *)

(** C10: the retries of a test are skipped exactly when some entry of the
    skip-retry manifest contains the test identifier as a substring (the
    entry may be equal to it); an entry that is only a part of the
    identifier does not skip them.  Test identifiers are never empty: they
    all contain ".test.". *)
Theorem skip_iff_entry_contains_test (cfg : Runner.config) (test : string) :
  test ≠ ""%string →
  (Runner.shouldSkipRetries cfg test = true ↔
   ∃ t pre post, t ∈ Runner.skipRetryTestManifest cfg ∧ t = pre +:+ test +:+ post) ∧
  Runner.numRetries cfg test
  = (if Runner.shouldSkipRetries cfg test then 0%nat else Runner.originalRetries cfg) ∧
  (∀ t pre post,
     Runner.skipRetryTestManifest cfg = [t] → test = pre +:+ t +:+ post → t ≠ test →
     Runner.shouldSkipRetries cfg test = false ∧
     Runner.numRetries cfg test = Runner.originalRetries cfg).
Proof.
  intros Hne.
  assert (Hiff : Runner.shouldSkipRetries cfg test = true ↔
            ∃ t pre post, t ∈ Runner.skipRetryTestManifest cfg
                          ∧ t = pre +:+ test +:+ post).
  { unfold Runner.shouldSkipRetries.
    destruct (JS.find _ _) as [t|] eqn:Hfind; simpl.
    - apply find_Some in Hfind as [Hin Hinc].
      apply includes_spec in Hinc as (pre & post & Heq).
      split; [intros _; by exists t, pre, post|intros _].
      destruct t; [|done]. destruct pre; [|by rewrite append_cons in Heq].
      rewrite append_nil in Heq. destruct test; [done|].
      by rewrite append_cons in Heq.
    - split; [done|]. intros (t & pre & post & Hin & Heq).
      rewrite find_None in Hfind. specialize (Hfind t Hin).
      apply not_true_iff_false in Hfind. destruct Hfind.
      apply includes_spec. by exists pre, post. }
  split_and!; [done|done|].
  intros t pre post Hman Htest Hdiff.
  assert (Hno : Runner.shouldSkipRetries cfg test = false).
  { apply not_true_iff_false. rewrite Hiff.
    intros (t' & pre' & post' & Hin & Heq). rewrite Hman in Hin.
    apply list_elem_of_singleton in Hin. subst t'.
    assert (Hlen : (String.length test = String.length pre + String.length t
                                         + String.length post)%nat)
      by (rewrite Htest at 1; rewrite !append_length; lia).
    assert (Hlen' : (String.length t = String.length pre' + String.length test
                                       + String.length post')%nat)
      by (rewrite Heq at 1; rewrite !append_length; lia).
    assert (pre = "") as -> by (apply length_zero_empty; lia).
    assert (post = "") as -> by (apply length_zero_empty; lia).
    rewrite append_nil, append_empty_r in Htest. done. }
  split; [done|]. unfold Runner.numRetries. by rewrite Hno.
Qed.

Lemma skip_iff_entry_contains_test_witness :
  let cfg := {| Runner.hideOutput := true; Runner.isTestJob := false;
                Runner.shouldContinueTestsOnError := true;
                Runner.originalRetries := 2;
                Runner.skipRetryTestManifest := ["test/e2e/app-dir/a.test.ts"%string];
                Runner.GROUP := ""; Runner.ENDGROUP := "";
                Runner.dirname__ := "/repo"; Runner.concurrency := 2 |} in
  "a.test.ts"%string ≠ ""%string ∧
  (Runner.shouldSkipRetries cfg "a.test.ts" = true ↔
   ∃ t pre post, t ∈ Runner.skipRetryTestManifest cfg
                 ∧ t = pre +:+ "a.test.ts" +:+ post).
Proof.
  split; [done|].
  apply (skip_iff_entry_contains_test _ "a.test.ts"%string). done.
Defined.

(** ** Reading the trace of one callback *)

Section TraceFacts.
Import Runner.
Context `{Path}.
Context {B : Type} (f : action → option B) (Hquiet : quiet f).

Lemma omap_writes (chunks : list string) : omap f (Write <$> chunks) = [].
Proof using Hquiet.
  induction chunks as [|c l IH]; [done|]. simpl.
  by rewrite (proj2 (proj2 Hquiet) c).
Qed.

Lemma runTest_read cfg test fin retry a :
  omap f (runTest cfg test fin retry a).1
  = omap f ([Spawn test fin retry; ChildExit (code a) (signal a)]
            ++ if exit_failed (code a) (signal a) then [] else [RemoveTraces test]).
Proof using Hquiet.
  destruct Hquiet as (Hacq & Hrel & Hwr).
  unfold runTest, failure_block.
  destruct (exit_failed _ _), (hideOutput cfg); simpl;
    rewrite ?omap_app, ?omap_writes; simpl;
    rewrite ?Hacq, ?Hrel, ?Hwr, ?omap_app, ?omap_writes; simpl;
    rewrite ?Hacq, ?Hrel, ?Hwr, ?app_nil_r; repeat case_match; by simplify_eq/=.
Qed.

Lemma runTest_settles cfg test fin retry a :
  (runTest cfg test fin retry a).2
  = if exit_failed (code a) (signal a) then None else Some (elapsed a).
Proof. unfold runTest. by destruct (exit_failed _ _). Qed.

Lemma attempts_read cfg test skip n o fuel i :
  omap f (attempts cfg test skip n o fuel i).1
  = concat ((λ j, omap f (attempt_events cfg test skip n o j))
            <$> seq i (tries_made o fuel i)).
Proof using Hquiet.
  revert i. induction fuel as [|fuel IH]; intros i; [done|].
  cbn [attempts tries_made]. rewrite runTest_settles.
  unfold attempt_events.
  destruct (exit_failed (code (o i)) (signal (o i))) eqn:Hexit; cbn [fst snd].
  - cbn [seq fmap list_fmap concat]. rewrite <- IH.
    rewrite !omap_app.
    change (omap f (Log (Starting test i n) :: ?l))
      with (omap f ([Log (Starting test i n)] ++ l)).
    rewrite (omap_app _ [Log (Starting test i n)]), !omap_app, runTest_read, Hexit.
    rewrite app_nil_r. simpl.
    repeat case_match; simpl; by rewrite ?app_nil_r, <- ?app_assoc.
  - cbn [seq fmap list_fmap concat]. rewrite app_nil_r.
    change (omap f (Log (Starting test i n) :: ?l))
      with (omap f ([Log (Starting test i n)] ++ l)).
    rewrite (omap_app _ [Log (Starting test i n)]), !omap_app, runTest_read, Hexit.
    simpl. repeat case_match; simpl; by rewrite ?app_nil_r, <- ?app_assoc.
Qed.

Lemma worker_read cfg d test o :
  omap f (worker cfg d test o)
  = omap f (if shouldSkipRetries cfg test then [Log (SkippingRetry test)] else [])
    ++ concat ((λ j, omap f (attempt_events cfg test (shouldSkipRetries cfg test)
                                 (numRetries cfg test) (tries o) j))
               <$> seq 0 (tries_made (tries o) (S (numRetries cfg test)) 0))
    ++ omap f (after_loop cfg test (retry_loop cfg test o).2)
    ++ omap f (emit_results cfg test (retry_loop cfg test o).2 o).
Proof using Hquiet.
  destruct Hquiet as (Hacq & Hrel & Hwr).
  unfold worker, body. rewrite <- attempts_read. fold (retry_loop cfg test o).
  destruct d; rewrite !omap_app; simpl; rewrite ?Hacq, ?Hrel; simpl;
    by rewrite ?app_nil_r, <- ?app_assoc.
Qed.

End TraceFacts.

Section LoopFacts.
Import Runner.
Context `{Path}.

Local Abbreviation failed o j := (exit_failed (code (o j)) (signal (o j))).

Lemma tries_made_le o fuel i : (tries_made o fuel i ≤ fuel)%nat.
Proof.
  revert i. induction fuel as [|fuel IH]; intros i; simpl; [done|].
  destruct (failed o i); [specialize (IH (S i))|]; lia.
Qed.

Lemma tries_made_pos o fuel i : (0 < fuel → 0 < tries_made o fuel i)%nat.
Proof. destruct fuel; simpl; [lia|]. destruct (failed o i); lia. Qed.

(** Every attempt but the last one made has failed, and a failed attempt
    is followed by another one as long as the budget allows. *)
Lemma tries_made_failed o fuel i j :
  (i ≤ j)%nat → (S j < i + tries_made o fuel i)%nat → failed o j = true.
Proof.
  revert i. induction fuel as [|fuel IH]; intros i Hij Hj; simpl in *; [lia|].
  destruct (failed o i) eqn:Hi; [|lia].
  destruct (decide (j = i)) as [->|Hne]; [done|].
  apply (IH (S i)); lia.
Qed.

Lemma tries_made_next o fuel i j :
  (i ≤ j)%nat → (j < i + tries_made o fuel i)%nat → failed o j = true →
  (S j < i + fuel)%nat → (S j < i + tries_made o fuel i)%nat.
Proof.
  revert i. induction fuel as [|fuel IH]; intros i Hij Hj Hf Hfuel; simpl in *; [lia|].
  destruct (failed o i) eqn:Hi.
  - destruct (decide (j = i)) as [->|Hne].
    + pose proof (tries_made_pos o fuel (S i)). lia.
    + specialize (IH (S i) ltac:(lia) ltac:(lia) Hf ltac:(lia)). lia.
  - assert (j = i) as -> by lia. congruence.
Qed.

Lemma attempts_passed cfg test skip n o fuel i :
  (attempts cfg test skip n o fuel i).2 = false ↔
  ∀ j, (i ≤ j < i + fuel)%nat → failed o j = true.
Proof.
  revert i. induction fuel as [|fuel IH]; intros i.
  - simpl. split; [intros _ j Hj; lia|done].
  - cbn [attempts]. rewrite runTest_settles.
    destruct (failed o i) eqn:Hi; cbn [snd].
    + rewrite IH. split; intros Hall j Hj.
      * destruct (decide (j = i)) as [->|Hne]; [done|]. apply Hall. lia.
      * apply Hall. lia.
    + split; [done|]. intros Hall. rewrite Hall in Hi; [done|lia].
Qed.

Lemma attempts_failed_made cfg test skip n o fuel i :
  (attempts cfg test skip n o fuel i).2 = false → tries_made o fuel i = fuel.
Proof.
  rewrite attempts_passed. revert i.
  induction fuel as [|fuel IH]; intros i Hall; simpl; [done|].
  rewrite Hall by lia. f_equal. apply IH. intros j Hj. apply Hall. lia.
Qed.

Lemma concat_singletons {A C : Type} (g : A → C) (l : list A) :
  concat ((λ x, [g x]) <$> l) = g <$> l.
Proof. induction l as [|x l IH]; simpl; [done|by f_equal]. Qed.

Lemma spawned_quiet : quiet (λ a, match a with
                                 | Spawn test fin retry => Some (test, fin, retry)
                                 | _ => None
                                 end).
Proof. by split_and!. Qed.

Lemma steps_quiet : quiet (λ a, match a with
                               | Spawn _ _ _ | ChildExit _ _ | Exec _ _ => Some a
                               | _ => None
                               end).
Proof. by split_and!. Qed.

Lemma marked_quiet : quiet (λ a, match a with
                                | Log (FailedToPass test n) => Some (test, n)
                                | _ => None
                                end).
Proof. by split_and!. Qed.

Lemma spawned_worker cfg d test o :
  spawned (worker cfg d test o)
  = (λ i, (test,
           shouldSkipRetries cfg test || (i =? numRetries cfg test)%nat,
           shouldSkipRetries cfg test || (0 <? i)%nat))
    <$> seq 0 (tries_made (tries o) (S (numRetries cfg test)) 0).
Proof.
  unfold spawned. rewrite (worker_read _ spawned_quiet).
  replace (omap _ (if shouldSkipRetries cfg test then _ else _)) with
    (@nil (string * bool * bool)) by by destruct (shouldSkipRetries cfg test).
  replace (omap _ (after_loop _ _ _)) with (@nil (string * bool * bool)).
  2:{ unfold after_loop. by repeat case_match. }
  replace (omap _ (emit_results _ _ _ _)) with (@nil (string * bool * bool)).
  2:{ unfold emit_results. by repeat case_match. }
  rewrite !app_nil_r. cbn [app].
  etrans; [|apply concat_singletons]. f_equal.
  apply list_fmap_ext. intros _ i _.
  unfold attempt_events, recover. simpl. by repeat case_match.
Qed.

Lemma made_worker cfg d test o :
  length (spawned (worker cfg d test o))
  = tries_made (tries o) (S (numRetries cfg test)) 0.
Proof. by rewrite spawned_worker, length_fmap, length_seq. Qed.

Lemma marked_failed_worker cfg d test o :
  marked_failed (worker cfg d test o)
  = if (retry_loop cfg test o).2 then [] else [(test, numRetries cfg test)].
Proof.
  unfold marked_failed. rewrite (worker_read _ marked_quiet).
  replace (omap _ (if shouldSkipRetries cfg test then _ else _)) with
    (@nil (string * nat)) by by destruct (shouldSkipRetries cfg test).
  replace (concat _) with (@nil (string * nat)).
  2:{ symmetry. apply concat_nil_Forall, Forall_fmap, Forall_forall.
      intros i _. unfold attempt_events, recover. simpl. by repeat case_match. }
  replace (omap _ (emit_results _ _ _ _)) with (@nil (string * nat)).
  2:{ unfold emit_results. by repeat case_match. }
  rewrite app_nil_r. simpl. unfold after_loop. by repeat case_match.
Qed.

Lemma passing_attempt_is_last o fuel i j :
  (i ≤ j)%nat → (j < i + tries_made o fuel i)%nat → failed o j = false →
  (S j = i + tries_made o fuel i)%nat.
Proof.
  intros Hij Hj Hpass.
  destruct (decide (S j < i + tries_made o fuel i)%nat) as [Hlt|]; [|lia].
  by rewrite (tries_made_failed o fuel i j) in Hpass.
Qed.

Lemma concat_all_nil {A C : Type} (g : A → list C) (l : list A) :
  (∀ x, x ∈ l → g x = []) → concat (g <$> l) = [].
Proof.
  intros Hall. apply concat_nil_Forall, Forall_fmap, Forall_forall.
  intros x Hx. apply Hall. by apply list_elem_of_In.
Qed.

Lemma steps_worker cfg d test o :
  steps (worker cfg d test o)
  = concat ((λ i,
       [Spawn test (shouldSkipRetries cfg test || (i =? numRetries cfg test)%nat)
                   (shouldSkipRetries cfg test || (0 <? i)%nat);
        ChildExit (code (tries o i)) (signal (tries o i))]
       ++ if failed (tries o) i && (i <? numRetries cfg test)%nat
          then Exec (GitClean (recovery_dir cfg test)) (clean_ok (tries o i))
               :: (if clean_ok (tries o i)
                   then [Exec (GitCheckout (recovery_dir cfg test))
                              (checkout_ok (tries o i))]
                   else [])
          else [])
     <$> seq 0 (tries_made (tries o) (S (numRetries cfg test)) 0)).
Proof.
  unfold steps. rewrite (worker_read _ steps_quiet).
  replace (omap _ (if shouldSkipRetries cfg test then _ else _)) with
    (@nil action) by by destruct (shouldSkipRetries cfg test).
  replace (omap _ (after_loop _ _ _)) with (@nil action).
  2:{ unfold after_loop. by repeat case_match. }
  replace (omap _ (emit_results _ _ _ _)) with (@nil action).
  2:{ unfold emit_results. by repeat case_match. }
  rewrite !app_nil_r. cbn [app]. f_equal.
  apply list_fmap_ext. intros _ i _.
  unfold attempt_events, recover. simpl.
  destruct (exit_failed (code (tries o i)) (signal (tries o i))),
    (i <? numRetries cfg test)%nat, (clean_ok (tries o i)); done.
Qed.

Lemma pushed_quiet : quiet (λ a, match a with
                                | TimingsPush file time => Some (file, time)
                                | _ => None
                                end).
Proof. by split_and!. Qed.

Lemma pushed_worker cfg d test o :
  Timings.pushed (worker cfg d test o)
  = concat ((λ i, if failed (tries o) i then []
                  else [(test, elapsed (tries o i))])
            <$> seq 0 (tries_made (tries o) (S (numRetries cfg test)) 0)).
Proof.
  unfold Timings.pushed. rewrite (worker_read _ pushed_quiet).
  replace (omap _ (if shouldSkipRetries cfg test then _ else _)) with
    (@nil (string * Z)) by by destruct (shouldSkipRetries cfg test).
  replace (omap _ (after_loop _ _ _)) with (@nil (string * Z)).
  2:{ unfold after_loop. by repeat case_match. }
  replace (omap _ (emit_results _ _ _ _)) with (@nil (string * Z)).
  2:{ unfold emit_results. by repeat case_match. }
  rewrite !app_nil_r. cbn [app]. f_equal.
  apply list_fmap_ext. intros _ i _.
  unfold attempt_events, recover. simpl. by repeat case_match.
Qed.

Lemma exit_calls_quiet : quiet (λ a, match a with
                                    | CleanUpAndExit c => Some c
                                    | _ => None
                                    end).
Proof. by split_and!. Qed.

Lemma exit_calls_worker cfg d test o :
  Sched.exit_calls (worker cfg d test o)
  = if (retry_loop cfg test o).2 || shouldContinueTestsOnError cfg
    then [] else [1].
Proof.
  unfold Sched.exit_calls. rewrite (worker_read _ exit_calls_quiet).
  replace (omap _ (if shouldSkipRetries cfg test then _ else _)) with
    (@nil Z) by by destruct (shouldSkipRetries cfg test).
  replace (concat _) with (@nil Z).
  2:{ symmetry. apply concat_all_nil. intros i _.
      unfold attempt_events, recover. simpl. by repeat case_match. }
  replace (omap _ (emit_results _ _ _ _)) with (@nil Z).
  2:{ unfold emit_results. by repeat case_match. }
  rewrite app_nil_r. simpl. unfold after_loop. by repeat case_match.
Qed.

End LoopFacts.

(** ** What the specification states about retries *)

(** C4: a test whose retry budget is N is attempted at most N+1 times, and
    exactly N+1 times when it is marked as permanently failed; a test
    matched by the skip-retry manifest is attempted exactly once whatever
    the configured budget. *)
Theorem attempts_bounded_by_budget `{Runner.Path} (cfg : Runner.config)
  (dirSema : option string) (test : string) (o : Runner.oracle) :
  let trace := Runner.worker cfg dirSema test o in
  let made := length (Runner.spawned trace) in
  (1 ≤ made ≤ Runner.numRetries cfg test + 1)%nat ∧
  (Runner.numRetries cfg test ≤ Runner.originalRetries cfg)%nat ∧
  (Runner.marked_failed trace ≠ [] → made = (Runner.numRetries cfg test + 1)%nat) ∧
  (Runner.shouldSkipRetries cfg test = true → made = 1%nat).
Proof.
  intros trace made. subst made trace. rewrite made_worker.
  pose proof (tries_made_le (Runner.tries o) (S (Runner.numRetries cfg test)) 0) as Hle.
  pose proof (tries_made_pos (Runner.tries o) (S (Runner.numRetries cfg test)) 0
                ltac:(lia)) as Hpos.
  split_and!; try lia.
  - unfold Runner.numRetries. destruct (Runner.shouldSkipRetries cfg test); lia.
  - rewrite marked_failed_worker.
    destruct (Runner.retry_loop cfg test o).2 eqn:Hpassed; [done|intros _].
    rewrite (attempts_failed_made _ _ _ _ _ _ _ Hpassed). lia.
  - intros Hskip. unfold Runner.numRetries in *. rewrite Hskip in *. lia.
Qed.

(** C6: every failed attempt that is not the last one the budget allows is
    followed by the recovery of the test's directory (one level up when
    that directory is named [test]): [git clean -fdx] on it, then, when
    that succeeded, [git checkout] on it; the attempt the budget ends with
    is followed by neither; and whatever the two commands answer, the next
    attempt is made.  Read off the trace of the callback: its spawns, child
    exits and git commands, in order. *)
Theorem recovery_between_attempts `{Runner.Path} (cfg : Runner.config)
  (dirSema : option string) (test : string) (o : Runner.oracle) :
  let n := Runner.numRetries cfg test in
  let skip := Runner.shouldSkipRetries cfg test in
  let trace := Runner.worker cfg dirSema test o in
  let made := length (Runner.spawned trace) in
  let failed i := Runner.exit_failed (Runner.code (Runner.tries o i))
                                     (Runner.signal (Runner.tries o i)) in
  let testDir := Runner.path_dirname (Runner.path_join (Runner.dirname__ cfg) test) in
  let dir := if JS.endsWith testDir "/test"
                || JS.endsWith testDir (Runner.backslash +:+ "test")
             then Runner.path_join testDir "../" else testDir in
  Runner.steps trace
  = concat ((λ i,
       [Runner.Spawn test (skip || (i =? n)%nat) (skip || (0 <? i)%nat);
        Runner.ChildExit (Runner.code (Runner.tries o i))
                         (Runner.signal (Runner.tries o i))]
       ++ if failed i && (i <? n)%nat
          then Runner.Exec (Runner.GitClean dir) (Runner.clean_ok (Runner.tries o i))
               :: (if Runner.clean_ok (Runner.tries o i)
                   then [Runner.Exec (Runner.GitCheckout dir)
                                     (Runner.checkout_ok (Runner.tries o i))]
                   else [])
          else [])
     <$> seq 0 made) ∧
  (made ≤ n + 1)%nat ∧
  (∀ i, (i < made)%nat → failed i = true → (i < n)%nat → (S i < made)%nat).
Proof.
  intros n skip trace made failed testDir dir.
  subst made trace. rewrite made_worker. split_and!.
  - apply steps_worker.
  - pose proof (tries_made_le (Runner.tries o) (S n) 0). subst n. lia.
  - intros i Hi Hfail Hn.
    pose proof (tries_made_next (Runner.tries o) (S n) 0 i) as Hnext.
    subst n. apply Hnext; [lia|lia|done|lia].
Qed.

(** ** The timing ledger *)

Lemma ledger_keeps (timings : list (string * Z)) (m : gmap string Q) (file : string) :
  file ∉ timings.*1 →
  fold_left (λ m timing, <[timing.1 := Timings.timeInSeconds timing.2]> m) timings m
    !! file = m !! file.
Proof.
  revert m. induction timings as [|[f t] l IH]; intros m Hnot; [done|].
  simpl in *. apply not_elem_of_cons in Hnot as [Hne Hnot].
  rewrite IH by done. by rewrite lookup_insert_ne.
Qed.

Lemma ledger_last_write (before after : list (string * Z)) (file : string) (time : Z) :
  file ∉ after.*1 →
  Timings.curTimings (before ++ (file, time) :: after) !! file
  = Some (Timings.timeInSeconds time).
Proof.
  intros Hnot. unfold Timings.curTimings. rewrite fold_left_app. simpl.
  rewrite ledger_keeps by done. by rewrite lookup_insert_eq.
Qed.

(** C9: every attempt that finishes, that is whose [runTest] resolves with
    a duration, pushes that duration under the identifier of its test (an
    attempt that is rejected has no duration and pushes nothing); in the
    ledger built from the pushed entries, and in the one merged with the
    fetched ledger, a key holds the duration of the last entry pushed for
    it, in seconds. *)
Theorem timings_recorded_last_write_wins `{Runner.Path} (cfg : Runner.config)
  (dirSema : option string) (test : string) (o : Runner.oracle)
  (timings : list (string * Z)) (fetched : gmap string Q) :
  let trace := Runner.worker cfg dirSema test o in
  let made := length (Runner.spawned trace) in
  let failed i := Runner.exit_failed (Runner.code (Runner.tries o i))
                                     (Runner.signal (Runner.tries o i)) in
  (∀ i, (i < made)%nat → failed i = false →
     Timings.pushed trace = [(test, Runner.elapsed (Runner.tries o i))]) ∧
  ((∀ i, (i < made)%nat → failed i = true) → Timings.pushed trace = []) ∧
  (∀ before file time after,
     timings = before ++ (file, time) :: after → file ∉ after.*1 →
     Timings.curTimings timings !! file = Some (inject_Z time / 1000)%Q ∧
     Timings.newTimings fetched (Timings.curTimings timings) !! file
     = Some (inject_Z time / 1000)%Q) ∧
  (∀ file, file ∉ timings.*1 →
     Timings.curTimings timings !! file = None ∧
     Timings.newTimings fetched (Timings.curTimings timings) !! file
     = fetched !! file).
Proof.
  intros trace made failed. subst trace made.
  rewrite made_worker, pushed_worker.
  set (k := Runner.tries_made _ _ _). split_and!.
  - intros i Hi Hpass.
    pose proof (passing_attempt_is_last (Runner.tries o)
                  (S (Runner.numRetries cfg test)) 0 i ltac:(lia) Hi Hpass) as Hlast.
    fold k in Hlast. simpl in Hlast. rewrite <- Hlast.
    rewrite seq_S, fmap_app, concat_app. simpl.
    fold (failed i). rewrite Hpass. simpl.
    rewrite concat_all_nil; [done|].
    intros j [_ Hj]%elem_of_seq.
    rewrite (tries_made_failed (Runner.tries o) (S (Runner.numRetries cfg test)) 0 j);
      [done|lia|fold k; lia].
  - intros Hall. apply concat_all_nil. intros j [_ Hj]%elem_of_seq.
    fold (failed j). rewrite Hall; [done|lia].
  - intros before file time after -> Hnot.
    pose proof (ledger_last_write before after file time Hnot) as Hcur.
    split; [done|]. unfold Timings.newTimings.
    by apply lookup_union_Some_l.
  - intros file Hnot.
    assert (Hcur : Timings.curTimings timings !! file = None).
    { unfold Timings.curTimings. by rewrite ledger_keeps. }
    split; [done|]. unfold Timings.newTimings. by rewrite lookup_union_r.
Qed.

(** ** The permit discipline *)

Section Discipline.
Import Runner Sched.
Context `{Path}.

Implicit Types (d : option string) (h : holding) (l : list action).

Lemma obeys_app d hide h l1 l2 :
  obeys d hide h (l1 ++ l2) = obeys d hide h l1 && obeys d hide (after d h l1) l2.
Proof.
  revert h. induction l1 as [|a l1 IH]; intros h; simpl; [done|].
  by rewrite IH, andb_assoc.
Qed.

Lemma after_app d h l1 l2 : after d h (l1 ++ l2) = after d (after d h l1) l2.
Proof. apply fold_left_app. Qed.

Lemma held_from_app s b l1 l2 :
  held_from s b (l1 ++ l2) = held_from s (held_from s b l1) l2.
Proof.
  revert b. induction l1 as [|a l1 IH]; intros b; simpl; [done|].
  destruct a; by rewrite ?IH.
Qed.

Lemma after_global d h l :
  holds_global (after d h l) = held_from Global (holds_global h) l.
Proof.
  revert h. induction l as [|a l IH]; intros h; [done|].
  cbn [after fold_left held_from]. fold (after d (track d h a) l). rewrite IH.
  destruct a as [[| |x]|[| |x]| | | | | | | | | |]; simpl; try done;
    by destruct (decide (d = Some x)).
Qed.

Lemma after_output d h l :
  holds_output (after d h l) = held_from Output (holds_output h) l.
Proof.
  revert h. induction l as [|a l IH]; intros h; [done|].
  cbn [after fold_left held_from]. fold (after d (track d h a) l). rewrite IH.
  destruct a as [[| |x]|[| |x]| | | | | | | | | |]; simpl; try done;
    by destruct (decide (d = Some x)).
Qed.

Lemma after_dir x h l :
  holds_dir (after (Some x) h l) = held_from (Directory x) (holds_dir h) l.
Proof.
  revert h. induction l as [|a l IH]; intros h; [done|].
  cbn [after fold_left held_from]. fold (after (Some x) (track (Some x) h a) l).
  rewrite IH.
  destruct a as [[| |y]|[| |y]| | | | | | | | | |]; simpl; try done.
  - destruct (decide (Some x = Some y)) as [[= ->]|Hne].
    + by rewrite decide_True.
    + rewrite decide_False by congruence. done.
  - destruct (decide (Some x = Some y)) as [[= ->]|Hne].
    + by rewrite decide_True.
    + rewrite decide_False by congruence. done.
Qed.

(** A callback never touches the permit of a directory that is not its
    own. *)
Lemma foreign_dir_untouched d hide h l x b :
  d ≠ Some x → obeys d hide h l = true → held_from (Directory x) b l = b.
Proof.
  intros Hne. revert h b. induction l as [|a l IH]; intros h b Hob; [done|].
  simpl in Hob. apply andb_true_iff in Hob as [Hal Hob].
  destruct a as [[| |y]|[| |y]| | | | | | | | | |]; simpl in *;
    try (by eapply IH).
  - destruct (decide (Directory y = Directory x)) as [[= ->]|]; [|by eapply IH].
    by rewrite bool_decide_eq_false_2 in Hal.
  - destruct (decide (Directory y = Directory x)) as [[= ->]|]; [|by eapply IH].
    by rewrite bool_decide_eq_false_2 in Hal.
Qed.

Lemma nested_track d hide h a :
  nested d h = true → allowed d hide h a = true → nested d (track d h a) = true.
Proof.
  destruct d as [x|]; [|done]. destruct h as [hd hg ho].
  destruct a as [[| |y]|[| |y]| | | | | | | | | |]; simpl; try done;
    try (destruct (decide (Some x = Some y)); simpl);
    destruct hd, hg; simpl; try done;
    rewrite ?andb_false_r; done.
Qed.

Lemma nested_after d hide h l :
  nested d h = true → obeys d hide h l = true → nested d (after d h l) = true.
Proof.
  revert h. induction l as [|a l IH]; intros h Hn Hob; [done|].
  simpl in Hob. apply andb_true_iff in Hob as [Hal Hob].
  cbn [after fold_left]. apply IH; [by eapply nested_track|done].
Qed.

(** *** The program of a callback obeys the discipline *)

Lemma neutral_nil d hide : neutral d hide [].
Proof. by intros h _ _. Qed.

Lemma neutral_app d hide l1 l2 :
  neutral d hide l1 → neutral d hide l2 → neutral d hide (l1 ++ l2).
Proof.
  intros H1 H2 h Hg Ho. destruct (H1 h Hg Ho) as [Hob1 Haf1].
  destruct (H2 h Hg Ho) as [Hob2 Haf2].
  by rewrite obeys_app, after_app, Haf1, Hob1, Hob2, Haf2.
Qed.

Lemma writes_under_output d hide h (chunks : list string) :
  holds_output h = true →
  obeys d hide h (Write <$> chunks) = true ∧ after d h (Write <$> chunks) = h.
Proof.
  intros Ho. induction chunks as [|c l [IH1 IH2]]; [done|].
  simpl. rewrite Ho, orb_true_r. done.
Qed.

Lemma writes_streamed d h (chunks : list string) :
  obeys d false h (Write <$> chunks) = true ∧ after d h (Write <$> chunks) = h.
Proof. induction chunks as [|c l [IH1 IH2]]; [done|]. by simpl. Qed.

Lemma neutral_failure_block d cfg hide test chunks :
  neutral d hide (failure_block cfg test chunks).
Proof.
  intros [hd hg ho] Hg Ho. simpl in *. subst. unfold failure_block.
  rewrite !obeys_app, !after_app. simpl. rewrite orb_true_r. simpl.
  destruct (writes_under_output d hide (Holding hd true true)
              (snd <$> chunks) eq_refl) as [-> ->].
  simpl. by rewrite orb_true_r.
Qed.

Lemma neutral_runTest d cfg test fin retry a :
  neutral d (hideOutput cfg) (runTest cfg test fin retry a).1.
Proof.
  unfold runTest.
  destruct (exit_failed _ _), (hideOutput cfg) eqn:Hhide; cbn [fst].
  - apply (neutral_app _ _ [_; _]); [by intros [? ? ?] ? ?|].
    apply neutral_failure_block.
  - rewrite app_nil_r. intros h Hg Ho. simpl.
    rewrite obeys_app, after_app.
    destruct (writes_streamed d h (snd <$> output a)) as [-> ->]. done.
  - by intros [? ? ?] ? ?.
  - intros h Hg Ho. simpl. rewrite <- app_assoc, obeys_app, after_app.
    destruct (writes_streamed d h (snd <$> output a)) as [-> ->]. done.
Qed.

Lemma neutral_attempts d cfg test skip n o fuel i :
  neutral d (hideOutput cfg) (attempts cfg test skip n o fuel i).1.
Proof.
  revert i. induction fuel as [|fuel IH]; intros i; [apply neutral_nil|].
  cbn [attempts]. destruct (runTest _ _ _ _ _).2 eqn:Hres; cbn [fst].
  - apply (neutral_app _ _ [_]); [by intros [? ? ?] ? ?|].
    apply neutral_app; [apply neutral_runTest|by intros [? ? ?] ? ?].
  - apply (neutral_app _ _ [_]); [by intros [? ? ?] ? ?|].
    apply neutral_app; [apply neutral_runTest|].
    apply neutral_app; [|apply IH].
    unfold recover. repeat case_match; by intros [? ? ?] ? ?.
Qed.

Lemma neutral_body d cfg test o : neutral d (hideOutput cfg) (body cfg test o).
Proof.
  unfold body. repeat apply neutral_app.
  - case_match; by intros [? ? ?] ? ?.
  - apply neutral_attempts.
  - unfold after_loop. repeat case_match; by intros [? ? ?] ? ?.
  - unfold emit_results.
    repeat case_match; intros [? ? ?] ? ?; simpl in *; by subst.
Qed.

Lemma worker_obeys cfg d test o :
  obeys d (hideOutput cfg) idle (worker cfg d test o) = true.
Proof.
  unfold worker. destruct d as [x|].
  - rewrite obeys_app. simpl. rewrite !bool_decide_eq_true_2 by done.
    rewrite decide_True by done. simpl.
    destruct (neutral_body (Some x) cfg test o (Holding true true false)
                eq_refl eq_refl) as [Hob Haf].
    rewrite obeys_app, Hob, Haf. simpl.
    rewrite !bool_decide_eq_true_2 by done. done.
  - rewrite obeys_app. simpl.
    destruct (neutral_body None cfg test o (Holding false true false)
                eq_refl eq_refl) as [Hob Haf].
    rewrite obeys_app, Hob, Haf. done.
Qed.

End Discipline.

(** ** The running system *)

Section SystemFacts.
Import Runner Sched.
Context `{Path}.

Local Arguments JS.startsWith : simpl never.

Lemma fire_inv σ i σ' :
  fire σ i = Some σ' →
  ∃ t a rest,
    threads σ !! i = Some t ∧ future t = a :: rest ∧
    threads σ' = <[i := Thread (past t ++ [a]) rest]> (threads σ) ∧
    events σ' = events σ ++ [(i, a)] ∧
    match a with
    | Acquire s => (0 < free σ s)%nat ∧ free σ' = <[s := (free σ s - 1)%nat]> (free σ)
    | Release s => free σ' = <[s := S (free σ s)]> (free σ)
    | _ => free σ' = free σ
    end.
Proof.
  unfold fire. destruct (threads σ !! i) as [t|] eqn:Ht; [|done]. simpl.
  destruct (future t) as [|a rest] eqn:Hfut; [done|].
  intros Hfire. exists t, a, rest.
  destruct a; try (injection Hfire as <-; by split_and!).
  case_decide; [|done]. injection Hfire as <-. by split_and!.
Qed.

Lemma run_schedule_reachable schedule σ σ' :
  run_schedule schedule σ = Some σ' → rtc step σ σ'.
Proof.
  revert σ. induction schedule as [|i l IH]; intros σ; simpl.
  - by intros [= ->].
  - destruct (fire σ i) as [σ1|] eqn:Hfire; [|done]. simpl. intros Hrun.
    eapply rtc_l; [by exists i|by apply IH].
Qed.

Lemma held_snoc s l a :
  held s (l ++ [a])
  = match a with
    | Acquire s' => if decide (s' = s) then true else held s l
    | Release s' => if decide (s' = s) then false else held s l
    | _ => held s l
    end.
Proof. unfold held. rewrite held_from_app. by destruct a. Qed.

Lemma dispatch_lookup sems tests k test :
  tests !! k = Some test →
  ∃ d, dispatch sems tests !! k = Some d ∧
       (d = None ∨ d = Some (path_dirname test)) ∧
       (JS.startsWith test "test/integration" = true →
        d = Some (path_dirname test)).
Proof.
  revert sems k. induction tests as [|t l IH]; intros sems k Hk; [done|].
  destruct k as [|k]; simpl in *.
  - injection Hk as ->.
    destruct (JS.startsWith test "test/integration") eqn:Hleg,
      (bool_decide (path_dirname test ∈ sems)) eqn:Hknown; simpl;
      eexists; (split; [reflexivity|]); split; auto; done.
  - destruct (_ && _); simpl; by apply IH.
Qed.

Lemma programs_lookup cfg jobs k p :
  programs cfg jobs !! k = Some p →
  ∃ d test o, jobs !! k = Some (test, o) ∧ p = worker cfg d test o ∧
              (d = None ∨ d = Some (path_dirname test)) ∧
              (JS.startsWith test "test/integration" = true →
               d = Some (path_dirname test)).
Proof.
  unfold programs. intros (d & [test o] & -> & Hd & Hjob)%lookup_zip_with_Some.
  exists d, test, o. split_and!; [done|done| |].
  - destruct (dispatch_lookup ∅ (fst <$> jobs) k test) as (d' & Hd' & Hor & _).
    { by rewrite list_lookup_fmap, Hjob. }
    congruence.
  - destruct (dispatch_lookup ∅ (fst <$> jobs) k test) as (d' & Hd' & _ & Hleg).
    { by rewrite list_lookup_fmap, Hjob. }
    intros Hstart. rewrite Hd in Hd'. injection Hd' as <-. by apply Hleg.
Qed.

Lemma dispatch_length sems tests : length (dispatch sems tests) = length tests.
Proof.
  revert sems. induction tests as [|t l IH]; intros sems; [done|].
  cbn [dispatch]. destruct (_ && _); simpl; by rewrite IH.
Qed.

Lemma programs_length cfg jobs : length (programs cfg jobs) = length jobs.
Proof.
  unfold programs. apply length_zip_with_r_eq.
  by rewrite dispatch_length, length_fmap.
Qed.

Lemma programs_of_job cfg jobs k test o :
  jobs !! k = Some (test, o) →
  ∃ d, programs cfg jobs !! k = Some (worker cfg d test o) ∧
       (JS.startsWith test "test/integration" = true →
        d = Some (path_dirname test)).
Proof.
  intros Hjob.
  destruct (lookup_lt_is_Some_2 (programs cfg jobs) k) as [p Hp].
  { rewrite programs_length. by eapply lookup_lt_Some. }
  destruct (programs_lookup cfg jobs k p Hp) as (d & test' & o' & Hjob' & -> & _ & Hleg).
  rewrite Hjob in Hjob'. injection Hjob' as <- <-. by exists d.
Qed.

(** What the discipline gives for a callback stopped anywhere in its
    program. *)
Lemma discipline_at cfg d test o l1 a l2 :
  worker cfg d test o = l1 ++ a :: l2 →
  allowed d (hideOutput cfg) (after d idle l1) a = true ∧
  nested d (after d idle l1) = true.
Proof.
  intros Hsplit. pose proof (worker_obeys cfg d test o) as Hob.
  rewrite Hsplit, obeys_app in Hob. apply andb_true_iff in Hob as [Hob1 Hob2].
  simpl in Hob2. apply andb_true_iff in Hob2 as [Hal _]. split; [done|].
  eapply nested_after; [by destruct d|done].
Qed.

Lemma release_only_held cfg d test o l1 s l2 :
  worker cfg d test o = l1 ++ Release s :: l2 → s ≠ Global → held s l1 = true.
Proof.
  intros Hsplit Hs. destruct (discipline_at _ _ _ _ _ _ _ Hsplit) as [Hal _].
  destruct s as [| |x]; [done| |]; simpl in Hal.
  - by rewrite after_output in Hal.
  - apply andb_true_iff in Hal as [[Hd Hheld]%andb_true_iff _].
    apply bool_decide_eq_true in Hd. subst d. by rewrite after_dir in Hheld.
Qed.

Lemma executing_holds_dir cfg x test o l1 l2 :
  worker cfg (Some x) test o = l1 ++ l2 →
  held Global l1 = true → held (Directory x) l1 = true.
Proof.
  intros Hsplit Hg. pose proof (worker_obeys cfg (Some x) test o) as Hob.
  rewrite Hsplit, obeys_app in Hob. apply andb_true_iff in Hob as [Hob1 _].
  pose proof (nested_after (Some x) _ idle l1 eq_refl Hob1) as Hn.
  simpl in Hn. rewrite after_global, after_dir in Hn. simpl in Hn.
  unfold held in *. by rewrite Hg in Hn.
Qed.

Lemma write_under_permit cfg d test o l1 c l2 :
  hideOutput cfg = true →
  worker cfg d test o = l1 ++ Write c :: l2 → held Output l1 = true.
Proof.
  intros Hhide Hsplit. destruct (discipline_at _ _ _ _ _ _ _ Hsplit) as [Hal _].
  simpl in Hal. by rewrite Hhide, after_output in Hal.
Qed.

Lemma threads_after_fire σ i σ' t a rest :
  threads σ !! i = Some t →
  threads σ' = <[i := Thread (past t ++ [a]) rest]> (threads σ) →
  ∀ j y, threads σ' !! j = Some y →
         (j = i ∧ y = Thread (past t ++ [a]) rest) ∨ (j ≠ i ∧ threads σ !! j = Some y).
Proof.
  intros Ht -> j y [(-> & <- & _)|[? ?]]%list_lookup_insert_Some; [by left|].
  right. split; [congruence|done].
Qed.

Lemma exclusive_fire s σ i σ' :
  exclusive s σ → fire σ i = Some σ' →
  (∀ t rest, threads σ !! i = Some t → future t = Release s :: rest →
             holds s t = true) →
  exclusive s σ'.
Proof.
  intros (Hle & Hzero & Huniq) Hfire Hrel.
  destruct (fire_inv _ _ _ Hfire) as (t & a & rest & Ht & Hfut & Hth & _ & Hfree).
  pose proof (threads_after_fire σ i σ' t a rest Ht Hth) as Hlk.
  set (t' := Thread (past t ++ [a]) rest) in *.
  assert (Hh : holds s t'
               = match a with
                 | Acquire s' => if decide (s' = s) then true else holds s t
                 | Release s' => if decide (s' = s) then false else holds s t
                 | _ => holds s t
                 end) by apply held_snoc.
  destruct (decide (a = Acquire s)) as [->|Hna].
  - destruct Hfree as [Hpos Hfree].
    assert (Hnone : ∀ j y, threads σ !! j = Some y → holds s y = false).
    { intros j y Hy. destruct (holds s y) eqn:Hhy; [|done].
      specialize (Hzero j y Hy Hhy). lia. }
    assert (Hf' : free σ' s = 0%nat) by (rewrite Hfree, fn_lookup_insert; lia).
    split_and!; [lia|done|].
    intros j j' y y' Hy Hy' Hhy Hhy'.
    destruct (Hlk j y Hy) as [[-> ->]|[? Hold]];
      [|by rewrite (Hnone j y Hold) in Hhy].
    destruct (Hlk j' y' Hy') as [[-> ->]|[? Hold]];
      [done|by rewrite (Hnone j' y' Hold) in Hhy'].
  - destruct (decide (a = Release s)) as [->|Hnr].
    + assert (Hht : holds s t = true) by by eapply Hrel.
      assert (Hz : free σ s = 0%nat) by by eapply Hzero.
      assert (Hf' : free σ' s = 1%nat) by (rewrite Hfree, fn_lookup_insert; lia).
      assert (Hnone : ∀ j y, threads σ' !! j = Some y → holds s y = false).
      { intros j y Hy. destruct (Hlk j y Hy) as [[-> ->]|[Hne Hold]].
        - rewrite Hh. by rewrite decide_True.
        - destruct (holds s y) eqn:Hhy; [|done]. destruct Hne. by eapply Huniq. }
      split_and!; [lia| |].
      * intros j y Hy Hhy. by rewrite (Hnone j y Hy) in Hhy.
      * intros j j' y y' Hy _ Hhy. by rewrite (Hnone j y Hy) in Hhy.
    + assert (Hf' : free σ' s = free σ s).
      { destruct a as [s'|s'| | | | | | | | | |]; try (by rewrite Hfree).
        - destruct Hfree as [_ ->]. rewrite fn_lookup_insert_ne; [done|congruence].
        - rewrite Hfree, fn_lookup_insert_ne; [done|congruence]. }
      assert (Hh' : holds s t' = holds s t).
      { rewrite Hh. destruct a; try done; rewrite decide_False; congruence. }
      assert (Hold : ∀ j y, threads σ' !! j = Some y →
                ∃ y0, threads σ !! j = Some y0 ∧ holds s y = holds s y0).
      { intros j y Hy. destruct (Hlk j y Hy) as [[-> ->]|[? ?]]; eauto. }
      split_and!; [lia| |].
      * intros j y Hy Hhy. destruct (Hold j y Hy) as (y0 & Hy0 & Heq).
        rewrite Hf'. eapply Hzero; [done|congruence].
      * intros j j' y y' Hy Hy' Hhy Hhy'.
        destruct (Hold j y Hy) as (y0 & Hy0 & Heq).
        destruct (Hold j' y' Hy') as (y0' & Hy0' & Heq').
        eapply Huniq; [exact Hy0|exact Hy0'|congruence|congruence].
Qed.

Lemma follows_fire progs σ i σ' :
  follows progs σ → fire σ i = Some σ' → follows progs σ'.
Proof.
  intros [Hlen Hat] Hfire.
  destruct (fire_inv _ _ _ Hfire) as (t & a & rest & Ht & Hfut & Hth & _ & _).
  pose proof (threads_after_fire σ i σ' t a rest Ht Hth) as Hlk.
  split; [by rewrite Hth, length_insert|].
  intros j y Hy. destruct (Hlk j y Hy) as [[-> ->]|[_ Hold]]; [|by apply Hat].
  simpl. rewrite <- app_assoc. simpl. rewrite <- Hfut. by apply Hat.
Qed.

Lemma exit_calls_app l1 l2 : exit_calls (l1 ++ l2) = exit_calls l1 ++ exit_calls l2.
Proof. apply omap_app. Qed.

Lemma recorded_fire σ i σ' : recorded σ → fire σ i = Some σ' → recorded σ'.
Proof.
  intros Hrec Hfire c.
  destruct (fire_inv _ _ _ Hfire) as (t & a & rest & Ht & Hfut & Hth & Hev & _).
  pose proof (threads_after_fire σ i σ' t a rest Ht Hth) as Hlk.
  rewrite Hev, fmap_app, exit_calls_app, elem_of_app, (Hrec c). simpl. split.
  - intros [(j & y & Hy & Hc)|Hc].
    + destruct (decide (j = i)) as [->|Hne].
      * exists i, (Thread (past t ++ [a]) rest). split.
        { rewrite Hth. apply list_lookup_insert_eq. by eapply lookup_lt_Some. }
        simpl. rewrite exit_calls_app, elem_of_app. left. congruence.
      * exists j, y. split; [|done]. rewrite Hth. by rewrite list_lookup_insert_ne.
    + exists i, (Thread (past t ++ [a]) rest). split.
      { rewrite Hth. apply list_lookup_insert_eq. by eapply lookup_lt_Some. }
      simpl. rewrite exit_calls_app, elem_of_app. by right.
  - intros (j & y & Hy & Hc). destruct (Hlk j y Hy) as [[-> ->]|[_ Hold]].
    + simpl in Hc. rewrite exit_calls_app, elem_of_app in Hc.
      destruct Hc as [Hc|Hc]; [left; by exists i, t|by right].
    + left. by exists j, y.
Qed.

(** The invariants hold all along every run of the callbacks. *)
Lemma reachable_invariant cfg jobs σ :
  reachable cfg (programs cfg jobs) σ →
  follows (programs cfg jobs) σ ∧ (∀ s, s ≠ Global → exclusive s σ) ∧ recorded σ.
Proof.
  unfold reachable. apply (rtc_ind_r (λ σ, follows (programs cfg jobs) σ ∧
                    (∀ s, s ≠ Global → exclusive s σ) ∧ recorded σ)).
  - split_and!.
    + split; simpl; [by rewrite length_fmap|].
      intros i t (p & -> & Hp)%list_lookup_fmap_Some. done.
    + intros s Hs. split_and!; simpl.
      * destruct s; simpl; [done|lia|lia].
      * by intros i t (p & -> & Hp)%list_lookup_fmap_Some.
      * by intros i j t t' (p & -> & Hp)%list_lookup_fmap_Some.
    + intros c. simpl. split; [by intros ?%elem_of_nil|].
      by intros (i & t & (p & -> & Hp)%list_lookup_fmap_Some & ?%elem_of_nil).
  - intros σ1 σ2 _ [i Hfire] (Hfol & Hexcl & Hrec). split_and!.
    + by eapply follows_fire.
    + intros s Hs. eapply exclusive_fire; [by apply Hexcl|done|].
      intros t rest Ht Hfut. destruct Hfol as [_ Hat].
      specialize (Hat i t Ht). rewrite Hfut in Hat.
      destruct (programs_lookup cfg jobs i _ Hat) as (d & test & o & _ & Hw & _).
      unfold holds. by eapply release_only_held.
    + by eapply recorded_fire.
Qed.

Lemma body_keeps_to_output cfg test o : Forall keeps_to_output (body cfg test o).
Proof.
  assert (Hwr : ∀ l : list string, Forall keeps_to_output (Write <$> l)).
  { intros l. apply Forall_fmap, Forall_true. done. }
  assert (Hrun : ∀ fin retry a,
            Forall keeps_to_output (runTest cfg test fin retry a).1).
  { intros fin retry a. unfold runTest, failure_block.
    repeat case_match; cbn [fst]; repeat first
      [ apply Hwr
      | constructor; [done|]
      | constructor
      | apply Forall_app; split ]. }
  assert (Hatt : ∀ skip n fuel i,
            Forall keeps_to_output (attempts cfg test skip n (tries o) fuel i).1).
  { intros skip n fuel. induction fuel as [|fuel IH]; intros i; [by constructor|].
    cbn [attempts]. destruct (runTest _ _ _ _ _).2; cbn [fst].
    - constructor; [done|]. apply Forall_app; split; [apply Hrun|].
      by repeat constructor.
    - constructor; [done|]. apply Forall_app; split; [apply Hrun|].
      apply Forall_app; split; [|apply IH].
      unfold recover. repeat case_match; by repeat constructor. }
  unfold body. repeat (apply Forall_app; split).
  - case_match; by repeat constructor.
  - apply Hatt.
  - unfold after_loop. repeat case_match; by repeat constructor.
  - unfold emit_results. repeat case_match; by repeat constructor.
Qed.

Lemma finished_spec σ :
  finished σ = true ↔ ∀ i t, threads σ !! i = Some t → future t = [].
Proof.
  unfold finished. rewrite forallb_forall. split.
  - intros Hall i t Ht. eapply bool_decide_eq_true, Hall.
    apply list_elem_of_In, list_elem_of_lookup. by exists i.
  - intros Hall t [i Ht]%list_elem_of_In%list_elem_of_lookup.
    apply bool_decide_eq_true. by eapply Hall.
Qed.

End SystemFacts.

(** ** What the specification states about permits and output *)

(** C7: the callback of a test under [test/integration] takes the permit
    of its directory before a permit of [sema] and gives it back after
    giving that one back, touching neither in between; hence two such
    tests with the same parent directory are never executing at once,
    whatever the order in which the callbacks are resumed. *)
Theorem directory_permit_is_outermost `{Runner.Path} (cfg : Runner.config)
  (jobs : list (string * Runner.oracle)) :
  (∀ k test o,
     jobs !! k = Some (test, o) →
     JS.startsWith test "test/integration" = true →
     ∃ body,
       Runner.programs cfg jobs !! k
       = Some ([Runner.Acquire (Runner.Directory (Runner.path_dirname test));
                Runner.Acquire Runner.Global]
               ++ body
               ++ [Runner.Release Runner.Global;
                   Runner.Release (Runner.Directory (Runner.path_dirname test))]) ∧
       Forall Sched.keeps_to_output body) ∧
  (∀ σ i j testi oi testj oj ti tj,
     Sched.reachable cfg (Runner.programs cfg jobs) σ →
     jobs !! i = Some (testi, oi) → jobs !! j = Some (testj, oj) →
     JS.startsWith testi "test/integration" = true →
     JS.startsWith testj "test/integration" = true →
     Runner.path_dirname testi = Runner.path_dirname testj →
     Sched.threads σ !! i = Some ti → Sched.threads σ !! j = Some tj →
     Sched.executing ti = true → Sched.executing tj = true →
     i = j).
Proof.
  split.
  - intros k test o Hjob Hleg.
    destruct (programs_of_job cfg jobs k test o Hjob) as (d & Hprog & Hd).
    rewrite (Hd Hleg) in Hprog. exists (Runner.body cfg test o).
    split; [done|apply body_keeps_to_output].
  - intros σ i j testi oi testj oj ti tj Hreach Hi Hj Hli Hlj Hdir Hti Htj Hei Hej.
    destruct (reachable_invariant cfg jobs σ Hreach) as ([_ Hat] & Hexcl & _).
    destruct (programs_of_job cfg jobs i testi oi Hi) as (di & Hpi & Hdi).
    destruct (programs_of_job cfg jobs j testj oj Hj) as (dj & Hpj & Hdj).
    rewrite (Hdi Hli) in Hpi. rewrite (Hdj Hlj), <- Hdir in Hpj.
    pose proof (Hat i ti Hti) as Hsi. rewrite Hpi in Hsi.
    pose proof (Hat j tj Htj) as Hsj. rewrite Hpj in Hsj.
    assert (Hwi : Runner.worker cfg (Some (Runner.path_dirname testi)) testi oi
                  = Sched.past ti ++ Sched.future ti) by congruence.
    assert (Hwj : Runner.worker cfg (Some (Runner.path_dirname testi)) testj oj
                  = Sched.past tj ++ Sched.future tj) by congruence.
    destruct (Hexcl (Runner.Directory (Runner.path_dirname testi)) ltac:(done))
      as (_ & _ & Huniq).
    eapply Huniq; [exact Hti|exact Htj| |]; unfold Sched.holds.
    + eapply executing_holds_dir; [exact Hwi|exact Hei].
    + eapply executing_holds_dir; [exact Hwj|exact Hej].
Qed.

(** C8: with output hidden, an attempt that succeeds writes none of the
    chunks it captured; an attempt that fails writes them as one block,
    the start marker, the chunks in the order captured, the end marker,
    between taking and giving back the one permit of [outputSema]; at any
    moment at most one callback holds that permit and a callback about to
    write holds it, so the blocks of tests running together never overlap. *)
Theorem failure_output_is_one_block `{Runner.Path} (cfg : Runner.config) :
  Runner.hideOutput cfg = true →
  (∀ test fin retry a,
     Runner.exit_failed (Runner.code a) (Runner.signal a) = false →
     (Runner.runTest cfg test fin retry a).1
     = [Runner.Spawn test fin retry;
        Runner.ChildExit (Runner.code a) (Runner.signal a);
        Runner.RemoveTraces test]) ∧
  (∀ test fin retry a,
     Runner.exit_failed (Runner.code a) (Runner.signal a) = true →
     (Runner.runTest cfg test fin retry a).1
     = [Runner.Spawn test fin retry;
        Runner.ChildExit (Runner.code a) (Runner.signal a);
        Runner.Acquire Runner.Output;
        Runner.Write (Runner.GROUP cfg +:+ test +:+ " output" +:+ Runner.nl)]
       ++ (Runner.Write <$> (snd <$> Runner.output a))
       ++ [Runner.Write ("end of " +:+ test +:+ " output" +:+ Runner.nl
                         +:+ Runner.ENDGROUP cfg +:+ Runner.nl);
           Runner.Release Runner.Output]) ∧
  (∀ jobs σ,
     Sched.reachable cfg (Runner.programs cfg jobs) σ →
     (∀ i j ti tj,
        Sched.threads σ !! i = Some ti → Sched.threads σ !! j = Some tj →
        Sched.holds Runner.Output ti = true → Sched.holds Runner.Output tj = true →
        i = j) ∧
     (∀ i t chunk rest,
        Sched.threads σ !! i = Some t → Sched.future t = Runner.Write chunk :: rest →
        Sched.holds Runner.Output t = true)).
Proof.
  intros Hhide. split_and!.
  - intros test fin retry a Hok. unfold Runner.runTest. by rewrite Hok, Hhide.
  - intros test fin retry a Hfail. unfold Runner.runTest, Runner.failure_block.
    by rewrite Hfail, Hhide.
  - intros jobs σ Hreach.
    destruct (reachable_invariant cfg jobs σ Hreach) as ([_ Hat] & Hexcl & _).
    split.
    + destruct (Hexcl Runner.Output ltac:(done)) as (_ & _ & Huniq). exact Huniq.
    + intros i t chunk rest Ht Hfut. specialize (Hat i t Ht). rewrite Hfut in Hat.
      destruct (programs_lookup cfg jobs i _ Hat) as (d & test & o & _ & Hw & _).
      unfold Sched.holds. by eapply write_under_permit.
Qed.

Lemma failure_output_is_one_block_witness :
  Runner.hideOutput (Example.cfg true) = true ∧
  (∀ i j ti tj,
     Sched.threads (Example.final true) !! i = Some ti →
     Sched.threads (Example.final true) !! j = Some tj →
     Sched.holds Runner.Output ti = true → Sched.holds Runner.Output tj = true →
     i = j).
Proof.
  split; [reflexivity|].
  apply (proj2 (proj2 (failure_output_is_one_block (H := Runner.posix_path)
                         (Example.cfg true) eq_refl)) Example.jobs).
  unfold Example.final, Sched.reachable.
  destruct (Sched.run_schedule _ _) as [σ|] eqn:Hrun; simpl.
  - by eapply run_schedule_reachable.
  - apply rtc_refl.
Defined.

(** * Further properties, read off the code *)

(** ** Further properties of the partitioner *)

(** X1: without timings, the group at position [groupPos] holds
    [numPerGroup] identifiers, or what is left of the list after the groups
    before it, which may be nothing: the last groups can be empty (five
    identifiers over four groups leave the fourth one empty), and so is
    every group past [groupTotal] and the group at position 0. *)
Theorem slice_group_size (testNames : list string) (groupPos groupTotal : Z) :
  1 <= groupTotal ->
  let n := Partition.numPerGroup testNames groupTotal in
  let total := Z.of_nat (length testNames) in
  (1 <= groupPos ->
   Z.of_nat (length (Partition.slice_group testNames groupPos groupTotal))
   = Z.min n (Z.max 0 (total - (groupPos - 1) * n))) ∧
  (groupTotal < groupPos -> Partition.slice_group testNames groupPos groupTotal = []) ∧
  (groupPos = 0 -> Partition.slice_group testNames groupPos groupTotal = []).
Proof.
  intros Hgt n total.
  assert (Hb : (n - 1) * groupTotal < total <= n * groupTotal)
    by (apply ceil_div_bounds; lia).
  assert (Hn : 0 <= n) by (apply ceil_div_nonneg; lia).
  unfold Partition.slice_group. fold n. clearbody n.
  assert (Hlen : 1 <= groupPos ->
            Z.of_nat (length (JS.slice testNames ((groupPos - 1) * n)
                                ((groupPos - 1) * n + n)))
            = Z.min n (Z.max 0 (total - (groupPos - 1) * n))).
  { intros Hpos.
    assert (Hm : 0 <= (groupPos - 1) * n) by (apply Z.mul_nonneg_nonneg; lia).
    rewrite slice_nonneg by done. rewrite length_take, length_drop.
    subst total. clear Hb. revert Hm. generalize ((groupPos - 1) * n). lia. }
  split_and!; [done| |].
  - intros Hout. apply nil_length_inv. specialize (Hlen ltac:(lia)).
    assert (total <= (groupPos - 1) * n) by nia. lia.
  - intros ->. unfold JS.slice. fold total.
    apply nil_length_inv. rewrite length_take, length_drop.
    destruct (Z.ltb_spec ((0 - 1) * n) 0), (Z.ltb_spec ((0 - 1) * n + n) 0); lia.
Qed.

Lemma slice_group_size_witness :
  let testNames := ["a"; "b"; "c"; "d"; "e"]%string in
  1 <= 4 ∧ Partition.numPerGroup testNames 4 = 2 ∧
  Z.of_nat (length (Partition.slice_group testNames 4 4)) = Z.min 2 (Z.max 0 (5 - (4 - 1) * 2)) ∧
  Partition.slice_group testNames 4 4 = [] ∧
  Partition.slice_group testNames 5 4 = [] ∧
  Partition.slice_group testNames 0 4 = [].
Proof.
  split; [lia|]. split; [reflexivity|].
  pose proof (slice_group_size ["a"; "b"; "c"; "d"; "e"]%string 4 4 ltac:(lia)) as [H4 _].
  pose proof (slice_group_size ["a"; "b"; "c"; "d"; "e"]%string 5 4 ltac:(lia)) as (_ & H5 & _).
  pose proof (slice_group_size ["a"; "b"; "c"; "d"; "e"]%string 0 4 ltac:(lia)) as (_ & _ & H0).
  split; [apply H4; lia|]. split; [reflexivity|]. split; [apply H5; lia|by apply H0].
Defined.

Section GreedyMore.
Import Partition.
Context {num : Type} `{Number num}.
Variable prevTimings : gmap string num.

Implicit Types (st : state num).

Lemma run_from_order gt testNames st (seen : list string) :
  wf st → (∀ k, group st k `sublist_of` seen) →
  ∃ st', run_from prevTimings gt st testNames = Some st' ∧
         ∀ k, group st' k `sublist_of` seen ++ testNames.
Proof.
  revert st seen. induction testNames as [|t l IH]; intros st seen Hwf Hsub; simpl.
  - exists st. split; [done|]. intros k. by rewrite app_nil_r.
  - destruct (step_spec prevTimings gt st t Hwf)
      as (st1 & -> & Hwf1 & _ & Hat & Hother & _). simpl.
    destruct (IH st1 (seen ++ [t]) Hwf1) as (st' & -> & Hsub').
    + intros k. destruct (decide (k = chosen gt st)) as [->|Hne].
      * rewrite Hat. by apply sublist_app.
      * rewrite (Hother k Hne). by apply sublist_inserts_r.
    + exists st'. split; [done|]. intros k. specialize (Hsub' k).
      by rewrite <- app_assoc in Hsub'.
Qed.

Lemma scan_loop_slots n i s j :
  (j < i ∨ i + n ≤ j)%nat →
  groups (cur (scan_loop n i s)) !! j = groups (cur s) !! j.
Proof.
  revert i s. induction n as [|n IH]; intros i s Hj; [done|].
  simpl. rewrite IH by lia. unfold scan_body.
  destruct (groups (cur s) !! i) eqn:Hi; destruct (lt _ _); simpl; try done;
    by rewrite lookup_insert_ne by lia.
Qed.

Lemma run_from_outside gt testNames st :
  wf st → (∀ k, (Z.to_nat (Z.max 1 gt) ≤ k)%nat → groups st !! k = None) →
  ∃ st', run_from prevTimings gt st testNames = Some st' ∧
         ∀ k, (Z.to_nat (Z.max 1 gt) ≤ k)%nat → groups st' !! k = None.
Proof.
  revert st. induction testNames as [|t l IH]; intros st Hwf Hout; simpl.
  - by exists st.
  - destruct (step_spec prevTimings gt st t Hwf)
      as (st1 & Hstep & Hwf1 & Hk & _). rewrite Hstep. simpl.
    apply IH; [done|]. intros k Hge.
    unfold step in Hstep. fold (chosen gt st) in Hstep.
    destruct (groups _ !! chosen gt st) as [g|]; [|done].
    destruct (groupTimes _ !! chosen gt st) as [t0|]; [|done].
    injection Hstep as <-. simpl.
    rewrite lookup_insert_ne by lia. rewrite scan_loop_slots by lia.
    by apply Hout.
Qed.

Lemma run_from_single gt testNames st :
  gt <= 1 → wf st →
  ∃ st', run_from prevTimings gt st testNames = Some st' ∧
         group st' 0 = group st 0 ++ testNames.
Proof.
  intros Hgt. revert st. induction testNames as [|t l IH]; intros st Hwf; simpl.
  - exists st. by rewrite app_nil_r.
  - destruct (step_spec prevTimings gt st t Hwf)
      as (st1 & -> & Hwf1 & Hk & Hat & _). simpl.
    replace (chosen gt st) with 0%nat in Hat by lia.
    destruct (IH st1 Hwf1) as (st' & -> & Heq).
    exists st'. split; [done|]. by rewrite Heq, Hat, <- app_assoc.
Qed.

End GreedyMore.

(** X2: with timings, every group lists its identifiers in the order in
    which they were discovered. *)
Theorem greedy_keeps_discovery_order
  {num : Type} `{Partition.Number num} (prevTimings : gmap string num)
  (groupTotal : Z) (testNames : list string) :
  ∃ st, Partition.run prevTimings groupTotal testNames = Some st ∧
        ∀ groupPos, Partition.members st groupPos `sublist_of` testNames.
Proof.
  destruct (run_from_order prevTimings groupTotal testNames Partition.init []
              wf_init) as (st & Hrun & Hsub).
  { intros k. by rewrite group_init. }
  exists st. split; [done|]. intros p. unfold Partition.members, Partition.group_at.
  destruct (Z.ltb_spec (p - 1) 0); [apply sublist_nil_l|]. apply Hsub.
Qed.

(** X3: with timings and a group total of 1 or less (0 and negative
    numbers included) the loop never looks past group 1: it receives every
    identifier, in order. *)
Theorem greedy_single_group
  {num : Type} `{Partition.Number num} (prevTimings : gmap string num)
  (groupTotal : Z) (testNames : list string) :
  groupTotal <= 1 ->
  ∃ st, Partition.run prevTimings groupTotal testNames = Some st ∧
        Partition.members st 1 = testNames.
Proof.
  intros Hgt.
  destruct (run_from_single prevTimings groupTotal testNames Partition.init Hgt
              wf_init) as (st & Hrun & Heq).
  exists st. split; [done|]. by rewrite group_init in Heq.
Qed.

Lemma greedy_single_group_witness :
  0 <= 1 ∧
  ∃ st, Partition.run (∅ : gmap string Q) 0 ["a"; "b"]%string = Some st ∧
        Partition.members st 1 = ["a"; "b"]%string.
Proof.
  split; [lia|].
  apply (greedy_single_group (∅ : gmap string Q) 0 ["a"; "b"]%string). lia.
Defined.

(** X4: with timings, a position outside [1 .. max 1 groupTotal] names a
    group the loop never created: it holds no identifier. *)
Theorem greedy_outside_positions_empty
  {num : Type} `{Partition.Number num} (prevTimings : gmap string num)
  (groupTotal groupPos : Z) (testNames : list string) :
  groupPos <= 0 ∨ Z.max 1 groupTotal < groupPos ->
  ∃ st, Partition.run prevTimings groupTotal testNames = Some st ∧
        Partition.group_at st groupPos = None ∧
        Partition.members st groupPos = [].
Proof.
  intros Hpos.
  destruct (run_from_outside prevTimings groupTotal testNames Partition.init
              wf_init) as (st & Hrun & Hout).
  { intros k Hk. unfold Partition.init. simpl. apply lookup_singleton_ne. lia. }
  exists st. split; [done|].
  assert (Hnone : Partition.group_at st groupPos = None).
  { unfold Partition.group_at. destruct (Z.ltb_spec (groupPos - 1) 0); [done|].
    apply Hout. lia. }
  split; [done|]. unfold Partition.members. by rewrite Hnone.
Qed.

Lemma greedy_outside_positions_empty_witness :
  (0 <= 0 ∨ Z.max 1 2 < 0) ∧
  ∃ st, Partition.run (∅ : gmap string Q) 2 ["a"; "b"; "c"]%string = Some st ∧
        Partition.group_at st 0 = None ∧ Partition.members st 0 = [].
Proof.
  split; [left; lia|].
  apply (greedy_outside_positions_empty (∅ : gmap string Q) 2 0). left. lia.
Defined.

Section GreedyFill.
Import Partition.
Context {num : Type} `{Number num}.
Variable prevTimings : gmap string num.
Hypothesis Hord : weak_order (num := num).
Hypothesis Hadd : ∀ x w, (x = zero ∨ ltb zero x = true) → ltb zero w = true →
                         ltb zero (add x w) = true.

Implicit Types (st : state num).

Lemma run_from_fill gt testNames st (seen : list string) :
  wf st →
  (∀ t, t ∈ testNames → ltb zero (duration prevTimings t) = true) →
  (∀ i, (i < Z.to_nat (Z.max 1 gt))%nat →
        head (group st i) = seen !! i ∧
        if decide (i < length seen)%nat then ltb zero (accumulated st i) = true
        else accumulated st i = zero) →
  ∃ st', run_from prevTimings gt st testNames = Some st' ∧
    ∀ i, (i < Z.to_nat (Z.max 1 gt))%nat →
         head (group st' i) = (seen ++ testNames) !! i.
Proof using Hord Hadd.
  revert st seen. induction testNames as [|t l IH]; intros st seen Hwf Hpos Hinv; simpl.
  - exists st. split; [done|]. intros i Hi. rewrite app_nil_r. by apply Hinv.
  - destruct (step_spec prevTimings gt st t Hwf)
      as (st1 & -> & Hwf1 & Hk & Hat & Hother & Hacc & Hacc'). simpl.
    destruct (chosen_min gt st Hord Hwf) as [Hmin Hfirst].
    set (k := chosen gt st) in *.
    assert (HN : S (Z.to_nat (gt - 1)) = Z.to_nat (Z.max 1 gt)) by lia.
    rewrite HN in *.
    assert (Hw : ltb zero (duration prevTimings t) = true) by (apply Hpos; left).
    assert (Hkm : (length seen < Z.to_nat (Z.max 1 gt))%nat → k = length seen).
    { intros Hm. destruct (Hinv (length seen) Hm) as [_ Hzero].
      rewrite decide_False in Hzero by lia.
      destruct (Nat.lt_trichotomy k (length seen)) as [Hlt|[Heq|Hgt]]; [|done|].
      - destruct (Hinv k Hk) as [_ Hkpos]. rewrite decide_True in Hkpos by done.
        specialize (Hmin (length seen) Hm). rewrite Hzero in Hmin. congruence.
      - specialize (Hfirst (length seen) Hgt). rewrite Hzero in Hfirst.
        destruct (Hinv k Hk) as [_ Hkz]. rewrite decide_False in Hkz by lia.
        rewrite Hkz in Hfirst. rewrite (lt_irrefl Hord) in Hfirst. done. }
    destruct (IH st1 (seen ++ [t]) Hwf1) as (st' & -> & Hfin).
    + intros t' Ht'. apply Hpos. by right.
    + intros i Hi. rewrite length_app. simpl.
      destruct (Hinv i Hi) as [Hhead Hval].
      destruct (decide (i = k)) as [->|Hne].
      * rewrite Hat, Hacc. split.
        -- destruct (decide (length seen < Z.to_nat (Z.max 1 gt))%nat) as [Hm|Hm].
           ++ rewrite (Hkm Hm) in *. rewrite lookup_app_r, Nat.sub_diag by lia.
              rewrite lookup_ge_None_2 in Hhead by lia.
              destruct (group st (length seen)); [done|done].
           ++ rewrite lookup_app_l by lia. rewrite <- Hhead.
              destruct (group st k) eqn:Hg; [|done].
              simpl in Hhead. symmetry in Hhead.
              apply lookup_ge_None_1 in Hhead. lia.
        -- assert (k ≤ length seen)%nat.
           { destruct (decide (length seen < Z.to_nat (Z.max 1 gt))%nat) as [Hm|Hm];
               [rewrite (Hkm Hm)|]; lia. }
           rewrite decide_True by lia. apply Hadd; [|done].
           destruct (decide (k < length seen)%nat); [by right|by left].
      * rewrite (Hother i Hne), (Hacc' i Hne). split.
        -- destruct (decide (i < length seen)%nat).
           ++ by rewrite lookup_app_l by lia.
           ++ rewrite Hhead, (lookup_ge_None_2 seen i) by lia.
              symmetry. apply lookup_ge_None_2. rewrite length_app. simpl.
              assert (k = length seen) by (apply Hkm; lia). lia.
        -- destruct (decide (i < length seen)%nat).
           ++ by rewrite decide_True by lia.
           ++ rewrite decide_False; [done|].
              assert (k = length seen) by (apply Hkm; lia). lia.
    + exists st'. split; [done|]. intros i Hi. rewrite (Hfin i Hi).
      by rewrite <- app_assoc.
Qed.

End GreedyFill.

(** X5: with timings, when every duration counted is positive, the first
    identifiers open the groups one after the other: group [i+1] starts
    with the [i]-th identifier, and stays empty only when there are not
    that many identifiers.  So no group is empty once there are at least
    as many identifiers as groups. *)
Theorem greedy_fills_groups_in_order
  {num : Type} `{Partition.Number num} (prevTimings : gmap string num)
  (groupTotal : Z) (testNames : list string) :
  Partition.weak_order (num := num) ->
  (∀ x w, (x = Partition.zero ∨ Partition.ltb Partition.zero x = true) →
          Partition.ltb Partition.zero w = true →
          Partition.ltb Partition.zero (Partition.add x w) = true) ->
  (∀ t, t ∈ testNames →
        Partition.ltb Partition.zero (Partition.duration prevTimings t) = true) ->
  ∃ st, Partition.run prevTimings groupTotal testNames = Some st ∧
    ∀ i, (i < Z.to_nat (Z.max 1 groupTotal))%nat →
         head (Partition.group st i) = testNames !! i.
Proof.
  intros Hord Hadd Hpos.
  apply (run_from_fill prevTimings Hord Hadd groupTotal testNames Partition.init []);
    [apply wf_init|done|].
  intros i Hi. rewrite group_init. simpl. split; [done|].
  unfold Partition.accumulated, Partition.init. simpl.
  destruct (decide (i = 0%nat)) as [->|Hne].
  - by rewrite lookup_singleton_eq.
  - by rewrite lookup_singleton_ne.
Qed.

Lemma Q_positive_add (x w : Q) :
  x = Partition.zero ∨ Partition.ltb Partition.zero x = true →
  Partition.ltb Partition.zero w = true →
  Partition.ltb Partition.zero (Partition.add x w) = true.
Proof.
  rewrite !Q_ltb_lt. simpl. intros [->|Hx] Hw; lra.
Qed.

Lemma greedy_fills_groups_in_order_witness :
  ∃ st, Partition.run (∅ : gmap string Q) 2 ["a"; "b"; "c"]%string = Some st ∧
    ∀ i, (i < Z.to_nat (Z.max 1 2))%nat →
         head (Partition.group st i) = ["a"; "b"; "c"]%string !! i.
Proof.
  apply (greedy_fills_groups_in_order (∅ : gmap string Q) 2 ["a"; "b"; "c"]%string
           Q_weak_order Q_positive_add).
  intros t _. reflexivity.
Defined.

Section GreedyBalance.
Import Partition.
Context {num : Type} `{Number num}.
Variable prevTimings : gmap string num.
Hypothesis Hord : weak_order (num := num).
Hypothesis Hmono : ∀ a a' b b',
  ltb a zero = false → ltb a' a = false →
  ltb b zero = false → ltb b' b = false →
  ltb (add a' b') (add a b) = false.
Hypothesis Hgrow : ∀ a w,
  ltb a zero = false → ltb w zero = false → ltb (add a w) a = false.

Lemma not_lt_trans a b c :
  ltb b a = false → ltb c b = false → ltb c a = false.
Proof using Hord.
  intros Hab Hbc. destruct (ltb c a) eqn:Hca; [|done].
  destruct (lt_cotrans Hord c b a Hca); congruence.
Qed.

Lemma run_from_balance gt testNames (st : state num) (W : num) :
  wf st →
  ltb W zero = false →
  (∀ t, t ∈ testNames →
        ltb (duration prevTimings t) zero = false ∧
        ltb W (duration prevTimings t) = false) →
  (∀ i, ltb (accumulated st i) zero = false) →
  (∀ i j, (i < Z.to_nat (Z.max 1 gt))%nat → (j < Z.to_nat (Z.max 1 gt))%nat →
          ltb (add (accumulated st j) W) (accumulated st i) = false) →
  ∃ st', run_from prevTimings gt st testNames = Some st' ∧
    ∀ i j, (i < Z.to_nat (Z.max 1 gt))%nat → (j < Z.to_nat (Z.max 1 gt))%nat →
           ltb (add (accumulated st' j) W) (accumulated st' i) = false.
Proof using Hord Hmono Hgrow.
  intros Hwf HW. revert st Hwf.
  induction testNames as [|t l IH]; intros st Hwf Hw Hpos Hinv; simpl.
  - by exists st.
  - destruct (step_spec prevTimings gt st t Hwf)
      as (st1 & -> & Hwf1 & Hk & _ & _ & Hacc & Hacc'). simpl.
    destruct (chosen_min gt st Hord Hwf) as [Hmin _].
    set (k := chosen gt st) in *.
    assert (HN : S (Z.to_nat (gt - 1)) = Z.to_nat (Z.max 1 gt)) by lia.
    rewrite HN in *.
    destruct (Hw t ltac:(left)) as [Hw0 HwW].
    assert (Hup : ltb (add (accumulated st k) (duration prevTimings t))
                      (accumulated st k) = false) by by apply Hgrow.
    assert (Hpos1 : ∀ i, ltb (accumulated st1 i) zero = false).
    { intros i. destruct (decide (i = k)) as [->|Hik].
      - rewrite Hacc. eapply not_lt_trans; [apply (Hpos k)|exact Hup].
      - rewrite (Hacc' i) by done. apply Hpos. }
    apply IH; [done|intros t' Ht'; apply Hw; by right|done|].
    intros i j Hi Hj.
    destruct (decide (i = k)) as [->|Hik], (decide (j = k)) as [->|Hjk];
      rewrite ?Hacc, ?(Hacc' i), ?(Hacc' j) by done.
    + apply Hgrow; [|done]. rewrite <- Hacc. apply Hpos1.
    + apply Hmono; [apply Hpos|by apply Hmin|done|done].
    + eapply not_lt_trans; [by apply (Hinv i k)|].
      apply Hmono; [apply Hpos|exact Hup|done|apply (lt_irrefl Hord)].
    + by apply Hinv.
Qed.

End GreedyBalance.

Lemma Q_add_monotone (a a' b b' : Q) :
  Partition.ltb a Partition.zero = false → Partition.ltb a' a = false →
  Partition.ltb b Partition.zero = false → Partition.ltb b' b = false →
  Partition.ltb (Partition.add a' b') (Partition.add a b) = false.
Proof.
  rewrite <- !not_true_iff_false, !Q_ltb_lt. simpl. intros _ Ha _ Hb.
  apply Qle_not_lt. apply Qnot_lt_le in Ha, Hb. lra.
Qed.

Lemma Q_add_grows (a w : Q) :
  Partition.ltb a Partition.zero = false →
  Partition.ltb w Partition.zero = false →
  Partition.ltb (Partition.add a w) a = false.
Proof.
  rewrite <- !not_true_iff_false, !Q_ltb_lt. simpl. intros _ Hw.
  apply Qle_not_lt. apply Qnot_lt_le in Hw. lra.
Qed.

(** X6: with timings, no group ends up more than the largest duration
    ahead of another, as the script's own [+] and [<] see it: when every
    duration counted lies between 0 and [W], the total of a group is never
    above the total of another group plus [W].  This needs of the numbers
    that [<] orders them and, of those that are not negative, that [+] is
    monotone and that adding one to a total does not make it smaller; all
    true of JavaScript numbers other than NaN, whose sums are rounded. *)
Theorem greedy_groups_are_balanced
  {num : Type} `{Partition.Number num} (prevTimings : gmap string num)
  (groupTotal : Z) (testNames : list string) (W : num) :
  Partition.weak_order (num := num) ->
  (∀ a a' b b',
     Partition.ltb a Partition.zero = false → Partition.ltb a' a = false →
     Partition.ltb b Partition.zero = false → Partition.ltb b' b = false →
     Partition.ltb (Partition.add a' b') (Partition.add a b) = false) ->
  (∀ a w, Partition.ltb a Partition.zero = false →
          Partition.ltb w Partition.zero = false →
          Partition.ltb (Partition.add a w) a = false) ->
  Partition.ltb W Partition.zero = false ->
  (∀ t, t ∈ testNames →
        Partition.ltb (Partition.duration prevTimings t) Partition.zero = false ∧
        Partition.ltb W (Partition.duration prevTimings t) = false) ->
  ∃ st, Partition.run prevTimings groupTotal testNames = Some st ∧
    ∀ i j, (i < Z.to_nat (Z.max 1 groupTotal))%nat →
           (j < Z.to_nat (Z.max 1 groupTotal))%nat →
           Partition.ltb (Partition.add (Partition.accumulated st j) W)
                         (Partition.accumulated st i) = false.
Proof.
  intros Hord Hmono Hgrow HW Hw.
  assert (Hz : ∀ k, Partition.accumulated (num := num) Partition.init k
                    = Partition.zero).
  { intros k. unfold Partition.accumulated, Partition.init. simpl.
    destruct (decide (k = 0%nat)) as [->|Hne].
    - by rewrite lookup_singleton_eq.
    - by rewrite lookup_singleton_ne. }
  apply (run_from_balance prevTimings Hord Hmono Hgrow);
    [apply wf_init|done|done| |].
  - intros i. rewrite Hz. apply (Partition.lt_irrefl Hord).
  - intros i j _ _. rewrite !Hz. apply Hgrow; [apply (Partition.lt_irrefl Hord)|done].
Qed.

Lemma greedy_groups_are_balanced_witness :
  ∃ st, Partition.run Example.prevTimings 3
          ["a.test.js"; "b.test.js"; "c.test.js"; "d.test.js"]%string = Some st ∧
    ∀ i j, (i < Z.to_nat (Z.max 1 3))%nat → (j < Z.to_nat (Z.max 1 3))%nat →
           Partition.ltb (Partition.add (Partition.accumulated st j) 5%Q)
                         (Partition.accumulated st i) = false.
Proof.
  apply (greedy_groups_are_balanced Example.prevTimings 3
           ["a.test.js"; "b.test.js"; "c.test.js"; "d.test.js"]%string 5%Q
           Q_weak_order Q_add_monotone Q_add_grows); [done|].
  intros t Ht. repeat (apply elem_of_cons in Ht as [->|Ht]); try (by vm_compute).
  by apply elem_of_nil in Ht.
Defined.

(** The same on the script's own numbers, with durations 0.1, 0.1 and 0.2
    over two groups: the first group gets the first and the third test and
    its total is 0.30000000000000004, which is not above the other total
    plus 0.2 as the script adds, though their rounded difference is above
    0.2. *)
Example doubles_example :
  ∃ st, Partition.run (H := Doubles.number) Doubles.prevTimings 2
          ["a.test.js"; "b.test.js"; "c.test.js"]%string = Some st ∧
    Partition.members st 1 = ["a.test.js"; "c.test.js"]%string ∧
    Partition.members st 2 = ["b.test.js"]%string ∧
    Partition.accumulated (H := Doubles.number) st 0 = 0x1.3333333333334p-2%float ∧
    Partition.accumulated (H := Doubles.number) st 1 = 0x1.999999999999ap-4%float ∧
    PrimFloat.ltb
      (Partition.accumulated (H := Doubles.number) st 1 + 0x1.999999999999ap-3)%float
      (Partition.accumulated (H := Doubles.number) st 0) = false ∧
    PrimFloat.ltb 0x1.999999999999ap-3%float
      (Partition.accumulated (H := Doubles.number) st 0
       - Partition.accumulated (H := Doubles.number) st 1)%float = true.
Proof.
  eexists. split; [by vm_compute|]. by vm_compute.
Qed.

Example discovery_examples :
  Discovery.is_test_arg "test/e2e/app/index.test.ts" = true ∧
  Discovery.is_test_arg "--debug" = false ∧
  Discovery.normalize ("test" +:+ Runner.backslash +:+ "unit" +:+ Runner.backslash +:+ "a.test.js")
  = "test/unit/a.test.js" ∧
  Discovery.normalize "test/integration/basic/test" = "test/integration/basic" ∧
  Discovery.testNames ["a/test"; "b.test.js"; "a"; "b.test.js"] = ["a"; "b.test.js"] ∧
  Discovery.apply_enabledTests [] ["a"; "b"] = ["a"; "b"] ∧
  Discovery.apply_enabledTests ["x/a.test.js"] ["a.test.js"; "b.test.js"] = ["a.test.js"].
Proof. by vm_compute. Qed.

(** ** Further properties of the selection of tests *)

Section DiscoveryFacts.
Import Discovery.

Lemma set_values_elem seen l x :
  x ∈ set_values seen l ↔ x ∈ l ∧ x ∉ seen.
Proof.
  revert seen. induction l as [|y l IH]; intros seen; simpl.
  - split; [by intros ?%elem_of_nil|by intros [?%elem_of_nil _]].
  - case_bool_decide as Hy.
    + rewrite IH, elem_of_cons. split; [intros [? ?]; by auto|].
      intros [[->|?] ?]; [done|by auto].
    + rewrite !elem_of_cons, IH, not_elem_of_cons. split.
      * intros [->|(? & ? & ?)]; by auto.
      * intros [[->|?] ?]; [by left|].
        destruct (decide (x = y)) as [->|]; [by left|by right].
Qed.

Lemma set_values_NoDup seen l : NoDup (set_values seen l).
Proof.
  revert seen. induction l as [|y l IH]; intros seen; simpl; [constructor|].
  case_bool_decide; [apply IH|]. constructor; [|apply IH].
  rewrite set_values_elem, not_elem_of_cons. by intros (_ & ? & _).
Qed.

Lemma set_values_sublist seen l : set_values seen l `sublist_of` l.
Proof.
  revert seen. induction l as [|y l IH]; intros seen; simpl; [done|].
  case_bool_decide; [by apply sublist_cons|by apply sublist_skip].
Qed.

Lemma set_values_id seen l :
  NoDup l → (∀ x, x ∈ l → x ∉ seen) → set_values seen l = l.
Proof.
  revert seen. induction l as [|y l IH]; intros seen Hnd Hfresh; simpl; [done|].
  inversion Hnd as [|? ? Hy Hnd']; subst.
  rewrite bool_decide_eq_false_2 by (apply Hfresh; left).
  f_equal. apply IH; [done|]. intros x Hx.
  rewrite not_elem_of_cons. split; [|apply Hfresh; by right].
  intros ->. by apply Hy, list_elem_of_In.
Qed.

Lemma replace_char_clean from to s :
  from ≠ to → has_char from (replace_char from to s) = false.
Proof.
  intros Hne. induction s as [|c s IH]; simpl; [done|]. rewrite IH.
  destruct (Ascii.eqb_spec c from) as [->|Hc].
  - destruct (Ascii.eqb_spec to from); [congruence|done].
  - destruct (Ascii.eqb_spec c from); [congruence|done].
Qed.

Lemma replace_char_absent from to s :
  has_char from s = false → replace_char from to s = s.
Proof.
  induction s as [|c s IH]; simpl; [done|].
  intros [Hc Hs]%orb_false_iff. by rewrite Hc, IH.
Qed.

Lemma replace_char_length from to s :
  String.length (replace_char from to s) = String.length s.
Proof. induction s as [|c s IH]; simpl; [done|by rewrite IH]. Qed.

Lemma has_char_substring c n m s :
  has_char c s = false → has_char c (String.substring n m s) = false.
Proof.
  revert n m. induction s as [|d s IH]; intros n m Hs.
  - by destruct n, m.
  - simpl in Hs. apply orb_false_iff in Hs as [Hd Hs].
    destruct n, m; simpl; rewrite ?Hd, ?IH; done.
Qed.

Lemma normalize_clean f : has_char "092"%char (normalize f) = false.
Proof.
  unfold normalize. case_match.
  - apply has_char_substring. by apply replace_char_clean.
  - by apply replace_char_clean.
Qed.

Lemma normalize_id f :
  has_char "092"%char f = false → JS.endsWith f "/test" = false → normalize f = f.
Proof.
  intros Hf Hend. unfold normalize. rewrite (replace_char_absent _ _ _ Hf).
  by rewrite Hend.
Qed.

End DiscoveryFacts.

Lemma set_values_snoc seen l x :
  Discovery.set_values seen (l ++ [x])
  = Discovery.set_values seen l
    ++ (if bool_decide (x ∈ seen ∨ x ∈ l) then [] else [x]).
Proof.
  revert seen. induction l as [|y l IH]; intros seen; simpl.
  - case_bool_decide as Hx.
    + rewrite bool_decide_eq_true_2; [done|by left].
    + rewrite bool_decide_eq_false_2; [done|].
      intros [?|?%elem_of_nil]; done.
  - case_bool_decide as Hy.
    + rewrite IH. f_equal.
      rewrite (bool_decide_ext (x ∈ seen ∨ x ∈ l) (x ∈ seen ∨ x ∈ y :: l)); [done|].
      rewrite elem_of_cons. split; [intros [?|?]; by auto|].
      intros [?|[->|?]]; by auto.
    + simpl. rewrite IH. do 2 f_equal.
      rewrite (bool_decide_ext (x ∈ y :: seen ∨ x ∈ l) (x ∈ seen ∨ x ∈ y :: l));
        [done|].
      rewrite !elem_of_cons. split.
      * intros [[->|?]|?]; by auto.
      * intros [?|[->|?]]; by auto.
Qed.

(** X7: the list of test names holds the normalised forms of the files
    given, each once, in the order of their first occurrence: going
    through the files, a file whose name is already listed changes
    nothing and a new name goes to the end of the list.  So the list has
    no duplicate and no backslash, a name is in it exactly when it is the
    normalised form of a file given, and files without backslash, not
    ending in [/test] and all different come out unchanged. *)
Theorem testNames_are_unique_and_normalised (tests : list string) :
  Discovery.testNames [] = [] ∧
  (∀ f, Discovery.testNames (tests ++ [f])
        = if bool_decide (Discovery.normalize f ∈ Discovery.testNames tests)
          then Discovery.testNames tests
          else Discovery.testNames tests ++ [Discovery.normalize f]) ∧
  NoDup (Discovery.testNames tests) ∧
  (∀ name, name ∈ Discovery.testNames tests ↔
           ∃ f, f ∈ tests ∧ name = Discovery.normalize f) ∧
  Discovery.testNames tests `sublist_of` (Discovery.normalize <$> tests) ∧
  (∀ name, name ∈ Discovery.testNames tests →
           Discovery.has_char "092"%char name = false) ∧
  (NoDup tests →
   (∀ f, f ∈ tests → Discovery.has_char "092"%char f = false
                     ∧ JS.endsWith f "/test" = false) →
   Discovery.testNames tests = tests).
Proof.
  unfold Discovery.testNames.
  assert (Hin : ∀ name, name ∈ Discovery.set_values [] (Discovery.normalize <$> tests)
            ↔ ∃ f, f ∈ tests ∧ name = Discovery.normalize f).
  { intros name. rewrite set_values_elem, list_elem_of_fmap. split.
    - intros [(f & -> & Hf) _]. by exists f.
    - intros (f & Hf & ->). split; [by exists f|apply not_elem_of_nil]. }
  split_and!.
  - done.
  - intros f. rewrite fmap_app. simpl. rewrite set_values_snoc.
    assert (Hiff : bool_decide (Discovery.normalize f ∈ []
                                ∨ Discovery.normalize f ∈ Discovery.normalize <$> tests)
                   = bool_decide (Discovery.normalize f
                                  ∈ Discovery.set_values [] (Discovery.normalize <$> tests))).
    { apply bool_decide_ext. rewrite set_values_elem. split.
      - intros [?%elem_of_nil|?]; [done|]. split; [done|apply not_elem_of_nil].
      - intros [? _]. by right. }
    rewrite Hiff. clear Hiff.
    destruct (bool_decide (Discovery.normalize f ∈ Discovery.set_values _ _));
      [apply app_nil_r|done].
  - apply set_values_NoDup.
  - done.
  - apply set_values_sublist.
  - intros name (f & _ & ->)%Hin. apply normalize_clean.
  - intros Hnd Hclean.
    assert (Hid : Discovery.normalize <$> tests = tests).
    { rewrite <- (list_fmap_id tests) at 2. apply list_fmap_ext.
      intros i f Hf. destruct (Hclean f) as [? ?].
      - apply list_elem_of_lookup. by exists i.
      - by apply normalize_id. }
    rewrite Hid. apply set_values_id; [done|].
    intros x _. apply not_elem_of_nil.
Qed.

(** X8: an empty allow-list filters nothing; a non-empty one keeps, in
    order, exactly the tests that some entry contains as a substring;
    filtering twice changes nothing more. *)
Theorem enabledTests_filter (enabledTests tests : list string) :
  (enabledTests = [] → Discovery.apply_enabledTests enabledTests tests = tests) ∧
  Discovery.apply_enabledTests enabledTests tests `sublist_of` tests ∧
  (enabledTests ≠ [] →
   ∀ test, test ∈ Discovery.apply_enabledTests enabledTests tests ↔
           test ∈ tests ∧
           ∃ enabled pre post, enabled ∈ enabledTests
                               ∧ enabled = pre +:+ test +:+ post) ∧
  Discovery.apply_enabledTests enabledTests
    (Discovery.apply_enabledTests enabledTests tests)
  = Discovery.apply_enabledTests enabledTests tests.
Proof.
  unfold Discovery.apply_enabledTests. split_and!.
  - by intros ->.
  - case_match; [apply sublist_filter|done].
  - intros Hne test. destruct enabledTests as [|e l]; [done|]. cbn [length Nat.ltb Nat.leb].
    rewrite list_elem_of_filter, existsb_exists. split.
    + intros [(enabled & Hin & (pre & post & ->)%includes_spec) Htest].
      split; [done|]. exists (pre +:+ test +:+ post), pre, post.
      split; [by apply list_elem_of_In|done].
    + intros [Htest (enabled & pre & post & Hin & ->)]. split; [|done].
      exists (pre +:+ test +:+ post). split; [by apply list_elem_of_In|].
      apply includes_spec. by exists pre, post.
  - case_match; [|done]. by rewrite list_filter_filter, (list_filter_iff _ (λ test, existsb (λ enabled, JS.includes enabled test) enabledTests = true)) by tauto.
Qed.

Lemma filter_none {A} (P : A → Prop) `{!∀ x, Decision (P x)} (l : list A) :
  (∀ x, x ∈ l → ¬ P x) → base.filter P l = [].
Proof.
  induction l as [|a l IH]; intros Hl; [done|].
  rewrite filter_cons_False by (apply Hl; left).
  apply IH. intros x Hx. apply Hl. by right.
Qed.



Lemma startsWith_longer (s p q : string) :
  JS.startsWith s (p +:+ q) = true → JS.startsWith s p = true.
Proof.
  rewrite !startsWith_spec. intros [post ->]. exists (q +:+ post).
  induction p as [|c p IH]; [done|]. by rewrite !append_cons, IH.
Qed.

Lemma startsWith_clash (s p q : string) :
  JS.startsWith s p = true → JS.startsWith s q = true →
  JS.startsWith p q = true ∨ JS.startsWith q p = true.
Proof.
  revert s q. induction p as [|c p IH]; intros s q; [by right|].
  destruct q as [|d q]; [by left|]. destruct s as [|e s]; [done|]. simpl.
  destruct (Ascii.eqb_spec c e) as [->|]; [|done].
  destruct (Ascii.eqb_spec d e) as [->|]; [|done].
  rewrite Ascii.eqb_refl. apply IH.
Qed.

(** X10: [hasIsolatedTests] compares a test with [test/] followed by the
    configured pattern itself, hence with [test/examples/],
    [test/test/integration/], [test/test/e2e/] or [test/] and a printed
    regular expression, which begins with a slash.  A selection made of
    files under the usual directories therefore has no isolated test, and a
    run without [--type] does not create the shared install. *)
Theorem isolated_tests_need_doubled_prefix `{Discovery.Regex}
  (platform : string) (NEXT_TEST_MODE : option string) (testNames : list string) :
  (∀ source, JS.startsWith (Discovery.regex_toString source) "/" = true) →
  (Discovery.hasIsolatedTests testNames = true →
   ∃ test, test ∈ testNames ∧
     (JS.startsWith test "test//" = true ∨
      JS.startsWith test "test/examples/" = true ∨
      JS.startsWith test "test/test/integration/" = true ∨
      JS.startsWith test "test/test/e2e/" = true)) ∧
  ((∀ test, test ∈ testNames →
      ∃ dir, dir ∈ ["test/e2e/"; "test/development/"; "test/production/";
                    "test/integration/"; "test/unit/"; "packages/";
                    "examples/"]%string ∧ JS.startsWith test dir = true) →
   Discovery.hasIsolatedTests testNames = false ∧
   Discovery.createsInstall platform NEXT_TEST_MODE None testNames = false).
Proof.
  intros Hslash.
  assert (Hre : ∀ test source,
    JS.startsWith test ("test/" +:+ Discovery.regex_toString source) = true →
    JS.startsWith test "test//" = true).
  { intros test source Hs. destruct (proj1 (startsWith_spec _ _) (Hslash source))
      as [post Hpost]. rewrite Hpost in Hs.
    apply (startsWith_longer test "test//" post). exact Hs. }
  assert (Hfirst : Discovery.hasIsolatedTests testNames = true →
   ∃ test, test ∈ testNames ∧
     (JS.startsWith test "test//" = true ∨
      JS.startsWith test "test/examples/" = true ∨
      JS.startsWith test "test/test/integration/" = true ∨
      JS.startsWith test "test/test/e2e/" = true)).
  { unfold Discovery.hasIsolatedTests. intros (test & Hin & Hty)%existsb_exists.
    exists test. split; [by apply list_elem_of_In|].
    apply existsb_exists in Hty as (type & Hty & Hp).
    apply andb_true_iff in Hp as [Hne Hp].
    unfold Discovery.configuredTestTypes, Discovery.testFilters in Hty.
    simpl in Hty. destruct Hty as [<-|[<-|[<-|[<-|[<-|[<-|[]]]]]]].
    - left. eapply Hre. exact Hp.
    - left. eapply Hre. exact Hp.
    - by rewrite bool_decide_eq_true_2 in Hne.
    - right; left. exact Hp.
    - right; right; left. exact Hp.
    - right; right; right. exact Hp. }
  split; [exact Hfirst|].
  intros Hdirs.
  assert (Hno : Discovery.hasIsolatedTests testNames = false).
  { destruct (Discovery.hasIsolatedTests testNames) eqn:Hiso; [|done].
    destruct (Hfirst eq_refl) as (test & Hin & Hpre).
    destruct (Hdirs test Hin) as (dir & Hdir & Hstarts).
    repeat (apply elem_of_cons in Hdir as [->|Hdir]);
      [..|by apply elem_of_nil in Hdir];
      destruct Hpre as [Hp|[Hp|[Hp|Hp]]];
      destruct (startsWith_clash _ _ _ Hstarts Hp) as [Hc|Hc];
      by vm_compute in Hc. }
  split; [exact Hno|].
  unfold Discovery.createsInstall. rewrite Hno. simpl.
  by rewrite andb_false_r.
Qed.

Lemma isolated_tests_need_doubled_prefix_witness :
  Discovery.hasIsolatedTests (H := Plain.regex)
    ["test/e2e/app-dir/app/index.test.ts"; "test/production/export/index.test.ts"]%string
  = false ∧
  Discovery.createsInstall (H := Plain.regex) "linux" None None
    ["test/e2e/app-dir/app/index.test.ts"; "test/production/export/index.test.ts"]%string
  = false.
Proof.
  refine (proj2 (isolated_tests_need_doubled_prefix (H := Plain.regex) "linux" None _ _) _).
  - intros source. reflexivity.
  - intros test Hin.
    apply elem_of_cons in Hin as [->|Hin]; [|apply elem_of_cons in Hin as [->|Hin]].
    + exists "test/e2e/"%string. split; [by left|reflexivity].
    + exists "test/production/"%string. split; [do 2 right; by left|reflexivity].
    + by apply elem_of_nil in Hin.
Defined.

(** ** Further properties of the retry loop *)

Lemma tries_made_first_success o fuel i k :
  (i ≤ k)%nat → (k < i + fuel)%nat →
  Runner.exit_failed (Runner.code (o k)) (Runner.signal (o k)) = false →
  (∀ j, (i ≤ j < k)%nat →
        Runner.exit_failed (Runner.code (o j)) (Runner.signal (o j)) = true) →
  (i + Runner.tries_made o fuel i = S k)%nat.
Proof.
  revert i. induction fuel as [|fuel IH]; intros i Hik Hk Hpass Hfail; [lia|].
  simpl. destruct (decide (i = k)) as [->|Hne].
  - rewrite Hpass. lia.
  - rewrite Hfail by lia. specialize (IH (S i) ltac:(lia) ltac:(lia) Hpass).
    rewrite <- IH; [lia|]. intros j Hj. apply Hfail. lia.
Qed.

(** X11: what a callback does is decided by the first attempt that exits
    with code 0 and no signal.  If attempt [k] within the budget is the
    first such, the test has passed after exactly [k+1] spawns, one timing
    is pushed (that of attempt [k]), nothing is logged as failed and
    [cleanUpAndExit] is not called.  If all attempts of the budget fail,
    there are [numRetries+1] spawns, no timing, the test is logged as
    failed once, and [cleanUpAndExit(1)] is called unless tests continue
    on error. *)
Theorem outcome_is_the_first_success `{Runner.Path} (cfg : Runner.config)
  (dirSema : option string) (test : string) (o : Runner.oracle) :
  let n := Runner.numRetries cfg test in
  let trace := Runner.worker cfg dirSema test o in
  let failed i := Runner.exit_failed (Runner.code (Runner.tries o i))
                                     (Runner.signal (Runner.tries o i)) in
  (∀ k, (k ≤ n)%nat → failed k = false → (∀ j, (j < k)%nat → failed j = true) →
     (Runner.retry_loop cfg test o).2 = true ∧
     length (Runner.spawned trace) = S k ∧
     Timings.pushed trace = [(test, Runner.elapsed (Runner.tries o k))] ∧
     Runner.marked_failed trace = [] ∧
     Sched.exit_calls trace = []) ∧
  ((∀ j, (j ≤ n)%nat → failed j = true) →
     (Runner.retry_loop cfg test o).2 = false ∧
     length (Runner.spawned trace) = S n ∧
     Timings.pushed trace = [] ∧
     Runner.marked_failed trace = [(test, n)] ∧
     Sched.exit_calls trace
     = if Runner.shouldContinueTestsOnError cfg then [] else [1]).
Proof.
  intros n trace failed. subst trace failed.
  rewrite made_worker, pushed_worker, marked_failed_worker, exit_calls_worker.
  cbv beta. split.
  - intros k Hk Hpass Hfail.
    assert (Hmade : Runner.tries_made (Runner.tries o) (S n) 0 = S k).
    { apply (tries_made_first_success (Runner.tries o) (S n) 0 k);
        [lia|lia|done|]. intros j Hj. apply Hfail. lia. }
    assert (Hpassed : (Runner.retry_loop cfg test o).2 = true).
    { destruct (Runner.retry_loop cfg test o).2 eqn:Hp; [done|].
      unfold Runner.retry_loop in Hp.
      rewrite attempts_passed in Hp.
      specialize (Hp k ltac:(subst n; lia)). congruence. }
    subst n. rewrite Hpassed, Hmade. split_and!; try done.
    rewrite seq_S, fmap_app, concat_app. simpl.
    rewrite Hpass. simpl.
    rewrite concat_all_nil; [done|].
    intros j [_ Hj]%elem_of_seq. by rewrite (Hfail j) by lia.
  - intros Hall.
    assert (Hpassed : (Runner.retry_loop cfg test o).2 = false).
    { unfold Runner.retry_loop. rewrite attempts_passed.
      intros j Hj. apply Hall. subst n. lia. }
    subst n. rewrite Hpassed.
    rewrite (attempts_failed_made _ _ _ _ _ _ _ Hpassed).
    split_and!; try done.
    apply concat_all_nil. intros j [_ Hj]%elem_of_seq.
    by rewrite (Hall j) by lia.
Qed.

Lemma replace_char_injective from to s1 s2 :
  Discovery.has_char to s1 = false → Discovery.has_char to s2 = false →
  Discovery.replace_char from to s1 = Discovery.replace_char from to s2 →
  s1 = s2.
Proof.
  revert s2. induction s1 as [|c s1 IH]; intros [|d s2]; simpl; try done.
  intros [Hc H1]%orb_false_iff [Hd H2]%orb_false_iff [= Hhead Htail].
  f_equal; [|by apply IH].
  destruct (Ascii.eqb_spec c from) as [->|Hcf], (Ascii.eqb_spec d from) as [->|Hdf];
    try done.
  - subst d. by rewrite Ascii.eqb_refl in Hd.
  - subst c. by rewrite Ascii.eqb_refl in Hc.
Qed.

(** X12: the number of attempts a test gets follows from the platform and
    from [--type]: at most three, at most two off Windows, and exactly one
    for [--type unit], whose single attempt is spawned as the final run. *)
Theorem attempts_by_platform_and_type `{Runner.Path} (cfg : Runner.config)
  (dirSema : option string) (test : string) (o : Runner.oracle)
  (platform : string) (testType : option string) :
  Runner.originalRetries cfg = Options.numRetries platform testType →
  let runs := Runner.spawned (Runner.worker cfg dirSema test o) in
  (1 ≤ length runs ≤ 3)%nat ∧
  (platform ≠ "win32"%string → (length runs ≤ 2)%nat) ∧
  (testType = Some "unit"%string →
   runs = [(test, true, Runner.shouldSkipRetries cfg test)]).
Proof.
  intros Horig runs. subst runs.
  assert (Hn : (Runner.numRetries cfg test ≤ Options.numRetries platform testType)%nat).
  { unfold Runner.numRetries. rewrite Horig. case_match; lia. }
  pose proof (tries_made_le (Runner.tries o) (S (Runner.numRetries cfg test)) 0) as Hle.
  pose proof (tries_made_pos (Runner.tries o) (S (Runner.numRetries cfg test)) 0
                ltac:(lia)) as Hpos.
  split; [|split].
  - rewrite made_worker.
    assert (Options.numRetries platform testType ≤ 2)%nat; [|lia].
    unfold Options.numRetries, Options.DEFAULT_NUM_RETRIES. repeat case_match; lia.
  - intros Hplat. rewrite made_worker.
    assert (Options.numRetries platform testType ≤ 1)%nat; [|lia].
    unfold Options.numRetries, Options.DEFAULT_NUM_RETRIES.
    destruct (String.eqb_spec platform "win32"); [done|]. repeat case_match; lia.
  - intros ->. simpl in Hn.
    assert (Hz : Runner.numRetries cfg test = 0%nat) by lia.
    rewrite spawned_worker.
    assert (Runner.tries_made (Runner.tries o) (S (Runner.numRetries cfg test)) 0
            = 1%nat) as -> by lia.
    simpl. rewrite Hz. simpl. by rewrite orb_true_r, orb_false_r.
Qed.

Lemma attempts_by_platform_and_type_witness :
  let runs := Runner.spawned
                (Runner.worker (H := Runner.posix_path) (Example.cfg false) None
                   "test/unit/a.test.js" Example.always_fails) in
  (1 ≤ length runs ≤ 3)%nat ∧
  ("linux"%string ≠ "win32"%string → (length runs ≤ 2)%nat) ∧
  (@None string = Some "unit"%string →
   runs = [("test/unit/a.test.js"%string, true,
            Runner.shouldSkipRetries (Example.cfg false) "test/unit/a.test.js")]).
Proof.
  apply (attempts_by_platform_and_type (H := Runner.posix_path) (Example.cfg false)
           None "test/unit/a.test.js" Example.always_fails "linux" None).
  reflexivity.
Defined.

(** X13: the JUnit output name of a test is defined for every non-empty
    test name, has the length of the name and no slash; it tells apart any
    two names that have no underscore, but not a slash from an underscore:
    [test/a/b.test.js] and [test/a_b.test.js] get the same one. *)
Theorem junit_output_name_of_test (test : string) :
  (test ≠ ""%string →
   ∃ name, Options.JEST_JUNIT_OUTPUT_NAME test = Some name ∧
           String.length name = String.length test ∧
           Discovery.has_char "/"%char name = false) ∧
  (Options.JEST_JUNIT_OUTPUT_NAME ""%string = None) ∧
  (∀ other, Discovery.has_char "_"%char test = false →
            Discovery.has_char "_"%char other = false →
            Options.JEST_JUNIT_OUTPUT_NAME test = Options.JEST_JUNIT_OUTPUT_NAME other →
            test = other) ∧
  Options.JEST_JUNIT_OUTPUT_NAME "test/a/b.test.js"
  = Options.JEST_JUNIT_OUTPUT_NAME "test/a_b.test.js".
Proof.
  split_and!.
  - intros Hne. destruct test as [|c s]; [done|].
    eexists. split; [reflexivity|]. split.
    + apply replace_char_length.
    + by apply replace_char_clean.
  - done.
  - intros other Ht Ho. unfold Options.JEST_JUNIT_OUTPUT_NAME.
    destruct test as [|c s], other as [|d s']; simpl; try done.
    intros [= Hh Ht']. simpl in Ht, Ho.
    apply (replace_char_injective "/"%char "_"%char (String c s) (String d s'));
      [done|done|]. simpl. by rewrite Hh, Ht'.
  - reflexivity.
Qed.

(** ** Further properties of the timing ledger *)

Lemma prune_fold `{Runner.Path} (cfg : Runner.config) (pathExists : string → bool)
  (keys : list string) (m : gmap string Q) (file : string) :
  fold_left (λ m test,
               if pathExists (Runner.path_join (Runner.dirname__ cfg) test) then m
               else delete test m) keys m !! file
  = if bool_decide (file ∈ keys)
       && negb (pathExists (Runner.path_join (Runner.dirname__ cfg) file))
    then None else m !! file.
Proof.
  revert m. induction keys as [|k keys IH]; intros m; simpl; [done|].
  rewrite IH. destruct (decide (file = k)) as [->|Hne].
  - rewrite (bool_decide_eq_true_2 (k ∈ k :: keys)) by left. simpl.
    destruct (pathExists _) eqn:Hex; simpl.
    + by rewrite andb_false_r.
    + rewrite andb_true_r, lookup_delete_eq. by destruct (bool_decide _).
  - assert (Hiff : bool_decide (file ∈ k :: keys) = bool_decide (file ∈ keys)).
    { apply bool_decide_ext. rewrite elem_of_cons. split; [by intros [?|?]|by right]. }
    rewrite Hiff. destruct (pathExists (Runner.path_join _ k)); [done|].
    by rewrite lookup_delete_ne.
Qed.

(** X14: the ledger that is published holds no entry for a file that no
    longer exists, not even one recorded in this run; for a file that
    exists it holds the duration of the last attempt recorded for it in
    this run, in seconds, and otherwise the entry of the fetched ledger. *)
Theorem published_ledger_drops_stale_entries `{Runner.Path} (cfg : Runner.config)
  (pathExists : string → bool) (fetched : gmap string Q)
  (timings : list (string * Z)) (file : string) :
  let there := pathExists (Runner.path_join (Runner.dirname__ cfg) file) in
  let ledger := Publish.published cfg pathExists fetched timings in
  (there = false → ledger !! file = None) ∧
  (there = true →
   (∀ before time after,
      timings = before ++ (file, time) :: after → file ∉ after.*1 →
      ledger !! file = Some (Timings.timeInSeconds time)) ∧
   (file ∉ timings.*1 → ledger !! file = fetched !! file)).
Proof.
  intros there ledger.
  assert (Hl : ledger !! file
               = if there
                 then Timings.newTimings fetched (Timings.curTimings timings) !! file
                 else None).
  { subst ledger there. unfold Publish.published, Publish.prune.
    rewrite prune_fold. destruct (pathExists _) eqn:Hex; simpl.
    - by rewrite andb_false_r.
    - rewrite andb_true_r. case_bool_decide as Hin; [done|].
      apply not_elem_of_dom. intros Hdom. apply Hin.
      apply elem_of_dom in Hdom as [q Hq].
      apply list_elem_of_fmap. exists (file, q). split; [done|].
      by apply elem_of_map_to_list. }
  rewrite Hl. split.
  - by intros ->.
  - intros ->. split.
    + intros before time after -> Hnot. unfold Timings.newTimings.
      apply lookup_union_Some_l. by apply ledger_last_write.
    + intros Hnot. unfold Timings.newTimings. rewrite lookup_union_r; [done|].
      unfold Timings.curTimings. by rewrite ledger_keeps.
Qed.

(** ** Further properties of the running system *)

Section PermitFacts.
Import Runner Sched Permits.
Context `{Path}.

Lemma holders_insert s (l : list thread) i t t' :
  l !! i = Some t →
  (length (base.filter (λ t, holds s t = true) (<[i:=t']> l))
   + (if holds s t then 1 else 0)
   = length (base.filter (λ t, holds s t = true) l)
     + (if holds s t' then 1 else 0))%nat.
Proof.
  intros Hi. assert (Hlt : (i < length l)%nat) by by eapply lookup_lt_Some.
  rewrite insert_take_drop by done.
  rewrite <- (take_drop_middle l i t Hi) at 3.
  rewrite !list.filter_app, !list.filter_cons, !length_app.
  destruct (holds s t) eqn:Ht, (holds s t') eqn:Ht';
    repeat case_decide; simpl; try done; lia.
Qed.

Lemma remaining_insert (l : list thread) i t t' :
  l !! i = Some t →
  (sum_list_with (λ t, length (future t)) (<[i:=t']> l) + length (future t)
   = sum_list_with (λ t, length (future t)) l + length (future t'))%nat.
Proof.
  intros Hi. assert (Hlt : (i < length l)%nat) by by eapply lookup_lt_Some.
  rewrite insert_take_drop by done.
  rewrite <- (take_drop_middle l i t Hi) at 3.
  rewrite !sum_list_with_app. simpl. lia.
Qed.

Lemma filter_length_pos {A} (P : A → Prop) `{!∀ x, Decision (P x)} (l : list A) :
  (0 < length (base.filter P l))%nat → ∃ i x, l !! i = Some x ∧ P x.
Proof.
  destruct (base.filter P l) as [|x k] eqn:Hf; simpl; [lia|]. intros _.
  assert (Hx : x ∈ base.filter P l) by (rewrite Hf; left).
  apply list_elem_of_filter in Hx as [HP [i Hi]%list_elem_of_lookup].
  by exists i, x.
Qed.

Lemma filter_length_zero {A} (P : A → Prop) `{!∀ x, Decision (P x)} (l : list A) :
  (∀ x, x ∈ l → ¬ P x) → length (base.filter P l) = 0%nat.
Proof. intros Hall. by rewrite filter_none. Qed.

Lemma forallb_false_lookup {A} (f : A → bool) (l : list A) :
  forallb f l = false → ∃ i x, l !! i = Some x ∧ f x = false.
Proof.
  induction l as [|x l IH]; simpl; [done|].
  destruct (f x) eqn:Hx; simpl.
  - intros (i & y & Hy & Hf)%IH. by exists (S i), y.
  - intros _. by exists 0%nat, x.
Qed.

(** *** Where a callback stands in its program *)

Lemma prefix_obeys cfg d test o l1 l2 :
  worker cfg d test o = l1 ++ l2 → obeys d (hideOutput cfg) idle l1 = true.
Proof.
  intros Hsplit. pose proof (worker_obeys cfg d test o) as Hob.
  rewrite Hsplit, obeys_app in Hob. by apply andb_true_iff in Hob as [? _].
Qed.

Lemma next_acquire_not_held cfg d test o l1 s l2 :
  worker cfg d test o = l1 ++ Acquire s :: l2 → held s l1 = false.
Proof.
  intros Hsplit. destruct (discipline_at _ _ _ _ _ _ _ Hsplit) as [Hal _].
  destruct s as [| |x]; simpl in Hal.
  - apply andb_true_iff in Hal as [Hg _]. rewrite after_global in Hg.
    by apply negb_true_iff in Hg.
  - rewrite after_output in Hal. by apply negb_true_iff in Hal.
  - apply andb_true_iff in Hal as [[Hd Hheld]%andb_true_iff _].
    apply bool_decide_eq_true in Hd. subst d. rewrite after_dir in Hheld.
    by apply negb_true_iff in Hheld.
Qed.

Lemma next_release_held cfg d test o l1 s l2 :
  worker cfg d test o = l1 ++ Release s :: l2 → held s l1 = true.
Proof.
  intros Hsplit. destruct (decide (s = Global)) as [->|Hs];
    [|by eapply release_only_held].
  destruct (discipline_at _ _ _ _ _ _ _ Hsplit) as [Hal _].
  simpl in Hal. by rewrite after_global in Hal.
Qed.

Lemma after_worker cfg d test o : after d idle (worker cfg d test o) = idle.
Proof.
  unfold worker. destruct d as [x|].
  - rewrite after_app. simpl. rewrite decide_True by done. simpl.
    destruct (neutral_body (Some x) cfg test o (Holding true true false)
                eq_refl eq_refl) as [_ Haf].
    rewrite after_app, Haf. simpl. by rewrite decide_True.
  - rewrite after_app. simpl.
    destruct (neutral_body None cfg test o (Holding false true false)
                eq_refl eq_refl) as [_ Haf].
    by rewrite after_app, Haf.
Qed.

Lemma holder_of_dir cfg d test o l1 l2 x :
  worker cfg d test o = l1 ++ l2 → held (Directory x) l1 = true → d = Some x.
Proof.
  intros Hsplit Hheld. destruct (decide (d = Some x)) as [|Hne]; [done|].
  pose proof (prefix_obeys _ _ _ _ _ _ Hsplit) as Hob.
  unfold held in Hheld.
  by rewrite (foreign_dir_untouched d _ idle l1 x false Hne Hob) in Hheld.
Qed.

Lemma worker_done_holds_nothing cfg d test o s :
  held s (worker cfg d test o) = false.
Proof.
  pose proof (after_worker cfg d test o) as Haf.
  destruct s as [| |x]; unfold held.
  - change false with (holds_global idle) at 1.
    rewrite <- after_global with (d := d). by rewrite Haf.
  - change false with (holds_output idle) at 1.
    rewrite <- after_output with (d := d). by rewrite Haf.
  - destruct (decide (d = Some x)) as [->|Hne].
    + change false with (holds_dir idle) at 1. rewrite <- after_dir. by rewrite Haf.
    + eapply foreign_dir_untouched; [done|apply worker_obeys].
Qed.

Lemma held_from_keeps s b (l : list action) :
  Forall (λ a, a ≠ Acquire s ∧ a ≠ Release s) l → held_from s b l = b.
Proof.
  revert b. induction l as [|a l IH]; intros b Hall; [done|].
  inversion Hall as [|? ? [Ha Hr] Hl]; subst.
  destruct a as [s'|s'| | | | | | | | | |]; simpl; try (by apply IH).
  - rewrite decide_False by congruence. by apply IH.
  - rewrite decide_False by congruence. by apply IH.
Qed.

(** The output permit is only held while a permit of [sema] is. *)
Lemma output_within_global cfg d test o l1 l2 :
  worker cfg d test o = l1 ++ l2 → held Output l1 = true → held Global l1 = true.
Proof.
  intros Hsplit Hout.
  set (pre := match d with
              | Some x => [Acquire (Directory x); Acquire Global]
              | None => [Acquire Global]
              end).
  set (post := match d with
               | Some x => [Release Global; Release (Directory x)]
               | None => [Release Global]
               end).
  assert (Hw : worker cfg d test o = pre ++ body cfg test o ++ post)
    by (unfold worker; by destruct d).
  assert (Hpre : held Global pre = true ∧ held Output pre = false).
  { subst pre. destruct d; by vm_compute. }
  assert (Hbody : held Output (pre ++ body cfg test o) = false).
  { unfold held. rewrite held_from_app. fold (held Output pre).
    rewrite (proj2 Hpre).
    destruct (neutral_body d cfg test o (Holding false true false)
                eq_refl eq_refl) as [_ Haf].
    change false with (holds_output (Holding false true false)) at 1.
    rewrite <- after_output with (d := d). by rewrite Haf. }
  rewrite Hw in Hsplit. symmetry in Hsplit.
  apply app_eq_inv in Hsplit as [(k & -> & Hk)|(k & Hk & Hl2)].
  - (* past the prologue *)
    symmetry in Hk.
    apply app_eq_inv in Hk as [(k' & -> & Hk')|(k' & Hk' & Hl2)].
    + (* past the body: only releases of other permits follow *)
      exfalso. unfold held in Hout.
      rewrite app_assoc, held_from_app in Hout. fold (held Output (pre ++ body cfg test o)) in Hout.
      rewrite Hbody in Hout.
      rewrite held_from_keeps in Hout; [done|].
      assert (Hall : Forall (λ a, a ≠ Acquire Output ∧ a ≠ Release Output) post).
      { subst post. destruct d; by repeat constructor. }
      rewrite Hk' in Hall. by apply Forall_app in Hall as [? _].
    + (* inside the body *)
      unfold held. rewrite held_from_app. fold (held Global pre).
      rewrite (proj1 Hpre). apply held_from_keeps.
      pose proof (body_keeps_to_output cfg test o) as Hkeep.
      rewrite Hk' in Hkeep. apply Forall_app in Hkeep as [Hkeep _].
      eapply Forall_impl; [|exact Hkeep].
      intros a Ha. destruct a; simpl in Ha; split; congruence.
  - (* inside the prologue *)
    exfalso. subst pre. destruct d as [x|].
    + destruct l1 as [|a1 [|a2 [|a3 l1]]]; simplify_eq/=; by vm_compute in Hout.
    + destruct l1 as [|a1 [|a2 l1]]; simplify_eq/=; by vm_compute in Hout.
Qed.

End PermitFacts.

Section RunFacts.
Import Runner Sched Permits.
Context `{Path}.

(** The program of callback [i], split where the callback stands. *)
Lemma thread_position cfg jobs σ i t :
  follows (programs cfg jobs) σ → threads σ !! i = Some t →
  ∃ d test o, jobs !! i = Some (test, o)
              ∧ worker cfg d test o = past t ++ future t.
Proof.
  intros [_ Hat] Ht.
  destruct (programs_lookup cfg jobs i _ (Hat i t Ht))
    as (d & test & o & Hjob & Hw & _).
  by exists d, test, o.
Qed.

Lemma unfinished_thread cfg jobs σ i t s :
  follows (programs cfg jobs) σ → threads σ !! i = Some t →
  holds s t = true → future t ≠ [].
Proof.
  intros Hfol Ht Hheld Hnil.
  destruct (thread_position cfg jobs σ i t Hfol Ht) as (d & test & o & _ & Hw).
  rewrite Hnil, app_nil_r in Hw. unfold holds in Hheld.
  by rewrite <- Hw, worker_done_holds_nothing in Hheld.
Qed.

Lemma holders_boot cfg progs s : holders s (boot cfg progs) = 0%nat.
Proof.
  unfold holders. apply filter_length_zero.
  intros t (p & -> & _)%list_elem_of_fmap. done.
Qed.

Lemma conserved_fire cfg jobs σ i σ' :
  follows (programs cfg jobs) σ → fire σ i = Some σ' →
  ∀ s, (free σ' s + holders s σ' = free σ s + holders s σ)%nat.
Proof.
  intros Hfol Hfire s.
  destruct (fire_inv _ _ _ Hfire) as (t & a & rest & Ht & Hfut & Hth & _ & Hfree).
  destruct (thread_position cfg jobs σ i t Hfol Ht) as (d & test & o & _ & Hw).
  rewrite Hfut in Hw.
  pose proof (holders_insert s (threads σ) i t (Thread (past t ++ [a]) rest) Ht)
    as Hcount.
  unfold holders. rewrite Hth.
  assert (Hh : holds s (Thread (past t ++ [a]) rest)
               = match a with
                 | Acquire s' => if decide (s' = s) then true else holds s t
                 | Release s' => if decide (s' = s) then false else holds s t
                 | _ => holds s t
                 end) by apply held_snoc.
  rewrite Hh in Hcount. clear Hh.
  destruct a as [s'|s'| | | | | | | | | |];
    try (rewrite Hfree; destruct (holds s t); lia).
  - destruct Hfree as [Hpos ->]. destruct (decide (s' = s)) as [->|Hne].
    + rewrite fn_lookup_insert.
      assert (holds s t = false) as Hno by by eapply next_acquire_not_held.
      rewrite Hno in Hcount. lia.
    + rewrite fn_lookup_insert_ne by done. destruct (holds s t); lia.
  - rewrite Hfree. destruct (decide (s' = s)) as [->|Hne].
    + rewrite fn_lookup_insert.
      assert (holds s t = true) as Hyes by by eapply next_release_held.
      rewrite Hyes in Hcount. lia.
    + rewrite fn_lookup_insert_ne by done. destruct (holds s t); lia.
Qed.

Lemma conserved_reachable cfg jobs σ :
  reachable cfg (programs cfg jobs) σ →
  ∀ s, (free σ s + holders s σ = capacity cfg s)%nat.
Proof.
  intros Hreach.
  assert (Hboth : follows (programs cfg jobs) σ
                  ∧ ∀ s, (free σ s + holders s σ = capacity cfg s)%nat);
    [|by destruct Hboth].
  revert Hreach. unfold reachable.
  apply (rtc_ind_r (λ σ, follows (programs cfg jobs) σ
                         ∧ ∀ s, (free σ s + holders s σ = capacity cfg s)%nat)).
  - split.
    + split; simpl; [by rewrite length_fmap|].
      by intros i t (p & -> & Hp)%list_lookup_fmap_Some.
    + intros s. rewrite holders_boot. simpl. lia.
  - intros σ1 σ2 _ [i Hfire] [Hfol Hcons]. split; [by eapply follows_fire|].
    intros s. rewrite (conserved_fire cfg jobs σ1 i σ2 Hfol Hfire s). apply Hcons.
Qed.

Lemma holder_exists cfg jobs σ s :
  reachable cfg (programs cfg jobs) σ → (0 < capacity cfg s)%nat →
  free σ s = 0%nat → ∃ i t, threads σ !! i = Some t ∧ holds s t = true.
Proof.
  intros Hreach Hcap Hfree.
  pose proof (conserved_reachable cfg jobs σ Hreach s) as Hcons.
  apply (filter_length_pos (λ t, holds s t = true)). fold (holders s σ). lia.
Qed.

Lemma fire_enabled σ i t a rest :
  threads σ !! i = Some t → future t = a :: rest →
  (∀ s, a = Acquire s → (0 < free σ s)%nat) → ∃ σ', fire σ i = Some σ'.
Proof.
  intros Ht Hfut Hacq. unfold fire. rewrite Ht. simpl. rewrite Hfut.
  destruct a as [s| | | | | | | | | | |]; try by eexists.
  rewrite decide_True by by apply Hacq. by eexists.
Qed.

(** Some callback can take its next step, unless all are done. *)
Lemma progress_step cfg jobs σ :
  (0 < concurrency cfg)%nat → reachable cfg (programs cfg jobs) σ →
  finished σ = false → ∃ i σ', fire σ i = Some σ'.
Proof.
  intros Hconc Hreach Hfin.
  destruct (reachable_invariant cfg jobs σ Hreach) as (Hfol & _ & _).
  (* a callback that holds the output permit is not waiting *)
  destruct (decide (free σ Output = 0%nat)) as [Hout|Hout].
  { destruct (holder_exists cfg jobs σ Output Hreach ltac:(simpl; lia) Hout)
      as (i & t & Ht & Hheld).
    destruct (future t) as [|a rest] eqn:Hfut;
      [by destruct (unfinished_thread cfg jobs σ i t Output Hfol Ht Hheld)|].
    exists i. eapply fire_enabled; [done|done|]. intros s ->. exfalso.
    destruct (thread_position cfg jobs σ i t Hfol Ht) as (d & test & o & _ & Hw).
    rewrite Hfut in Hw.
    pose proof (output_within_global _ _ _ _ _ _ Hw Hheld) as Hglob.
    destruct (discipline_at _ _ _ _ _ _ _ Hw) as [Hal _].
    unfold holds, held in Hheld.
    unfold held in Hglob.
    destruct s as [| |x]; simpl in Hal;
      rewrite ?after_global, ?after_output in Hal;
      change (holds_global idle) with false in Hal;
      change (holds_output idle) with false in Hal;
      rewrite ?Hglob, ?Hheld in Hal; simpl in Hal;
      rewrite ?andb_false_r in Hal; done. }
  (* a callback that holds a permit of [sema] waits for the output permit
     at most *)
  destruct (decide (free σ Global = 0%nat)) as [Hglob|Hglob].
  { destruct (holder_exists cfg jobs σ Global Hreach ltac:(simpl; lia) Hglob)
      as (i & t & Ht & Hheld).
    destruct (future t) as [|a rest] eqn:Hfut;
      [by destruct (unfinished_thread cfg jobs σ i t Global Hfol Ht Hheld)|].
    exists i. eapply fire_enabled; [done|done|]. intros s ->.
    destruct (thread_position cfg jobs σ i t Hfol Ht) as (d & test & o & _ & Hw).
    rewrite Hfut in Hw.
    destruct (discipline_at _ _ _ _ _ _ _ Hw) as [Hal _].
    unfold holds, held in Hheld.
    destruct s as [| |x]; simpl in Hal; [| lia |];
      rewrite ?after_global in Hal;
      change (holds_global idle) with false in Hal;
      rewrite ?Hheld in Hal; simpl in Hal; rewrite ?andb_false_r in Hal; done. }
  (* otherwise only the permit of a directory can be missing *)
  unfold finished in Hfin.
  apply forallb_false_lookup in Hfin as (i & t & Ht & Hfut).
  apply bool_decide_eq_false in Hfut.
  destruct (future t) as [|a rest] eqn:Hfut'; [done|].
  assert (Hcases : (∀ s, a = Acquire s → (0 < free σ s)%nat)
                   ∨ ∃ x, a = Acquire (Directory x) ∧ free σ (Directory x) = 0%nat).
  { destruct a as [[| |x]| | | | | | | | | | |];
      try (left; intros s' Hs'; simplify_eq; lia).
    destruct (decide (free σ (Directory x) = 0%nat)) as [Hz|Hnz].
    - right. by exists x.
    - left. intros s' Hs'. simplify_eq. lia. }
  destruct Hcases as [Hok|Hdir]; [exists i; by eapply fire_enabled|].
  destruct Hdir as (x & -> & Hfree).
  destruct (holder_exists cfg jobs σ (Directory x) Hreach ltac:(simpl; lia) Hfree)
    as (j & t' & Ht' & Hheld).
  destruct (future t') as [|a rest'] eqn:Hfutj;
    [by destruct (unfinished_thread cfg jobs σ j t' (Directory x) Hfol Ht' Hheld)|].
  exists j. eapply fire_enabled; [done|done|]. intros s ->.
  destruct (thread_position cfg jobs σ j t' Hfol Ht') as (d & test & o & _ & Hw).
  rewrite Hfutj in Hw.
  assert (d = Some x) as ->.
  { eapply holder_of_dir; [exact Hw|exact Hheld]. }
  destruct (discipline_at _ _ _ _ _ _ _ Hw) as [Hal _].
  unfold holds, held in Hheld.
  destruct s as [| |y]; simpl in Hal; [lia|lia|].
  apply andb_true_iff in Hal as [[Hd Hnot]%andb_true_iff _].
  apply bool_decide_eq_true in Hd. injection Hd as <-.
  rewrite after_dir in Hnot. change (holds_dir idle) with false in Hnot.
  by rewrite Hheld in Hnot.
Qed.

Lemma remaining_fire σ i σ' :
  fire σ i = Some σ' → (remaining σ' + 1 = remaining σ)%nat.
Proof.
  intros Hfire.
  destruct (fire_inv _ _ _ Hfire) as (t & a & rest & Ht & Hfut & Hth & _ & _).
  pose proof (remaining_insert (threads σ) i t (Thread (past t ++ [a]) rest) Ht)
    as Hsum.
  unfold remaining. rewrite Hth. rewrite Hfut in Hsum. simpl in Hsum. lia.
Qed.

Lemma remaining_run schedule σ σ' :
  run_schedule schedule σ = Some σ' →
  (length schedule + remaining σ' = remaining σ)%nat.
Proof.
  revert σ. induction schedule as [|i l IH]; intros σ; simpl.
  - by intros [= ->].
  - destruct (fire σ i) as [σ1|] eqn:Hfire; [|done]. simpl. intros Hrun.
    pose proof (remaining_fire _ _ _ Hfire). specialize (IH _ Hrun). lia.
Qed.

Lemma completion cfg jobs n σ :
  (0 < concurrency cfg)%nat → reachable cfg (programs cfg jobs) σ →
  remaining σ = n →
  ∃ schedule σ', run_schedule schedule σ = Some σ' ∧ finished σ' = true.
Proof.
  intros Hconc. revert σ. induction n as [|n IH]; intros σ Hreach Hrem.
  - destruct (finished σ) eqn:Hfin; [by exists [], σ|].
    destruct (progress_step cfg jobs σ Hconc Hreach Hfin) as (i & σ1 & Hfire).
    pose proof (remaining_fire _ _ _ Hfire). lia.
  - destruct (finished σ) eqn:Hfin; [by exists [], σ|].
    destruct (progress_step cfg jobs σ Hconc Hreach Hfin) as (i & σ1 & Hfire).
    pose proof (remaining_fire _ _ _ Hfire).
    destruct (IH σ1) as (schedule & σ' & Hrun & Hdone); [|lia|].
    { eapply rtc_r; [exact Hreach|by exists i]. }
    exists (i :: schedule), σ'. simpl. rewrite Hfire. simpl. done.
Qed.

Lemma final_reachable (continue : bool) :
  reachable (Example.cfg continue)
    (programs (H := posix_path) (Example.cfg continue) Example.jobs)
    (Example.final continue).
Proof.
  unfold Example.final, reachable.
  destruct (run_schedule _ _) as [σ|] eqn:Hrun; simpl.
  - by eapply run_schedule_reachable.
  - apply rtc_refl.
Qed.

End RunFacts.

(** ** What the specification states about the exit code *)

Section ExitFacts.
Import Runner Sched.
Context `{Path}.

Lemma stuck_spec σ : stuck σ = true ↔ ∀ i, fire σ i = None.
Proof.
  unfold stuck. rewrite forallb_forall. split.
  - intros Hall i. destruct (decide (i < length (threads σ))%nat) as [Hi|Hi].
    + specialize (Hall i). destruct (fire σ i); [|done].
      discriminate Hall. apply in_seq. lia.
    + unfold fire. by rewrite lookup_ge_None_2 by lia.
  - intros Hall i _. by rewrite Hall.
Qed.

Lemma first_armed_in_order (calls : list exit_call) :
  first_armed false calls = exit_status <$> take 1 calls.
Proof. by destruct calls. Qed.

Lemma first_armed_racing cleanup (codes : list Z) (later : list exit_call) :
  first_armed cleanup (((λ c, ExitCall c false) <$> codes) ++ later)
  = if cleanup then codes ++ first_armed cleanup later
    else match codes with
         | c :: _ => [c]
         | [] => first_armed cleanup later
         end.
Proof.
  destruct cleanup.
  - induction codes as [|c codes IH]; [done|]. rewrite fmap_cons.
    cbn [app first_armed exit_status awaited negb andb]. by rewrite IH.
  - by destruct codes.
Qed.

(** The codes possible with tests selected and no early call. *)
Lemma exit_codes_running cleanup jobs σ :
  jobs ≠ [] →
  exit_codes cleanup None jobs σ
  = match exit_calls (snd <$> events σ), finished σ with
    | [], true => [0]
    | [], false => if stuck σ then [0] else []
    | c :: made, done =>
        if cleanup then c :: made ++ (if done then [0] else []) else [c]
    end.
Proof.
  intros Hne. unfold exit_codes, calls. destruct jobs as [|job jobs]; [done|].
  cbn [app]. destruct (exit_calls (snd <$> events σ)) as [|c made] eqn:Hmade.
  - destruct (finished σ); [|done]. by destruct cleanup.
  - change ((λ c0, ExitCall c0 false) <$> c :: made)
      with (ExitCall c false :: ((λ c0, ExitCall c0 false) <$> made)).
    cbn [app first_armed exit_status awaited negb andb].
    destruct cleanup; [|done]. cbn [andb]. f_equal.
    rewrite first_armed_racing. by destruct (finished σ).
Qed.

Lemma no_exit_call_when_continuing cfg jobs σ :
  reachable cfg (programs cfg jobs) σ →
  shouldContinueTestsOnError cfg = true →
  exit_calls (snd <$> events σ) = [].
Proof.
  intros Hreach Hcont.
  destruct (reachable_invariant cfg jobs σ Hreach) as ([_ Hat] & _ & Hrec).
  destruct (exit_calls (snd <$> events σ)) as [|c made] eqn:Hmade; [done|].
  destruct (proj1 (Hrec c)) as (i & t & Ht & Hc); [rewrite ?Hmade; left|].
  destruct (programs_lookup cfg jobs i _ (Hat i t Ht))
    as (d & test & o & _ & Hw & _).
  assert (Hin : c ∈ exit_calls (worker cfg d test o)).
  { rewrite <- Hw, exit_calls_app, elem_of_app. by left. }
  rewrite exit_calls_worker, Hcont, orb_true_r in Hin.
  by apply elem_of_nil in Hin.
Qed.

Lemma alive_not_stuck cfg jobs σ :
  (0 < concurrency cfg)%nat → reachable cfg (programs cfg jobs) σ →
  finished σ = false → stuck σ = false.
Proof.
  intros Hconc Hreach Hfin. destruct (stuck σ) eqn:Hst; [|done].
  destruct (progress_step cfg jobs σ Hconc Hreach Hfin) as (i & σ' & Hfire).
  by rewrite (proj1 (stuck_spec σ) Hst i) in Hfire.
Qed.

(** With continue-on-error on the process can only exit once all
    callbacks are done, and then with 0. *)
Lemma exit_codes_continuing cleanup cfg jobs σ :
  (0 < concurrency cfg)%nat → reachable cfg (programs cfg jobs) σ →
  jobs ≠ [] → shouldContinueTestsOnError cfg = true →
  exit_codes cleanup None jobs σ = if finished σ then [0] else [].
Proof.
  intros Hconc Hreach Hne Hcont. rewrite exit_codes_running by done.
  rewrite (no_exit_call_when_continuing cfg jobs σ Hreach Hcont).
  destruct (finished σ) eqn:Hfin; [done|].
  by rewrite (alive_not_stuck cfg jobs σ Hconc Hreach Hfin).
Qed.

Lemma run_schedule_from_reachable cfg progs schedule σ σ' :
  reachable cfg progs σ → run_schedule schedule σ = Some σ' →
  reachable cfg progs σ'.
Proof.
  intros Hreach Hrun. unfold reachable.
  etrans; [exact Hreach|by eapply run_schedule_reachable].
Qed.


End ExitFacts.




(** A run whose [sema] has no permit starts no test: once the callbacks
    wait for a permit nothing is left to do, and the process exits with 0. *)
Example no_permit_example :
  let jobs := [("test/unit/a.test.js"%string, Example.always_passes)] in
  let σ := Sched.boot Example.no_permit
             (Runner.programs (H := Runner.posix_path) Example.no_permit jobs) in
  Sched.stuck σ = true ∧ Sched.finished σ = false ∧
  Sched.exit_codes false None jobs σ = [0] ∧
  Sched.exit_codes true None jobs σ = [0].
Proof. by vm_compute. Qed.

(** X15: permits are neither lost nor made up.  In every state the
    callbacks can reach, the permits left in a [Sema] and the callbacks
    holding one add up to what the [Sema] was created with; so at most
    [concurrency] tests are between [sema.acquire()] and [sema.release()]
    at once, and once all callbacks are done every permit is back. *)
Theorem permits_are_conserved `{Runner.Path} (cfg : Runner.config)
  (jobs : list (string * Runner.oracle)) (σ : Sched.sys) :
  Sched.reachable cfg (Runner.programs cfg jobs) σ →
  (∀ s, (Sched.free σ s + Permits.holders s σ = Sched.capacity cfg s)%nat) ∧
  (Permits.holders Runner.Global σ ≤ Runner.concurrency cfg)%nat ∧
  (Sched.finished σ = true → ∀ s, Sched.free σ s = Sched.capacity cfg s).
Proof.
  intros Hreach.
  pose proof (conserved_reachable cfg jobs σ Hreach) as Hcons.
  split_and!.
  - exact Hcons.
  - specialize (Hcons Runner.Global). simpl in Hcons. lia.
  - intros Hfin s.
    destruct (reachable_invariant cfg jobs σ Hreach) as (Hfol & _ & _).
    assert (Hnone : Permits.holders s σ = 0%nat).
    { unfold Permits.holders. apply filter_length_zero.
      intros t [i Ht]%list_elem_of_lookup Hheld.
      destruct (unfinished_thread cfg jobs σ i t s Hfol Ht Hheld).
      by eapply finished_spec. }
    specialize (Hcons s). lia.
Qed.

Lemma permits_are_conserved_witness :
  (∀ s, (Sched.free (Example.final false) s
         + Permits.holders s (Example.final false)
         = Sched.capacity (Example.cfg false) s)%nat) ∧
  (Permits.holders Runner.Global (Example.final false)
   ≤ Runner.concurrency (Example.cfg false))%nat.
Proof.
  pose proof (permits_are_conserved (H := Runner.posix_path) (Example.cfg false)
                Example.jobs (Example.final false) (final_reachable false))
    as (Hcons & Hbound & _).
  exact (conj Hcons Hbound).
Defined.

(** X16: the callbacks never block one another for good.  With at least
    one permit in [sema], in every state they can reach either all
    callbacks are done or one of them can take its next step. *)
Theorem callbacks_never_deadlock `{Runner.Path} (cfg : Runner.config)
  (jobs : list (string * Runner.oracle)) (σ : Sched.sys) :
  (0 < Runner.concurrency cfg)%nat →
  Sched.reachable cfg (Runner.programs cfg jobs) σ →
  Sched.finished σ = true ∨ ∃ i σ', Sched.fire σ i = Some σ'.
Proof.
  intros Hconc Hreach. destruct (Sched.finished σ) eqn:Hfin; [by left|right].
  by eapply progress_step.
Qed.

Lemma callbacks_never_deadlock_witness :
  Sched.finished (Example.final false) = true
  ∨ ∃ i σ', Sched.fire (Example.final false) i = Some σ'.
Proof.
  apply (callbacks_never_deadlock (H := Runner.posix_path) (Example.cfg false)
           Example.jobs (Example.final false)).
  - simpl. lia.
  - apply final_reachable.
Defined.

(** X17: with continue-on-error on, tests selected and at least one permit
    in [sema], the run is not cut short and comes to its end.  Each step
    takes one action off what is left to do; as long as a callback is not
    done the process cannot exit and some callback can take its next step;
    so from every state the callbacks can reach they all get to their end,
    in as many steps as there are actions left, and the process then exits
    with code 0. *)
Theorem every_run_completes `{Runner.Path} (cfg : Runner.config)
  (jobs : list (string * Runner.oracle)) (σ : Sched.sys) (cleanup : bool) :
  (0 < Runner.concurrency cfg)%nat →
  Runner.shouldContinueTestsOnError cfg = true →
  jobs ≠ [] →
  Sched.reachable cfg (Runner.programs cfg jobs) σ →
  (∀ schedule σ', Sched.run_schedule schedule σ = Some σ' →
     (length schedule + Permits.remaining σ' = Permits.remaining σ)%nat ∧
     (Sched.finished σ' = false →
      Sched.exit_codes cleanup None jobs σ' = [] ∧
      ∃ i σ'', Sched.fire σ' i = Some σ'')) ∧
  (∃ schedule σ', Sched.run_schedule schedule σ = Some σ'
                  ∧ Sched.finished σ' = true
                  ∧ length schedule = Permits.remaining σ
                  ∧ Sched.exit_codes cleanup None jobs σ' = [0]).
Proof.
  intros Hconc Hcont Hne Hreach. split.
  - intros schedule σ' Hrun. split; [by apply remaining_run|]. intros Hfin.
    pose proof (run_schedule_from_reachable _ _ _ _ _ Hreach Hrun) as Hreach'.
    split; [|by eapply progress_step].
    by rewrite (exit_codes_continuing cleanup cfg jobs σ') , Hfin.
  - destruct (completion cfg jobs (Permits.remaining σ) σ Hconc Hreach eq_refl)
      as (schedule & σ' & Hrun & Hfin).
    pose proof (run_schedule_from_reachable _ _ _ _ _ Hreach Hrun) as Hreach'.
    exists schedule, σ'. split_and!; [done|done| |].
    + pose proof (remaining_run _ _ _ Hrun) as Hlen.
      assert (Hzero : Permits.remaining σ' = 0%nat); [|lia].
      unfold Permits.remaining.
      pose proof (proj1 (finished_spec σ') Hfin) as Hall.
      assert (Hgen : ∀ l : list Sched.thread,
                (∀ t, t ∈ l → Sched.future t = []) →
                sum_list_with (λ t, length (Sched.future t)) l = 0%nat).
      { induction l as [|t l IH]; intros Hl; [done|]. simpl.
        rewrite (Hl t) by left. rewrite IH; [done|].
        intros t' Ht'. apply Hl. by right. }
      apply Hgen. intros t [i Ht]%list_elem_of_lookup. by eapply Hall.
    + by rewrite (exit_codes_continuing cleanup cfg jobs σ'), Hfin.
Qed.

Lemma every_run_completes_witness :
  (0 < Runner.concurrency (Example.cfg true))%nat ∧
  Runner.shouldContinueTestsOnError (Example.cfg true) = true ∧
  Example.siblings ≠ [] ∧
  ∃ schedule σ',
    Sched.run_schedule schedule
      (Sched.boot (Example.cfg true)
         (Runner.programs (H := Runner.posix_path) (Example.cfg true)
            Example.siblings)) = Some σ'
    ∧ Sched.finished σ' = true
    ∧ length schedule
      = Permits.remaining
          (Sched.boot (Example.cfg true)
             (Runner.programs (H := Runner.posix_path) (Example.cfg true)
                Example.siblings))
    ∧ Sched.exit_codes false None Example.siblings σ' = [0].
Proof.
  assert (Hconc : (0 < Runner.concurrency (Example.cfg true))%nat)
    by (simpl; lia).
  split_and!; [done|reflexivity|done|].
  exact (proj2 (every_run_completes (H := Runner.posix_path) (Example.cfg true)
                  Example.siblings _ false Hconc eq_refl ltac:(done)
                  (rtc_refl _ _))).
Defined.

Section EventFacts.
Import Runner Sched Permits.
Context `{Path}.


End EventFacts.



(** ** Properties of the bundle configuration *)

Example bundle_examples :
  Bundle.filename false false false = "[name].runtime.prod.js"%string ∧
  Bundle.filename true true true = "[name]-turbo-experimental.runtime.dev.js"%string ∧
  Bundle.output_file "app-page" true false true
  = "app-page-experimental.runtime.dev.js"%string ∧
  Bundle.calculateUniquePort false false false "app" = 8889 ∧
  Bundle.calculateUniquePort true true true "server" = 10131.
Proof. by vm_compute. Qed.

(** X18: the port of the bundle analyzer tells the builds apart: two
    builds get the same port exactly when they agree on [dev], [turbo]
    and [experimental] and their bundle types are both [app], both
    [pages], or both something else; the three configured bundle types
    never share one.  The port lies between 8889 and 10131. *)
Theorem analyzer_port_is_unique (dev1 turbo1 experimental1 : bool) (type1 : string)
  (dev2 turbo2 experimental2 : bool) (type2 : string) :
  let kind type := if String.eqb type "app" then 1
                   else if String.eqb type "pages" then 2 else 3 in
  (Bundle.calculateUniquePort dev1 turbo1 experimental1 type1
   = Bundle.calculateUniquePort dev2 turbo2 experimental2 type2
   ↔ dev1 = dev2 ∧ turbo1 = turbo2 ∧ experimental1 = experimental2
     ∧ kind type1 = kind type2) ∧
  (type1 ∈ Bundle.bundleTypes.*1 → type2 ∈ Bundle.bundleTypes.*1 →
   Bundle.calculateUniquePort dev1 turbo1 experimental1 type1
   = Bundle.calculateUniquePort dev2 turbo2 experimental2 type2 →
   type1 = type2) ∧
  8889 ≤ Bundle.calculateUniquePort dev1 turbo1 experimental1 type1 ≤ 10131.
Proof.
  intros kind.
  assert (Hiff : Bundle.calculateUniquePort dev1 turbo1 experimental1 type1
   = Bundle.calculateUniquePort dev2 turbo2 experimental2 type2
   ↔ dev1 = dev2 ∧ turbo1 = turbo2 ∧ experimental1 = experimental2
     ∧ kind type1 = kind type2).
  { subst kind. unfold Bundle.calculateUniquePort. cbv zeta.
    set (k1 := if String.eqb type1 "app" then 1
               else if String.eqb type1 "pages" then 2 else 3).
    set (k2 := if String.eqb type2 "app" then 1
               else if String.eqb type2 "pages" then 2 else 3).
    destruct dev1, dev2, turbo1, turbo2, experimental1, experimental2;
      split; try (intros (? & ? & ? & ?)); try intros ?; try done;
      try (exfalso; subst k1 k2; repeat case_match; lia);
      try (split_and!; try done; lia); lia. }
  split_and!.
  - exact Hiff.
  - intros H1 H2 Heq. apply Hiff in Heq as (_ & _ & _ & Hkind). subst kind.
    simpl in H1, H2.
    repeat (apply elem_of_cons in H1 as [->|H1]);
      [..|by apply elem_of_nil in H1];
      repeat (apply elem_of_cons in H2 as [->|H2]);
      try (by apply elem_of_nil in H2); by vm_compute in Hkind.
  - unfold Bundle.calculateUniquePort. cbv zeta.
    destruct dev1, turbo1, experimental1, (String.eqb type1 "app"),
      (String.eqb type1 "pages"); lia.
  - unfold Bundle.calculateUniquePort. cbv zeta.
    destruct dev1, turbo1, experimental1, (String.eqb type1 "app"),
      (String.eqb type1 "pages"); lia.
Qed.

(** X19: no two builds write the same file: the file name pattern differs
    as soon as one of [dev], [turbo], [experimental] does, and over the
    five entries of the three bundle types the output files of different
    entries or different options are different. *)
Theorem output_files_never_collide (dev1 turbo1 experimental1 : bool)
  (dev2 turbo2 experimental2 : bool) :
  (Bundle.filename dev1 turbo1 experimental1
   = Bundle.filename dev2 turbo2 experimental2 →
   dev1 = dev2 ∧ turbo1 = turbo2 ∧ experimental1 = experimental2) ∧
  (∀ name1 name2,
     name1 ∈ concat Bundle.bundleTypes.*2 → name2 ∈ concat Bundle.bundleTypes.*2 →
     Bundle.output_file name1 dev1 turbo1 experimental1
     = Bundle.output_file name2 dev2 turbo2 experimental2 →
     name1 = name2 ∧ dev1 = dev2 ∧ turbo1 = turbo2 ∧ experimental1 = experimental2).
Proof.
  split.
  - destruct dev1, dev2, turbo1, turbo2, experimental1, experimental2;
      intros Heq; by vm_compute in Heq.
  - intros name1 name2 H1 H2. simpl in H1, H2.
    repeat (apply elem_of_cons in H1 as [->|H1]);
      [..|by apply elem_of_nil in H1];
      repeat (apply elem_of_cons in H2 as [->|H2]);
      try (by apply elem_of_nil in H2);
      destruct dev1, dev2, turbo1, turbo2, experimental1, experimental2;
      intros Heq; by vm_compute in Heq.
Qed.
